(** * GeneratedMapLoader: procedural terrain generation

    A shallow embedding of [src/core/game/GeneratedMapLoader.ts] (the loader,
    its terrain passes and the [Simplex2D] noise engine) and of the parameter
    store it reads, together with the properties the specification states
    about them.

    Conventions of the embedding:
    - a JavaScript number is an IEEE-754 binary64 value: Rocq's primitive
      [float]; integer-valued numbers that the code only uses as integers
      (seeds, coordinates, sizes, array cells) are [Z], with the 32-bit
      wrap-around of the bit operators written out;
    - a [Uint8Array] is a [list Z] of bytes; reading outside the array gives
      [None] (JavaScript's [undefined]) and writing outside is ignored;
    - [Math.pow], [Math.cos] and [Math.sin] are implementation-approximated
      by the language standard: they are the fields of a [MathLib] the
      generator is parameterised by;
    - the two breadth-first loops run on fuel; the fuel given is shown to be
      enough, so the option results are always [Some]. *)

From Stdlib Require Import ZArith Lia Bool.
From Stdlib Require Import Floats.PrimFloat Floats.FloatOps Floats.SpecFloat.
From Stdlib Require Import Floats.FloatAxioms.
From stdpp Require Import base option list strings gmap.

(* Decimal literals denote the nearest binary64 value, as in JavaScript. *)
Set Warnings "-inexact-float".

Local Open Scope Z_scope.

(** ** JavaScript integer operators *)

Module JS.

Definition ToUint32 (z : Z) : Z := z mod 2 ^ 32.

Definition ToInt32 (z : Z) : Z :=
  let u := z mod 2 ^ 32 in
  if u <? 2 ^ 31 then u else u - 2 ^ 32.

(** [x << n], [x >>> n], [x ^ y], [x & y], [x | y], [~x] on numbers that
    hold integers. *)
Definition shl (x n : Z) : Z := ToInt32 (Z.shiftl (ToInt32 x) n).
Definition ushr (x n : Z) : Z := Z.shiftr (ToUint32 x) n.
Definition xor (x y : Z) : Z := Z.lxor (ToInt32 x) (ToInt32 y).
Definition and (x y : Z) : Z := Z.land (ToInt32 x) (ToInt32 y).
Definition or (x y : Z) : Z := Z.lor (ToInt32 x) (ToInt32 y).
Definition not (x : Z) : Z := Z.lnot (ToInt32 x).

(** [undefined] behaves as 0 under the bit operators. *)
Definition num (v : option Z) : Z := default 0 v.

(** ** Typed arrays *)

(** [a[i]] *)
Definition rd (a : list Z) (i : Z) : option Z :=
  if i <? 0 then None else a !! Z.to_nat i.

(** [a[i] = v] on a [Uint8Array]: the value is stored modulo 256. *)
Definition wr (a : list Z) (i : Z) (v : Z) : list Z :=
  if i <? 0 then a else <[Z.to_nat i := v mod 256]> a.

(** [new Uint8Array(n)] *)
Definition newUint8Array (n : nat) : list Z := replicate n 0.

(** [a[i] === v] *)
Definition same (c : option Z) (v : Z) : bool :=
  match c with Some x => x =? v | None => false end.

(** truthiness of a cell *)
Definition truthy (c : option Z) : bool :=
  match c with Some x => negb (x =? 0) | None => false end.

End JS.

(** ** The noise engine's integer part *)

Module Simplex.

(** [xorshift32(x)] *)
Definition xorshift32 (x : Z) : Z :=
  let x := JS.xor x (JS.shl x 13) in
  let x := JS.xor x (JS.ushr x 17) in
  let x := JS.xor x (JS.shl x 5) in
  JS.ushr x 0.

(** The body of the shuffle loop for one [i]. *)
Definition shuffleStep (i : Z) (st : Z * list Z) : Z * list Z :=
  let '(s, p) := st in
  let s := xorshift32 s in
  let j := Z.rem s (i + 1) in
  let tmp := JS.num (JS.rd p i) in
  let p := JS.wr p i (JS.num (JS.rd p j)) in
  let p := JS.wr p j tmp in
  (s, p).

(** [for (let i = n; i > 0; i--)] *)
Fixpoint shuffle (n : nat) (st : Z * list Z) : Z * list Z :=
  match n with
  | O => st
  | S n' => shuffle n' (shuffleStep (Z.of_nat n) st)
  end.

(** [buildPermutation(seed)] *)
Definition buildPermutation (seed : Z) : list Z :=
  snd (shuffle 255 (JS.ushr seed 0, seqZ 0 256)).

(** A table is a derangement when no entry holds its own index. *)
Definition derangement (p : list Z) : Prop :=
  ∀ (i : nat) (x : Z), p !! i = Some x → x ≠ Z.of_nat i.

End Simplex.

(** ** JavaScript numbers *)

Module Num.

Local Open Scope float_scope.

(** The number that holds the integer [z] (exact below 2^53). *)
Definition ofZ (z : Z) : float := SF2Prim (binary_normalize prec emax z 0%Z false).

(** The integer part of a number, towards zero; 0 for NaN and the
    infinities: the first step of ToInt32 and ToUint32. *)
Definition truncZ (x : float) : Z :=
  match Prim2SF x with
  | S754_finite s m e =>
      let a := Z.shiftl (Z.pos m) e in if s then (- a)%Z else a
  | _ => 0%Z
  end.

(** [Math.floor] *)
Definition Math_floor (x : float) : float :=
  match Prim2SF x with
  | S754_finite s m e =>
      if (0 <=? e)%Z then x
      else ofZ (Z.shiftl (if s then Z.neg m else Z.pos m) e)
  | _ => x
  end.

(** [Math.min] and [Math.max]: NaN if an argument is NaN, and -0 below +0. *)
Definition Math_min (a b : float) : float :=
  if is_nan a then a else if is_nan b then b
  else if a <? b then a else if b <? a then b
  else if get_sign a then a else b.

Definition Math_max (a b : float) : float :=
  if is_nan a then a else if is_nan b then b
  else if a <? b then b else if b <? a then a
  else if get_sign a then b else a.

(** Rounding to binary32 and back, as a store into a [Float32Array] does. *)
Definition Math_fround (x : float) : float :=
  match Prim2SF x with
  | S754_finite s m e => SF2Prim (binary_round 24 128 s m e)
  | _ => x
  end.

Definition Math_PI : float := 3.141592653589793.

End Num.

(** The functions the language standard leaves implementation-approximated. *)
Record MathLib := {
  Math_pow : float → float → float;
  Math_cos : float → float;
  Math_sin : float → float;
}.

(** ** GeneratedParams: the parameter store's snapshot type *)

Record GeneratedParams := {
  octaves : Z;
  lacunarity : float;
  persistence : float;
  landThreshold : float;
  seed : Z;
  contrastGamma : float;
  width : nat;
  height : nat;
  width4x : nat;
  height4x : nat;
  width16x : nat;
  height16x : nat;
  minLandRegionSize : Z;
  minWaterRegionSize : Z;
  smoothingRadius : Z;
  ridgeAccent : bool;
}.

(** [defaultParams] *)
Definition DefaultGeneratedParams : GeneratedParams := {|
  octaves := 5;
  lacunarity := 2.0;
  persistence := 0.6;
  landThreshold := 0.46;
  seed := 123456789;
  contrastGamma := 0.8;
  width := 512;
  height := 256;
  width4x := 1024;
  height4x := 512;
  width16x := 2048;
  height16x := 1024;
  minLandRegionSize := 30;
  minWaterRegionSize := 200;
  smoothingRadius := 1;
  ridgeAccent := true;
|}.

(** ** Simplex2D: the gradient noise engine *)

Module Simplex2D.

Import Num.

Record t := {
  perm : list Z;
  gradX : list float;
  gradY : list float;
}.

(** [randFloat(seed)]; the product and sum stay below 2^53, so they are
    exact on numbers. *)
Definition randFloat (seed : Z) : float :=
  let s := JS.ushr (JS.xor seed 0x9e3779b9) 0 in
  let s := JS.ushr (1664525 * s + 1013904223) 0 in
  (ofZ (JS.and s 0xfffffff) / ofZ 0xfffffff)%float.

Section Engine.

Variable M : MathLib.

(** [new Simplex2D(seed)] *)
Definition new (seed : Z) : t :=
  let angle (i : Z) : float := (randFloat (seed + i * 31) * Math_PI * 2)%float in
  {| perm := Simplex.buildPermutation seed;
     gradX := (λ i, Math_fround (Math_cos M (angle i))) <$> seqZ 0 256;
     gradY := (λ i, Math_fround (Math_sin M (angle i))) <$> seqZ 0 256 |}.

End Engine.

(** [this.gradX[gi]] *)
Definition at_ (g : list float) (gi : Z) : float :=
  default nan (g !! Z.to_nat gi).

(** [gradIndex(i, j)] *)
Definition gradIndex (this : t) (i j : float) : Z :=
  let idx := JS.xor (JS.num (JS.rd (perm this) (JS.and (truncZ i) 255)))
                    (JS.num (JS.rd (perm this) (JS.and (truncZ j) 255))) in
  JS.and idx 255.

Local Open Scope float_scope.

(** [noise(x, y)] *)
Definition noise (this : t) (x y : float) : float :=
  let F2 := 0.3660254037844386 in
  let G2 := 0.21132486540518713 in
  let s := (x + y) * F2 in
  let i := Math_floor (x + s) in
  let j := Math_floor (y + s) in
  let t := (i + j) * G2 in
  let X0 := i - t in
  let Y0 := j - t in
  let x0 := x - X0 in
  let y0 := y - Y0 in
  let '(i1, j1) := if y0 <? x0 then (1, 0) else (0, 1) in
  let x1 := x0 - i1 + G2 in
  let y1 := y0 - j1 + G2 in
  let x2 := x0 - 1 + 2 * G2 in
  let y2 := y0 - 1 + 2 * G2 in
  let gi0 := gradIndex this i j in
  let gi1 := gradIndex this (i + i1) (j + j1) in
  let gi2 := gradIndex this (i + 1) (j + 1) in
  let corner (t0 : float) (gi : Z) (dx dy : float) : float :=
    if 0 <=? t0 then
      let t0 := t0 * t0 in
      t0 * t0 * (at_ (gradX this) gi * dx + at_ (gradY this) gi * dy)
    else 0 in
  let n0 := corner (0.5 - x0 * x0 - y0 * y0) gi0 x0 y0 in
  let n1 := corner (0.5 - x1 * x1 - y1 * y1) gi1 x1 y1 in
  let n2 := corner (0.5 - x2 * x2 - y2 * y2) gi2 x2 y2 in
  70.0 * (n0 + n1 + n2).

End Simplex2D.

(** ** The passes over the encoded terrain buffer *)

Module Terrain.

Definition IS_LAND_BIT : Z := 7.
Definition SHORELINE_BIT : Z := 6.
Definition OCEAN_BIT : Z := 5.
Definition MAG_MASK : Z := 0x1f.

(** [(cell & (1 << bit)) !== 0] *)
Definition hasBit (cell : option Z) (bit : Z) : bool :=
  negb (JS.and (JS.num cell) (JS.shl 1 bit) =? 0).

(** [index(x, y)] *)
Definition index (width : Z) (x y : Z) : Z := y * width + x.

(** [inBounds(x, y)] *)
Definition inBounds (width height : Z) (x y : Z) : bool :=
  (0 <=? x) && (x <? width) && (0 <=? y) && (y <? height).

(** [nx < 0 || ny < 0 || nx >= width || ny >= height] *)
Definition outside (width height : Z) (nx ny : Z) : bool :=
  (nx <? 0) || (ny <? 0) || (nx >=? width) || (ny >=? height).

Definition dirs : list (Z * Z) := [(1, 0); (-1, 0); (0, 1); (0, -1)].

(** The cells in the order of
    [for (y = 0; y < height; y++) for (x = 0; x < width; x++)]. *)
Definition coords (width height : Z) : list (Z * Z) :=
  flat_map (λ y, (λ x, (x, y)) <$> seqZ 0 width) (seqZ 0 height).

(** A loop over a list whose body may run out of fuel. *)
Fixpoint foldM {A S : Type} (f : S → A → option S) (l : list A) (s : S) : option S :=
  match l with
  | [] => Some s
  | a :: l' => match f s a with Some s' => foldM f l' s' | None => None end
  end.

(** *** removeSmallRegions *)

Section RemoveSmallRegions.

Variables (grid : list Z) (width height : Z).

(** One direction of the [for (const [dx, dy] of dirs)] loop of [bfs]. *)
Definition bfsVisit (target : Z) (cx cy : Z)
    (st : list Z * list (Z * Z)) (d : Z * Z) : list Z * list (Z * Z) :=
  let '(visited, q) := st in
  let '(dx, dy) := d in
  let nx := cx + dx in
  let ny := cy + dy in
  if outside width height nx ny then st
  else
    let ni := index width nx ny in
    if JS.same (JS.rd visited ni) 1 then st
    else if JS.same (JS.rd grid ni) target
         then (JS.wr visited ni 1, q ++ [(nx, ny)])
         else st.

(** [while (q.length > 0)] of [bfs]; the state is
    [(visited, size, cells)]. *)
Fixpoint bfsLoop (fuel : nat) (target : Z) (visited : list Z)
    (q : list (Z * Z)) (cells : list (Z * Z)) (size : Z)
    : option (list Z * Z * list (Z * Z)) :=
  match q with
  | [] => Some (visited, size, cells)
  | (cx, cy) :: q' =>
      match fuel with
      | O => None
      | S fuel' =>
          let cells := cells ++ [(cx, cy)] in
          let size := size + 1 in
          let '(visited, q') :=
            fold_left (bfsVisit target cx cy) dirs (visited, q') in
          bfsLoop fuel' target visited q' cells size
      end
  end.

(** [bfs(sx, sy, target)] *)
Definition bfs (visited : list Z) (sx sy : Z) (target : Z)
    : option (list Z * Z * list (Z * Z)) :=
  bfsLoop (S (length grid)) target (JS.wr visited (index width sx sy) 1)
          [(sx, sy)] [] 0.

End RemoveSmallRegions.

(** The body of the two scans of [removeSmallRegions]: the land scan has
    [target = 1], [fill = 0]; the water scan has [target = 0], [fill = 1]. *)
Definition pruneAt (width height : Z) (target fill minSize : Z)
    (st : list Z * list Z) (c : Z * Z) : option (list Z * list Z) :=
  let '(grid, visited) := st in
  let '(x, y) := c in
  let i := index width x y in
  if JS.same (JS.rd visited i) 0 && JS.same (JS.rd grid i) target then
    match bfs grid width height visited x y target with
    | None => None
    | Some (visited, size, cells) =>
        if size <? minSize
        then Some (fold_left (λ g '(cx, cy), JS.wr g (index width cx cy) fill) cells grid,
                   visited)
        else Some (grid, visited)
    end
  else Some (grid, visited).

(** [removeSmallRegions(grid, width, height, minLandSize, minWaterSize)] *)
Definition removeSmallRegions (grid : list Z) (width height : Z)
    (minLandSize minWaterSize : Z) : option (list Z) :=
  let visited := JS.newUint8Array (length grid) in
  '(grid, visited) ← foldM (pruneAt width height 1 0 minLandSize)
                           (coords width height) (grid, visited);
  let visited := replicate (length visited) 0 in
  '(grid, _) ← foldM (pruneAt width height 0 1 minWaterSize)
                     (coords width height) (grid, visited);
  Some grid.

(** *** Ocean flood fill *)

(** Seeds: the water cells of the top and bottom rows, then of the left and
    right columns. *)
Definition edgeSeeds (out : list Z) (width height : Z) : list (Z * Z) :=
  flat_map (λ x, flat_map (λ y,
      if hasBit (JS.rd out (index width x y)) IS_LAND_BIT then [] else [(x, y)])
    [0; height - 1]) (seqZ 0 width)
  ++
  flat_map (λ y, flat_map (λ x,
      if hasBit (JS.rd out (index width x y)) IS_LAND_BIT then [] else [(x, y)])
    [0; width - 1]) (seqZ 0 height).

(** One direction of the neighbour loop of the flood fill. *)
Definition floodVisit (out visited : list Z) (width height : Z) (cx cy : Z)
    (q : list (Z * Z)) (d : Z * Z) : list (Z * Z) :=
  let '(dx, dy) := d in
  let nx := cx + dx in
  let ny := cy + dy in
  if negb (inBounds width height nx ny) then q
  else
    let ni := index width nx ny in
    if JS.truthy (JS.rd visited ni) then q
    else if hasBit (JS.rd out ni) IS_LAND_BIT then q
         else q ++ [(nx, ny)].

(** [while (q.length > 0)] of the flood fill. *)
Fixpoint floodLoop (fuel : nat) (width height : Z) (out visited : list Z)
    (q : list (Z * Z)) : option (list Z * list Z) :=
  match q with
  | [] => Some (out, visited)
  | (cx, cy) :: q' =>
      match fuel with
      | O => None
      | S fuel' =>
          let ci := index width cx cy in
          if JS.truthy (JS.rd visited ci)
          then floodLoop fuel' width height out visited q'
          else
            let visited := JS.wr visited ci 1 in
            if hasBit (JS.rd out ci) IS_LAND_BIT
            then floodLoop fuel' width height out visited q'
            else
              let out := JS.wr out ci (JS.or (JS.num (JS.rd out ci)) (JS.shl 1 OCEAN_BIT)) in
              let q' := fold_left (floodVisit out visited width height cx cy) dirs q' in
              floodLoop fuel' width height out visited q'
      end
  end.

Definition floodOceans (out : list Z) (width height : Z) : option (list Z) :=
  let visited := JS.newUint8Array (Z.to_nat (width * height)) in
  let q := edgeSeeds out width height in
  fst <$> floodLoop (length q + 4 * length visited) width height out visited q.

(** *** Shoreline *)

Definition shorelineAt (width height : Z) (out : list Z) (c : Z * Z) : list Z :=
  let '(x, y) := c in
  let i := index width x y in
  if negb (hasBit (JS.rd out i) IS_LAND_BIT) then out
  else
    let adjacentOcean := false in
    let adjacentOcean :=
      if (0 <? x) && hasBit (JS.rd out (index width (x - 1) y)) OCEAN_BIT
      then true else adjacentOcean in
    let adjacentOcean :=
      if (x + 1 <? width) && hasBit (JS.rd out (index width (x + 1) y)) OCEAN_BIT
      then true else adjacentOcean in
    let adjacentOcean :=
      if (0 <? y) && hasBit (JS.rd out (index width x (y - 1))) OCEAN_BIT
      then true else adjacentOcean in
    let adjacentOcean :=
      if (y + 1 <? height) && hasBit (JS.rd out (index width x (y + 1))) OCEAN_BIT
      then true else adjacentOcean in
    if adjacentOcean
    then JS.wr out i (JS.or (JS.num (JS.rd out i)) (JS.shl 1 SHORELINE_BIT))
    else out.

Definition markShoreline (out : list Z) (width height : Z) : list Z :=
  fold_left (shorelineAt width height) (coords width height) out.

(** *** Smoothing and ridge accent *)

(** The [(sum, count)] of the land magnitudes of [copy] in the window of
    the given radius around [(x, y)]. *)
Definition windowSum (copy : list Z) (width height : Z) (radius : Z) (x y : Z) : Z * Z :=
  fold_left (λ acc dy,
    fold_left (λ '(sum, count) dx,
      let nx := x + dx in
      let ny := y + dy in
      if outside width height nx ny then (sum, count)
      else
        let ni := index width nx ny in
        if JS.and (JS.num (JS.rd copy ni)) (JS.shl 1 IS_LAND_BIT) =? 0 then (sum, count)
        else (sum + JS.and (JS.num (JS.rd copy ni)) MAG_MASK, count + 1))
      (seqZ (- radius) (2 * radius + 1)) acc)
    (seqZ (- radius) (2 * radius + 1)) (0, 0).

(** [(out[i] & ~MAG_MASK) | (m & MAG_MASK)] *)
Definition withMagnitude (cell : option Z) (m : Z) : Z :=
  JS.or (JS.and (JS.num cell) (JS.not MAG_MASK)) (JS.and m MAG_MASK).

Definition smoothAt (copy : list Z) (width height : Z) (radius : Z)
    (out : list Z) (c : Z * Z) : list Z :=
  let '(x, y) := c in
  let i := index width x y in
  if JS.and (JS.num (JS.rd copy i)) (JS.shl 1 IS_LAND_BIT) =? 0 then out
  else if radius =? 0 then out
  else
    let '(sum, count) := windowSum copy width height radius x y in
    let avg := Z.min 31 (Z.max 0 (sum / Z.max 1 count)) in
    JS.wr out i (withMagnitude (JS.rd out i) avg).

Definition smoothMagnitude (out : list Z) (width height : Z) (smoothingRadius : Z) : list Z :=
  let copy := out in
  let radius := Z.max 0 (Z.min 2 smoothingRadius) in
  fold_left (smoothAt copy width height radius) (coords width height) out.

Definition accentAt (copy : list Z) (width height : Z)
    (out : list Z) (c : Z * Z) : list Z :=
  let '(x, y) := c in
  let i := index width x y in
  if JS.and (JS.num (JS.rd copy i)) (JS.shl 1 IS_LAND_BIT) =? 0 then out
  else
    let selfMag := JS.and (JS.num (JS.rd copy i)) MAG_MASK in
    let '(sum, count) := windowSum copy width height 1 x y in
    let avg := sum / Z.max 1 count in
    if selfMag >=? avg + 2 then
      let boosted := Z.min 31 (selfMag + 2) in
      JS.wr out i (withMagnitude (JS.rd out i) boosted)
    else out.

Definition ridgeAccentPass (out : list Z) (width height : Z) (enableAccent : bool) : list Z :=
  if enableAccent then
    let copy := out in
    fold_left (accentAt copy width height) (coords width height) out
  else out.

(** [countLand(buf)] *)
Definition countLand (buf : list Z) : Z :=
  fold_left (λ c b, c + (if b =? 1 then 1 else 0)) buf 0.

(** The number of cells whose IS_LAND bit is set. *)
Definition landCells (buf : list Z) : Z :=
  fold_left (λ c b, c + (if hasBit (Some b) IS_LAND_BIT then 1 else 0)) buf 0.

End Terrain.

(** ** GeneratedMapLoader *)

(** [MapManifest] and [MapData] *)
Record MapMetadata := {
  md_width : nat;
  md_height : nat;
  num_land_tiles : Z;
}.

(** A nation has a name and coordinates; the loader never builds one. *)
Record Nation := { nation_name : string; nation_x : Z; nation_y : Z }.

Record MapManifest := {
  name : string;
  map : MapMetadata;
  map4x : MapMetadata;
  map16x : MapMetadata;
  nations : list Nation;
}.

(** The five accessors of [MapData] return promises of values fixed when the
    product is built; the record holds those values. *)
Record MapData := {
  mapBin : list Z;
  map4xBin : list Z;
  map16xBin : list Z;
  manifest : MapManifest;
  webpPath : string;
}.

(** The result of a call that may throw. *)
Inductive Outcome (A : Type) :=
  | Return (a : A)
  | Throw (message : string).
Arguments Return {A} a.
Arguments Throw {A} message.

(** A loader instance: the constructor's [params] ([None] when omitted) and
    the cache [maps], keyed by the map identity. [GameMapType] is a string
    enum (its members are used as object keys and interpolated in the error
    message), so an identity is a [string]. *)
Record GeneratedMapLoader := {
  params : option GeneratedParams;
  maps : gmap string MapData;
}.

Module Loader.

Import Num Terrain.

(** [new GeneratedMapLoader(params)] *)
Definition new (params : option GeneratedParams) : GeneratedMapLoader :=
  {| params := params; maps := ∅ |}.

Section Generation.

Variable M : MathLib.

(** [GameMapType.Generated]: the enum is declared outside the sources
    at hand, so its value is a parameter. *)
Variable Generated : string.

(** The octave table and the amplitude sum built from the store. *)
Definition buildOctaves (p : GeneratedParams) : list (float * float) * float :=
  let baseFreq := (1 / 256)%float in
  let baseAmp := 0.55%float in
  fold_left (λ '(octs, ampSum) i,
      let freq := (baseFreq * Math_pow M (lacunarity p) (ofZ i))%float in
      let amp := (baseAmp * Math_pow M (persistence p) (ofZ i))%float in
      (octs ++ [(freq, amp)], (ampSum + amp)%float))
    (seqZ 0 (octaves p)) ([], 0%float).

(** The body of the cell loop: the byte written to [out[idx]]. *)
Definition terrainByte (noise : Simplex2D.t) (octs : list (float * float))
    (ampSum gamma landThreshold : float) (x y : Z) : Z :=
  let v := fold_left (λ v '(freq, amp),
             v + amp * Simplex2D.noise noise (ofZ x * freq) (ofZ y * freq))%float
           octs 0%float in
  let v := ((v / ampSum + 1) / 2)%float in
  let v := Math_pow M (Math_min 1 (Math_max 0 v)) gamma in
  let isLand := (landThreshold <? v)%float in
  let vLand := if isLand
               then Math_min 1 (Math_max 0 ((v - landThreshold) / (1 - landThreshold)))%float
               else 0%float in
  let magnitude := Math_max 0 (Math_min 31 (Math_floor (vLand * 31)%float)) in
  let landBit := if isLand then JS.shl 1 7 else 0 in
  let oceanBit := if isLand then 0 else JS.shl 1 5 in
  JS.and (JS.or (JS.or landBit oceanBit) (JS.and (truncZ magnitude) 0x1f)) 0xff.

(** The first block of [generateTerrainBin]: [idx] runs along with
    [(x, y)], so [out] is the list of the bytes in scan order. *)
Definition encodeField (this : GeneratedMapLoader) (store : GeneratedParams)
    (width height : Z) (seed : Z) (landThreshold : float) : list Z :=
  let noise := Simplex2D.new M seed in
  let p := store in
  let '(octs, ampSum) := buildOctaves p in
  let ampSum := if (ampSum <=? 0)%float then 1%float else ampSum in
  (λ '(x, y),
     let gamma := contrastGamma (default store (params this)) in
     terrainByte noise octs ampSum gamma landThreshold x y)
  <$> coords width height.

(** The passes that follow the encoding, on the buffer [out]. *)
Definition postProcess (minLandRegionSize minWaterRegionSize : Z)
    (smoothingRadius : Z) (enableAccent : bool)
    (out : list Z) (width height : Z) : option (list Z) :=
  out ← removeSmallRegions out width height minLandRegionSize minWaterRegionSize;
  out ← floodOceans out width height;
  let out := markShoreline out width height in
  let out := smoothMagnitude out width height smoothingRadius in
  let out := ridgeAccentPass out width height enableAccent in
  Some out.

(** [generateTerrainBin(width, height, seed, landThreshold)]; the store
    argument is what [GeneratedParams.get()] returns during the call. *)
Definition generateTerrainBin (this : GeneratedMapLoader) (store : GeneratedParams)
    (width height : nat) (seed : Z) (landThreshold : float) : option (list Z) :=
  let W := Z.of_nat width in
  let H := Z.of_nat height in
  let out := encodeField this store W H seed landThreshold in
  let p := store in
  postProcess (minLandRegionSize p) (minWaterRegionSize p)
              (smoothingRadius (default store (params this)))
              (ridgeAccent (default store (params this)))
              out W H.

(** [generateNations(_defaults)] *)
Definition generateNations (_defaults : list Nation) : list Nation := [].

(** [placeholderThumbnail()] *)
Definition placeholderThumbnail : string :=
  "data:image/png;base64,iVBORw0KGgoAAAANSUhEUgAAAAEAAAABCAQAAAC1HAwCAAAAC0lEQVR42mP8/x8AAoMBgYQJk+UAAAAASUVORK5CYII=".

(** [getMapData(map)]: the outcome and the loader after the call. *)
Definition getMapData (this : GeneratedMapLoader) (store : GeneratedParams)
    (map : string) : option (Outcome MapData * GeneratedMapLoader) :=
  if negb (String.eqb map Generated) then
    Some (Throw ("GeneratedMapLoader only supports GameMapType.Generated, received: " +:+ map),
          this)
  else
    match maps this !! map with
    | Some cached => Some (Return cached, this)
    | None =>
        let p := default store (params this) in
        let seed := seed p in
        mapBin ← generateTerrainBin this store (width p) (height p) seed (landThreshold p);
        map4xBin ← generateTerrainBin this store (width4x p) (height4x p) (seed + 101)
                                     (landThreshold p);
        map16xBin ← generateTerrainBin this store (width16x p) (height16x p) (seed + 202)
                                      (landThreshold p);
        let manifest := {|
          name := "Generated";
          map := {| md_width := width p; md_height := height p;
                    num_land_tiles := countLand mapBin |};
          map4x := {| md_width := width4x p; md_height := height4x p;
                      num_land_tiles := countLand map4xBin |};
          map16x := {| md_width := width16x p; md_height := height16x p;
                       num_land_tiles := countLand map16xBin |};
          nations := generateNations [];
        |} in
        let data := {|
          mapBin := mapBin;
          map4xBin := map4xBin;
          map16xBin := map16xBin;
          manifest := manifest;
          webpPath := placeholderThumbnail;
        |} in
        Some (Return data,
              {| params := params this; maps := <[map := data]> (maps this) |})
    end.

End Generation.

End Loader.

(** ** Notions used by the statements and the proofs *)

(** Decoding a terrain byte, after the bit layout of the buffer. *)
Module Cell.

Definition isLand (c : Z) : bool := Z.testbit c 7.
Definition isShoreline (c : Z) : bool := Z.testbit c 6.
Definition isOcean (c : Z) : bool := Z.testbit c 5.
Definition magnitude (c : Z) : Z := c mod 32.

(** The bytes the generator produces: water is exactly the OCEAN flag, land
    is the IS_LAND flag, possibly SHORELINE, and a magnitude. *)
Definition wellFormed (c : Z) : bool :=
  (c =? 32) || ((128 <=? c) && (c <? 160)) || ((192 <=? c) && (c <? 224)).

(** A pass keeps a cell when the byte stays well formed and stays on its
    side of the land/water divide. *)
Definition keeps (c0 c : Z) : Prop :=
  wellFormed c = true ∧
  Terrain.hasBit (Some c) Terrain.IS_LAND_BIT = Terrain.hasBit (Some c0) Terrain.IS_LAND_BIT.

(** The bit invariants of the specification, on one byte. *)
Definition bitInvariants (c : Z) : Prop :=
  ¬ (isLand c = true ∧ isOcean c = true) ∧
  (isShoreline c = true → isLand c = true) ∧
  (isLand c = false → magnitude c = 0) ∧
  0 ≤ magnitude c ≤ 31.

End Cell.

(** The cells of a [visited] array not yet marked. *)
Definition unvisited (visited : list Z) : nat :=
  length (filter (λ v, v = 0) visited).

(** The cells of a [visited] array that [bfs] has not marked. *)
Definition unmarked (visited : list Z) : nat :=
  length (filter (λ v, v ≠ 1) visited).

(** Every queued cell is inside the grid, unless the grid has no cell. *)
Definition queueOk (width height : Z) (q : list (Z * Z)) : Prop :=
  (width ≤ 0 ∨ height ≤ 0) ∨
  Forall (λ c, Terrain.inBounds width height c.1 c.2 = true) q.

(** The permutation table holds the values 0..255, each once. *)
Definition tableOk (p : list Z) : Prop := p ≡ₚ seqZ 0 256.

(** ** A reference engine

    Series approximations of the three implementation-approximated
    functions, with the special values the language standard fixes. The
    general theorems hold for every [MathLib]; this one instantiates the
    conditional theorems and the worked examples. *)

Module RefMath.

Import Num.
Local Open Scope float_scope.

(** [acc + term * (1 + step + step^2 ...)]-style evaluation of a power
    series: [next k term] is the term after [term]. *)
Fixpoint series (n : nat) (next : float → float → float) (k term acc : float) : float :=
  match n with
  | O => acc
  | S n' => series n' next (k + 1) (next k term) (acc + term)
  end.

Definition cos (x : float) : float :=
  series 30 (λ k term, - term * x * x / ((2 * k + 1) * (2 * k + 2))) 0 1 0.

Definition sin (x : float) : float :=
  series 30 (λ k term, - term * x * x / ((2 * k + 2) * (2 * k + 3))) 0 x 0.

Definition ln2 : float := 0.6931471805599453.

(** Natural logarithm of a positive finite number. *)
Definition ln (x : float) : float :=
  let '(m, e) := Z.frexp x in
  let z := (m - 1) / (m + 1) in
  2 * series 24 (λ k term, term * z * z * (2 * k + 1) / (2 * k + 3)) 0 z 0
  + ofZ e * ln2.

Definition exp (t : float) : float :=
  let k := Math_floor (t / ln2 + 0.5) in
  let r := t - k * ln2 in
  Z.ldexp (series 24 (λ k term, term * r / (k + 1)) 0 1 0) (truncZ k).

(** Whole exponents up to 64 by repeated multiplication: exact whenever
    the powers are binary64 values. *)
Fixpoint powNat (x : float) (n : nat) : float :=
  match n with
  | O => 1
  | S n' => x * powNat x n'
  end.

Definition pow (x y : float) : float :=
  if is_nan y then nan
  else if y =? 0 then 1
  else if is_nan x then nan
  else if y =? 1 then x
  else if x =? 0 then (if 0 <? y then 0 else infinity)
  else if (Math_floor y =? y) && (0 <? y) && (y <=? 64) then powNat x (Z.to_nat (truncZ y))
  else if x <? 0 then nan
  else if is_infinity x then (if 0 <? y then infinity else 0)
  else if is_infinity y then
    (if x =? 1 then nan
     else if (x <? 1) then (if 0 <? y then 0 else infinity)
     else (if 0 <? y then infinity else 0))
  else exp (y * ln x).

Definition engine : MathLib :=
  {| Math_pow := pow; Math_cos := cos; Math_sin := sin |}.

End RefMath.

(** The default configuration on a grid of a single cell per resolution. *)
Definition singleCellParams : GeneratedParams := {|
  octaves := 5;
  lacunarity := 2.0;
  persistence := 0.6;
  landThreshold := 0.46;
  seed := 123456789;
  contrastGamma := 0.8;
  width := 1;
  height := 1;
  width4x := 1;
  height4x := 1;
  width16x := 1;
  height16x := 1;
  minLandRegionSize := 30;
  minWaterRegionSize := 200;
  smoothingRadius := 1;
  ridgeAccent := true;
|}.

(** Two parameter objects agree on the fields the loader takes from the
    injected params. *)
Definition sameInjectedFields (p1 p2 : GeneratedParams) : Prop :=
  seed p1 = seed p2 ∧
  width p1 = width p2 ∧ height p1 = height p2 ∧
  width4x p1 = width4x p2 ∧ height4x p1 = height4x p2 ∧
  width16x p1 = width16x p2 ∧ height16x p1 = height16x p2 ∧
  landThreshold p1 = landThreshold p2 ∧
  contrastGamma p1 = contrastGamma p2 ∧
  smoothingRadius p1 = smoothingRadius p2 ∧
  ridgeAccent p1 = ridgeAccent p2.

(** The default configuration with other octaves, lacunarity, persistence
    and region sizes. *)
Definition otherNoiseParams : GeneratedParams := {|
  octaves := 9;
  lacunarity := 3.0;
  persistence := 0.25;
  landThreshold := 0.46;
  seed := 123456789;
  contrastGamma := 0.8;
  width := 512;
  height := 256;
  width4x := 1024;
  height4x := 512;
  width16x := 2048;
  height16x := 1024;
  minLandRegionSize := 0;
  minWaterRegionSize := 5000;
  smoothingRadius := 1;
  ridgeAccent := true;
|}.

(** The store after [GeneratedParams.set({octaves: 12, lacunarity: 4,
    persistence: 1})]: twelve octaves of equal weight, a speckled field. *)
Definition speckleStore : GeneratedParams := {|
  octaves := 12;
  lacunarity := 4.0;
  persistence := 1.0;
  landThreshold := 0.46;
  seed := 123456789;
  contrastGamma := 0.8;
  width := 512;
  height := 256;
  width4x := 1024;
  height4x := 512;
  width16x := 2048;
  height16x := 1024;
  minLandRegionSize := 30;
  minWaterRegionSize := 200;
  smoothingRadius := 1;
  ridgeAccent := true;
|}.

(** ** Connectivity on the grid *)

Module Grid.

(** The cell [(x, y)] is inside the grid and is land (resp. water). *)
Definition landAt (buf : list Z) (width height : Z) (c : Z * Z) : bool :=
  Terrain.inBounds width height c.1 c.2
  && Terrain.hasBit (JS.rd buf (Terrain.index width c.1 c.2)) Terrain.IS_LAND_BIT.

Definition waterAt (buf : list Z) (width height : Z) (c : Z * Z) : bool :=
  Terrain.inBounds width height c.1 c.2
  && negb (Terrain.hasBit (JS.rd buf (Terrain.index width c.1 c.2)) Terrain.IS_LAND_BIT).

Definition onBorder (width height : Z) (c : Z * Z) : bool :=
  (c.1 =? 0) || (c.1 =? width - 1) || (c.2 =? 0) || (c.2 =? height - 1).

Definition neighbour (c d : Z * Z) : Z * Z := (c.1 + d.1, c.2 + d.2).

(** A 4-connected path through cells that satisfy [ok]. *)
Inductive path (ok : Z * Z → bool) : Z * Z → Z * Z → Prop :=
  | path_here c : ok c = true → path ok c c
  | path_step c d c' :
      ok c = true → d ∈ Terrain.dirs → path ok (neighbour c d) c' → path ok c c'.

(** A water cell belongs to the edge-reachable ocean. *)
Definition reachesBorder (buf : list Z) (width height : Z) (c : Z * Z) : Prop :=
  ∃ b, path (waterAt buf width height) c b ∧ onBorder width height b = true.

(** No neighbour of [c] satisfies [ok]. *)
Definition isolated (ok : Z * Z → bool) (c : Z * Z) : bool :=
  forallb (λ d, negb (ok (neighbour c d))) Terrain.dirs.

End Grid.

(** The injected params of the two worked examples on the speckled field:
    the default ones on 8 x 8 grids, with a land threshold of 0.6 (islands)
    and of 0.545 (lakes). *)
Definition islandParams : GeneratedParams := {|
  octaves := 5;
  lacunarity := 2.0;
  persistence := 0.6;
  landThreshold := 0.6;
  seed := 123456789;
  contrastGamma := 0.8;
  width := 8;
  height := 8;
  width4x := 8;
  height4x := 8;
  width16x := 8;
  height16x := 8;
  minLandRegionSize := 30;
  minWaterRegionSize := 200;
  smoothingRadius := 1;
  ridgeAccent := true;
|}.

Definition lakeParams : GeneratedParams := {|
  octaves := 5;
  lacunarity := 2.0;
  persistence := 0.6;
  landThreshold := 0.545;
  seed := 123456789;
  contrastGamma := 0.8;
  width := 8;
  height := 8;
  width4x := 8;
  height4x := 8;
  width16x := 8;
  height16x := 8;
  minLandRegionSize := 30;
  minWaterRegionSize := 200;
  smoothingRadius := 1;
  ridgeAccent := true;
|}.

(** * Further definitions: the passes on any buffer, the client loader
    and the parameter store *)

(** ** Notions used by the further properties *)

(** The content of a [Uint8Array]: every cell is a byte. *)
Definition bytes (buf : list Z) : Prop := Forall (λ c, 0 ≤ c < 256) buf.

(** The three flag bits of a terrain byte (IS_LAND, SHORELINE, OCEAN). *)
Definition flagBits (c : Z) : Z := Z.land c 0xe0.

(** Some neighbour of [c] inside the grid carries the OCEAN flag. *)
Definition oceanNeighbour (buf : list Z) (width height : Z) (c : Z * Z) : bool :=
  existsb (λ d,
      let n := Grid.neighbour c d in
      Terrain.inBounds width height n.1 n.2
      && Terrain.hasBit (JS.rd buf (Terrain.index width n.1 n.2)) Terrain.OCEAN_BIT)
    Terrain.dirs.

(** What the ridge accent writes into a land cell it boosts. *)
Definition boosted (c : Z) : Z :=
  Terrain.withMagnitude (Some c) (Z.min 31 (Cell.magnitude c + 2)) mod 256.

(** A pass that only rewrites the magnitude of land cells: the cell is as
    it was, or it was land and now holds its flag bits and a magnitude [k]
    that satisfies [P]. *)
Definition rewritten (P : Z → Z → Prop) (c0 c : Z) : Prop :=
  c = c0 ∨
  (Cell.isLand c0 = true ∧ ∃ k, 0 ≤ k < 32 ∧ P c0 k ∧ c = flagBits c0 + k).

(** [Math.min(31, Math.max(0, Math.floor(sum / Math.max(1, count))))] *)
Definition windowAverage (w : Z * Z) : Z :=
  Z.min 31 (Z.max 0 (w.1 / Z.max 1 w.2)).

(** Every land cell of the buffer has its magnitude between [lo] and [hi]. *)
Definition landMagnitudesIn (lo hi : Z) (buf : list Z) : Prop :=
  Forall (λ c, Cell.isLand c = true → lo ≤ Cell.magnitude c ≤ hi) buf.

(** The body of the two window loops of the smoothing and of the ridge
    accent, for the offset [(dx, dy)]. *)
Definition windowCell (copy : list Z) (width height : Z) (x y : Z) (dy : Z)
    : Z * Z → Z → Z * Z :=
  λ '(sum, count) dx,
  let nx := x + dx in
  let ny := y + dy in
  if Terrain.outside width height nx ny then (sum, count)
  else
    let ni := Terrain.index width nx ny in
    if JS.and (JS.num (JS.rd copy ni)) (JS.shl 1 Terrain.IS_LAND_BIT) =? 0 then (sum, count)
    else (sum + JS.and (JS.num (JS.rd copy ni)) Terrain.MAG_MASK, count + 1).

(** What the shoreline pass leaves in the cell [c] that held [c0] in the
    buffer [buf0] it started from. *)
Definition shorelineOf (buf0 : list Z) (width height : Z) (c : Z * Z) (c0 : Z) : Z :=
  if Cell.isLand c0 && oceanNeighbour buf0 width height c then Z.lor c0 64 else c0.

(** The state of the shoreline pass once the cells [done] are processed. *)
Definition shorelineInv (buf0 : list Z) (width height : Z) (done : list (Z * Z))
    (out : list Z) : Prop :=
  length out = length buf0 ∧
  ∀ x y c0,
    Terrain.inBounds width height x y = true →
    JS.rd buf0 (Terrain.index width x y) = Some c0 →
    ∃ c, JS.rd out (Terrain.index width x y) = Some c
         ∧ (c = c0 ∨ c = shorelineOf buf0 width height (x, y) c0)
         ∧ ((x, y) ∈ done → c = shorelineOf buf0 width height (x, y) c0).

(** Some neighbour of [c] inside the grid is water. *)
Definition waterNeighbour (buf : list Z) (width height : Z) (c : Z * Z) : bool :=
  existsb (λ d, Grid.waterAt buf width height (Grid.neighbour c d)) Terrain.dirs.

(** The bytes the encoding block writes: water, or land with a magnitude
    and no SHORELINE flag yet. *)
Definition encoded (c : Z) : bool := (c =? 32) || ((128 <=? c) && (c <? 160)).

(** [visited[index(x, y)]] is set. *)
Definition visitedAt (visited : list Z) (width : Z) (c : Z * Z) : bool :=
  JS.truthy (JS.rd visited (Terrain.index width c.1 c.2)).

(** The water the flood fill is after: a water cell joined to the border of
    the grid by water. *)
Definition oceanCell (buf0 : list Z) (width height : Z) (c : Z * Z) : Prop :=
  Grid.waterAt buf0 width height c = true ∧ Grid.reachesBorder buf0 width height c.

(** The state of the flood fill of the buffer [buf0] at the head of its
    [while] loop. *)
Record floodInv (buf0 : list Z) (width height : Z)
    (out visited : list Z) (q : list (Z * Z)) : Prop := {
  flood_length : length out = length buf0;
  flood_visited : length visited = Z.to_nat (width * height);
  flood_queue : Forall (oceanCell buf0 width height) q;
  flood_cells : ∀ x y c0,
    Terrain.inBounds width height x y = true →
    JS.rd buf0 (Terrain.index width x y) = Some c0 →
    JS.rd out (Terrain.index width x y)
    = Some (if visitedAt visited width (x, y) then Z.lor c0 32 else c0);
  flood_sound : ∀ c,
    Terrain.inBounds width height c.1 c.2 = true →
    visitedAt visited width c = true → oceanCell buf0 width height c;
  flood_border : ∀ c,
    Grid.waterAt buf0 width height c = true → Grid.onBorder width height c = true →
    visitedAt visited width c = true ∨ c ∈ q;
  flood_closed : ∀ c d,
    Terrain.inBounds width height c.1 c.2 = true →
    visitedAt visited width c = true → d ∈ Terrain.dirs →
    Grid.waterAt buf0 width height (Grid.neighbour c d) = true →
    visitedAt visited width (Grid.neighbour c d) = true ∨ Grid.neighbour c d ∈ q
}.

(** The two values of the 0/1 grid the region pruning works on, and what
    the pruning may do to a cell: leave it, or turn a 0/1 cell into a 0/1
    cell. *)
Definition binary (c : Z) : Prop := c = 0 ∨ c = 1.

Definition pruned (c c' : Z) : Prop := c' = c ∨ (binary c ∧ binary c').

(** ** CombinedMapLoader: the loader the client uses *)

Module CombinedMapLoader.

Section Combined.

Variable M : MathLib.
Variable Generated : string.

(** [this.fetchLoader.getMapData], of a file outside this development. *)
Variable fetchLoader : string → Outcome MapData.

(** [getMapData(map)]; [store] is what [GeneratedParams.get()] returns
    during the call. The generated kind gets a loader of its own at every
    call, which is dropped with its cache when the call returns. *)
Definition getMapData (store : GeneratedParams) (map : string)
    : option (Outcome MapData) :=
  if String.eqb map Generated then
    fst <$> Loader.getMapData M Generated (Loader.new (Some store)) store map
  else Some (fetchLoader map).

End Combined.

End CombinedMapLoader.

(** A product whose three buffers have the sizes its manifest announces
    (the [data.length === width * height] the terrain reader expects). *)
Definition sized (bin : list Z) (md : MapMetadata) : Prop :=
  length bin = (md_width md * md_height md)%nat.

Definition consistent (d : MapData) : Prop :=
  sized (mapBin d) (map (manifest d))
  ∧ sized (map4xBin d) (map4x (manifest d))
  ∧ sized (map16xBin d) (map16x (manifest d)).

(** The manifest carries the dimensions of the params [p]. *)
Definition dimensionsOf (p : GeneratedParams) (m : MapManifest) : Prop :=
  md_width (map m) = width p ∧ md_height (map m) = height p
  ∧ md_width (map4x m) = width4x p ∧ md_height (map4x m) = height4x p
  ∧ md_width (map16x m) = width16x p ∧ md_height (map16x m) = height16x p.

(** ** GeneratedParamsStore: the parameter store *)

Module Store.

Import Num.

(** [Partial<GeneratedParams>]: [None] is a field that is absent or
    [undefined]. The numbers of an update come from sliders and text
    fields, so each is an arbitrary number. *)
Record Update := {
  u_octaves : option float;
  u_lacunarity : option float;
  u_persistence : option float;
  u_landThreshold : option float;
  u_seed : option float;
  u_contrastGamma : option float;
  u_width : option float;
  u_height : option float;
  u_width4x : option float;
  u_height4x : option float;
  u_width16x : option float;
  u_height16x : option float;
  u_minLandRegionSize : option float;
  u_minWaterRegionSize : option float;
  u_smoothingRadius : option float;
  u_ridgeAccent : option bool;
}.

(** [{}] *)
Definition noUpdate : Update := {|
  u_octaves := None; u_lacunarity := None; u_persistence := None;
  u_landThreshold := None; u_seed := None; u_contrastGamma := None;
  u_width := None; u_height := None; u_width4x := None; u_height4x := None;
  u_width16x := None; u_height16x := None;
  u_minLandRegionSize := None; u_minWaterRegionSize := None;
  u_smoothingRadius := None; u_ridgeAccent := None;
|}.

(** The store: its params and its subscribers, a [Set] of callbacks kept in
    insertion order. A callback is known by a number; what it does when it
    is called is outside the store, which only hands it a snapshot (and
    swallows what it throws). *)
Record t := {
  current : GeneratedParams;
  subscribers : list nat;
}.

(** A call [fn(snapshot)] made by the store. *)
Definition Call : Type := nat * GeneratedParams.

(** [new GeneratedParamsStore(initial)] and the singleton of the module. *)
Definition new (initial : GeneratedParams) : t :=
  {| current := initial; subscribers := [] |}.

Definition initial : t := new DefaultGeneratedParams.

(** [get()] *)
Definition get (st : t) : GeneratedParams := current st.

(** [clamp(n, min, max)] *)
Definition clamp (n min max : float) : float := Math_max min (Math_min max n).

(** [Math.floor(n)] is a whole number, NaN or an infinity. The fields it
    is stored in hold integers, so the whole number is kept as the integer
    it is. *)
Inductive Whole :=
  | WNaN
  | WNegInf
  | WPosInf
  | WInt (z : Z).

Definition floor (n : float) : Whole :=
  match Prim2SF n with
  | S754_nan => WNaN
  | S754_infinity s => if s then WNegInf else WPosInf
  | S754_zero _ => WInt 0
  | S754_finite s m e => WInt (Z.shiftl (if s then Z.neg m else Z.pos m) e)
  end.

(** [Math.max(min, Math.min(max, v))] for the whole number [v] and integer
    bounds; [None] is NaN. *)
Definition clampWhole (v : Whole) (min max : Z) : option Z :=
  match v with
  | WNaN => None
  | WNegInf => Some min
  | WPosInf => Some (Z.max min max)
  | WInt z => Some (Z.max min (Z.min max z))
  end.

(** [clampInt(n, min, max)] *)
Definition clampInt (n : float) (min max : Z) : option Z :=
  let v := floor n in
  clampWhole v min max.

(** [toUint32(n)]: [Math.floor(n) >>> 0], where [>>>] reads NaN and the
    infinities as 0. *)
Definition toUint32 (n : float) : Z :=
  match floor n with
  | WInt z => JS.ushr z 0
  | _ => 0
  end.

(** [generatedParamsEqual(a, b)]: [===] on every field; on numbers it is
    the IEEE equality, for which NaN differs from itself. *)
Definition generatedParamsEqual (a b : GeneratedParams) : bool :=
  (octaves a =? octaves b)%Z
  && (lacunarity a =? lacunarity b)%float
  && (persistence a =? persistence b)%float
  && (landThreshold a =? landThreshold b)%float
  && (seed a =? seed b)%Z
  && (contrastGamma a =? contrastGamma b)%float
  && (width a =? width b)%nat
  && (height a =? height b)%nat
  && (width4x a =? width4x b)%nat
  && (height4x a =? height4x b)%nat
  && (width16x a =? width16x b)%nat
  && (height16x a =? height16x b)%nat
  && (minLandRegionSize a =? minLandRegionSize b)%Z
  && (minWaterRegionSize a =? minWaterRegionSize b)%Z
  && (smoothingRadius a =? smoothingRadius b)%Z
  && Bool.eqb (ridgeAccent a) (ridgeAccent b).

(** [notify()]: one call per subscriber, with the snapshot. *)
Definition notify (st : t) : list Call :=
  (λ fn, (fn, get st)) <$> subscribers st.

(** The value a clamped integer field takes: the clamped update if there
    is one, the field as it is otherwise; [None] if the update is NaN,
    which the integer fields of the snapshot cannot hold. *)
Definition nextInt (update : option float) (min max : Z) (old : Z) : option Z :=
  match update with
  | Some n => clampInt n min max
  | None => Some old
  end.

Definition nextFloat (update : option float) (min max : float) (old : float) : float :=
  match update with
  | Some n => clamp n min max
  | None => old
  end.

(** [next] of [set(update)]: the six dimension fields are copied, whatever
    the update holds for them. *)
Definition next (p : GeneratedParams) (update : Update) : option GeneratedParams :=
  o ← nextInt (u_octaves update) 1 12 (octaves p);
  minLand ← nextInt (u_minLandRegionSize update) 0 10000 (minLandRegionSize p);
  minWater ← nextInt (u_minWaterRegionSize update) 0 10000 (minWaterRegionSize p);
  radius ← nextInt (u_smoothingRadius update) 0 2 (smoothingRadius p);
  Some {|
    octaves := o;
    lacunarity := nextFloat (u_lacunarity update) 1.0 5.0 (lacunarity p);
    persistence := nextFloat (u_persistence update) 0.1 1.0 (persistence p);
    landThreshold := nextFloat (u_landThreshold update) 0.0 1.0 (landThreshold p);
    seed := match u_seed update with Some n => toUint32 n | None => seed p end;
    contrastGamma := nextFloat (u_contrastGamma update) 0.5 1.5 (contrastGamma p);
    width := width p;
    height := height p;
    width4x := width4x p;
    height4x := height4x p;
    width16x := width16x p;
    height16x := height16x p;
    minLandRegionSize := minLand;
    minWaterRegionSize := minWater;
    smoothingRadius := radius;
    ridgeAccent := match u_ridgeAccent update with
                   | Some b => b
                   | None => ridgeAccent p
                   end;
  |}.

(** [set(update)]: the snapshot returned, the store after the call and the
    calls made to the subscribers. *)
Definition set (st : t) (update : Update) : option (GeneratedParams * t * list Call) :=
  next ← next (current st) update;
  if negb (generatedParamsEqual (current st) next) then
    let st := {| current := next; subscribers := subscribers st |} in
    Some (get st, st, notify st)
  else Some (get st, st, []).

(** [reset()] *)
Definition reset (st : t) : GeneratedParams * t * list Call :=
  let st := {| current := DefaultGeneratedParams; subscribers := subscribers st |} in
  (get st, st, notify st).

(** [subscribe(fn)]: the store after the call and the call it makes. *)
Definition subscribe (st : t) (fn : nat) : t * list Call :=
  let st := {| current := current st;
               subscribers := if bool_decide (fn ∈ subscribers st)
                              then subscribers st
                              else subscribers st ++ [fn] |} in
  (st, [(fn, get st)]).

(** The function [subscribe(fn)] returns. *)
Definition unsubscribe (st : t) (fn : nat) : t :=
  {| current := current st;
     subscribers := filter (λ g, g ≠ fn) (subscribers st) |}.

(** The calls a client can make, and a run of them: the store they leave
    and the calls made to subscribers along the way. *)
Inductive Op :=
  | OpSet (update : Update)
  | OpReset
  | OpSubscribe (fn : nat)
  | OpUnsubscribe (fn : nat).

Definition step (st : t) (op : Op) : option (t * list Call) :=
  match op with
  | OpSet update => (λ r, (r.1.2, r.2)) <$> set st update
  | OpReset => let r := reset st in Some (r.1.2, r.2)
  | OpSubscribe fn => Some (subscribe st fn)
  | OpUnsubscribe fn => Some (unsubscribe st fn, [])
  end.

Fixpoint run (st : t) (ops : list Op) : option (t * list Call) :=
  match ops with
  | [] => Some (st, [])
  | op :: ops =>
      '(st, calls) ← step st op;
      '(st, calls') ← run st ops;
      Some (st, calls ++ calls')
  end.

End Store.

(** A number is NaN or lies between two bounds. *)
Definition within (lo hi : float) (x : float) : Prop :=
  is_nan x = true ∨ ((lo <=? x)%float = true ∧ (x <=? hi)%float = true).

(** The ranges the store keeps its params in. *)
Record inRange (p : GeneratedParams) : Prop := {
  range_octaves : 1 ≤ octaves p ≤ 12;
  range_lacunarity : within 1.0 5.0 (lacunarity p);
  range_persistence : within 0.1 1.0 (persistence p);
  range_landThreshold : within 0.0 1.0 (landThreshold p);
  range_seed : 0 ≤ seed p < 2 ^ 32;
  range_contrastGamma : within 0.5 1.5 (contrastGamma p);
  range_minLand : 0 ≤ minLandRegionSize p ≤ 10000;
  range_minWater : 0 ≤ minWaterRegionSize p ≤ 10000;
  range_radius : 0 ≤ smoothingRadius p ≤ 2;
}.

(** The six dimension fields of two params agree. *)
Definition sameDimensions (p q : GeneratedParams) : Prop :=
  width p = width q ∧ height p = height q
  ∧ width4x p = width4x q ∧ height4x p = height4x q
  ∧ width16x p = width16x q ∧ height16x p = height16x q.

(** No number field of the params is NaN. *)
Definition noNaN (p : GeneratedParams) : Prop :=
  is_nan (lacunarity p) = false ∧ is_nan (persistence p) = false
  ∧ is_nan (landThreshold p) = false ∧ is_nan (contrastGamma p) = false.

(** Some number field of the params is NaN. *)
Definition hasNaN (p : GeneratedParams) : Prop :=
  is_nan (lacunarity p) = true ∨ is_nan (persistence p) = true
  ∨ is_nan (landThreshold p) = true ∨ is_nan (contrastGamma p) = true.

(** An update that gives no NaN to a field the snapshot holds as an
    integer, and a call the store model accepts. *)
Definition whole (u : Store.Update) : Prop :=
  ∀ n, n ∈ [Store.u_octaves u; Store.u_minLandRegionSize u;
            Store.u_minWaterRegionSize u; Store.u_smoothingRadius u] →
       ∀ x, n = Some x → is_nan x = false.

Definition acceptable (op : Store.Op) : Prop :=
  match op with
  | Store.OpSet u => whole u
  | _ => True
  end.

(** What every store reached from the singleton satisfies. *)
Record storeInv (st : Store.t) : Prop := {
  inv_range : inRange (Store.current st);
  inv_dimensions : sameDimensions (Store.current st) DefaultGeneratedParams;
  inv_subscribers : NoDup (Store.subscribers st);
}.

(** ** Connected components, for the region pruning *)

(** [visited[index(x, y)] === 1] *)
Definition markedAt (visited : list Z) (width : Z) (c : Z * Z) : bool :=
  JS.same (JS.rd visited (Terrain.index width c.1 c.2)) 1.

(** The cell is inside the grid and holds [target]. *)
Definition holds (grid : list Z) (width height : Z) (target : Z) (c : Z * Z) : bool :=
  Terrain.inBounds width height c.1 c.2
  && JS.same (JS.rd grid (Terrain.index width c.1 c.2)) target.

(** [c] belongs to the component of [s]: the two are joined by a
    4-connected path of cells that hold [target]. *)
Definition component (grid : list Z) (width height : Z) (target : Z) (s c : Z * Z) : Prop :=
  Grid.path (holds grid width height target) s c.

(** The component of [c] has fewer than [minSize] cells. *)
Definition smallComponent (grid : list Z) (width height : Z) (target minSize : Z)
    (c : Z * Z) : Prop :=
  ∃ cells, NoDup cells
           ∧ (∀ c', c' ∈ cells ↔ component grid width height target c c')
           ∧ Z.of_nat (length cells) < minSize.

(** The state of a search from [s] at the head of its [while] loop, and
    inside the loop over the directions, where the cell [cur] has been
    through the directions [ds] only. [visited0] is the array the search
    was given. *)
Record bfsInv (grid : list Z) (width height : Z) (target : Z) (s : Z * Z)
    (visited0 : list Z) (cur : Z * Z) (ds : list (Z * Z))
    (visited : list Z) (cells q : list (Z * Z)) : Prop := {
  bfs_length : length visited = length grid;
  bfs_values : Forall binary visited;
  bfs_marks : ∀ c,
    Terrain.inBounds width height c.1 c.2 = true →
    markedAt visited width c = true
    ↔ markedAt visited0 width c = true ∨ c ∈ cells ++ q;
  bfs_component : Forall (component grid width height target s) (cells ++ q);
  bfs_nodup : NoDup (cells ++ q);
  bfs_seed : s ∈ cells ++ q;
  bfs_closed : ∀ c d,
    c ∈ cells → d ∈ Terrain.dirs → (c = cur → d ∈ ds) →
    holds grid width height target (Grid.neighbour c d) = true →
    Grid.neighbour c d ∈ cells ++ q
}.

(** One scan of the pruning: the cells that hold [target] and whose
    component has fewer than [minSize] cells hold [fill] afterwards, every
    other cell inside the grid holds what it held. *)
Definition prunedTo (grid grid' : list Z) (width height : Z) (target fill minSize : Z)
    : Prop :=
  length grid' = length grid
  ∧ ∀ x y v,
      Terrain.inBounds width height x y = true →
      JS.rd grid (Terrain.index width x y) = Some v →
      (holds grid width height target (x, y) = true
       ∧ smallComponent grid width height target minSize (x, y)
       ∧ JS.rd grid' (Terrain.index width x y) = Some fill)
      ∨ (¬ (holds grid width height target (x, y) = true
            ∧ smallComponent grid width height target minSize (x, y))
         ∧ JS.rd grid' (Terrain.index width x y) = Some v).

(** The state of a scan of the grid [grid0] once the positions [done] are
    behind. *)
Record pruneInv (grid0 : list Z) (width height : Z) (target fill minSize : Z)
    (done : list (Z * Z)) (grid visited : list Z) : Prop := {
  prune_length : length grid = length grid0;
  prune_visited : length visited = length grid0;
  prune_values : Forall binary visited;
  prune_marks : ∀ c,
    Terrain.inBounds width height c.1 c.2 = true →
    markedAt visited width c = true
    ↔ ∃ p, p ∈ done ∧ component grid0 width height target p c;
  prune_cells : ∀ c v,
    Terrain.inBounds width height c.1 c.2 = true →
    JS.rd grid0 (Terrain.index width c.1 c.2) = Some v →
    (markedAt visited width c = true
     ∧ smallComponent grid0 width height target minSize c
     ∧ JS.rd grid (Terrain.index width c.1 c.2) = Some fill)
    ∨ (¬ (markedAt visited width c = true
          ∧ smallComponent grid0 width height target minSize c)
       ∧ JS.rd grid (Terrain.index width c.1 c.2) = Some v)
}.

(** ** The magnitude passes, cell by cell *)

(** The byte a magnitude pass leaves in a cell that held [c]: the flags of
    [c] with the magnitude [m], or [c] when the pass writes nothing. *)
Definition remagnitude (c : Z) (m : option Z) : Z :=
  match m with
  | Some m => flagBits c + JS.and m Terrain.MAG_MASK
  | None => c
  end.

(** The magnitude the smoothing (resp. the ridge accent) writes in the cell
    [c], read off the snapshot [copy]; [None] when it writes nothing. *)
Definition smoothed (copy : list Z) (width height radius : Z) (c : Z * Z) : option Z :=
  if negb (Terrain.hasBit (JS.rd copy (Terrain.index width c.1 c.2)) Terrain.IS_LAND_BIT)
  then None
  else if radius =? 0 then None
  else Some (windowAverage (Terrain.windowSum copy width height radius c.1 c.2)).

Definition accented (copy : list Z) (width height : Z) (c : Z * Z) : option Z :=
  if negb (Terrain.hasBit (JS.rd copy (Terrain.index width c.1 c.2)) Terrain.IS_LAND_BIT)
  then None
  else
    let selfMag := JS.and (JS.num (JS.rd copy (Terrain.index width c.1 c.2)))
                          Terrain.MAG_MASK in
    let w := Terrain.windowSum copy width height 1 c.1 c.2 in
    let avg := w.1 / Z.max 1 w.2 in
    if selfMag >=? avg + 2 then Some (Z.min 31 (selfMag + 2)) else None.

(** The step of a pass that decides from a snapshot and writes a
    magnitude. *)
Definition snapshotStep (width : Z) (body : Z * Z → option Z)
    (out : list Z) (c : Z * Z) : list Z :=
  match body c with
  | Some m =>
      JS.wr out (Terrain.index width c.1 c.2)
            (Terrain.withMagnitude (JS.rd out (Terrain.index width c.1 c.2)) m)
  | None => out
  end.

(** The state of such a pass once the cells [done] are processed. *)
Definition snapshotInv (buf0 : list Z) (width height : Z) (body : Z * Z → option Z)
    (done : list (Z * Z)) (out : list Z) : Prop :=
  length out = length buf0 ∧
  ∀ x y c0,
    Terrain.inBounds width height x y = true →
    JS.rd buf0 (Terrain.index width x y) = Some c0 →
    ∃ c, JS.rd out (Terrain.index width x y) = Some c
         ∧ (c = c0 ∨ c = remagnitude c0 (body (x, y)))
         ∧ ((x, y) ∈ done → c = remagnitude c0 (body (x, y))).

(** ** hashSeed *)

(** [Math.imul(a, b)] *)
Definition Math_imul (a b : Z) : Z := JS.ToInt32 (JS.ToUint32 a * JS.ToUint32 b).

(** [hashSeed(text)]; the text is the list of its UTF-16 code units, what
    [text.charCodeAt(i)] returns. *)
Definition hashSeed (text : list Z) : Z :=
  let h := JS.ushr 2166136261 0 in
  let h := fold_left (λ h c, let h := JS.xor h c in Math_imul h 16777619) text h in
  JS.ushr h 0.

(** The 32-bit FNV-1a hash on unsigned values: offset basis 2166136261,
    prime 16777619. *)
Definition fnv1a (text : list Z) : Z :=
  fold_left (λ h c, (Z.lxor h c * 16777619) mod 2 ^ 32) text 2166136261.

(** ** Sample values for the instances of the conditional theorems *)

(** A 3 x 2 field: two columns of land and a column of water on the right
    border. *)
Definition coastField : list Z := [133; 140; 32; 130; 150; 32].

(** A 3 x 1 field of land of magnitude 7. *)
Definition plateauField : list Z := [135; 135; 135].

(** An update from the options menu: too many octaves, a fractional value,
    a threshold, and a width the store ignores. *)
Definition sampleUpdate : Store.Update := {|
  Store.u_octaves := Some 100.7%float;
  Store.u_lacunarity := None;
  Store.u_persistence := None;
  Store.u_landThreshold := Some 0.5%float;
  Store.u_seed := None;
  Store.u_contrastGamma := None;
  Store.u_width := Some 9999%float;
  Store.u_height := None;
  Store.u_width4x := None;
  Store.u_height4x := None;
  Store.u_width16x := None;
  Store.u_height16x := None;
  Store.u_minLandRegionSize := None;
  Store.u_minWaterRegionSize := None;
  Store.u_smoothingRadius := None;
  Store.u_ridgeAccent := None;
|}.

(** The params the singleton holds after [sampleUpdate]. *)
Definition sampleParams : GeneratedParams := {|
  octaves := 12;
  lacunarity := 2.0;
  persistence := 0.6;
  landThreshold := 0.5;
  seed := 123456789;
  contrastGamma := 0.8;
  width := 512;
  height := 256;
  width4x := 1024;
  height4x := 512;
  width16x := 2048;
  height16x := 1024;
  minLandRegionSize := 30;
  minWaterRegionSize := 200;
  smoothingRadius := 1;
  ridgeAccent := true;
|}.

(** An update that sets the land threshold to NaN, and the params it
    leaves in the singleton. *)
Definition nanUpdate : Store.Update := {|
  Store.u_octaves := None;
  Store.u_lacunarity := None;
  Store.u_persistence := None;
  Store.u_landThreshold := Some nan;
  Store.u_seed := None;
  Store.u_contrastGamma := None;
  Store.u_width := None;
  Store.u_height := None;
  Store.u_width4x := None;
  Store.u_height4x := None;
  Store.u_width16x := None;
  Store.u_height16x := None;
  Store.u_minLandRegionSize := None;
  Store.u_minWaterRegionSize := None;
  Store.u_smoothingRadius := None;
  Store.u_ridgeAccent := None;
|}.

Definition nanParams : GeneratedParams := {|
  octaves := 5;
  lacunarity := 2.0;
  persistence := 0.6;
  landThreshold := nan;
  seed := 123456789;
  contrastGamma := 0.8;
  width := 512;
  height := 256;
  width4x := 1024;
  height4x := 512;
  width16x := 2048;
  height16x := 1024;
  minLandRegionSize := 30;
  minWaterRegionSize := 200;
  smoothingRadius := 1;
  ridgeAccent := true;
|}.

Definition sampleOps : list Store.Op :=
  [Store.OpSubscribe 1; Store.OpSet sampleUpdate; Store.OpReset; Store.OpUnsubscribe 1].


(** * Properties *)

(** ** Arrays *)

Section Arrays.

Implicit Types (a : list Z) (i v : Z).

Lemma length_wr a i v : length (JS.wr a i v) = length a.
Proof. unfold JS.wr. destruct (i <? 0); [done | apply length_insert]. Qed.

Lemma rd_Some a i x : JS.rd a i = Some x → 0 ≤ i < Z.of_nat (length a).
Proof.
  unfold JS.rd. destruct (Z.ltb_spec i 0); [done |].
  intros Hx%lookup_lt_Some. lia.
Qed.

Lemma rd_lookup a (n : nat) : JS.rd a (Z.of_nat n) = a !! n.
Proof.
  unfold JS.rd. destruct (Z.ltb_spec (Z.of_nat n) 0); [lia |].
  by rewrite Nat2Z.id.
Qed.

Lemma rd_in_range a i : 0 ≤ i < Z.of_nat (length a) → is_Some (JS.rd a i).
Proof.
  intros Hi. unfold JS.rd. destruct (Z.ltb_spec i 0); [lia |].
  apply lookup_lt_is_Some. lia.
Qed.

Lemma rd_None a i : ¬ (0 ≤ i < Z.of_nat (length a)) → JS.rd a i = None.
Proof.
  intros Hi. destruct (JS.rd a i) eqn:E; [| done].
  apply rd_Some in E. lia.
Qed.

(** A store outside the array is ignored. *)
Lemma wr_outside a i v : JS.rd a i = None → JS.wr a i v = a.
Proof.
  unfold JS.rd, JS.wr. destruct (i <? 0); [done |].
  intros Hn%lookup_ge_None. by apply list_insert_ge.
Qed.

(** Storing the byte a cell already holds changes nothing. *)
Lemma wr_same a i v x : JS.rd a i = Some x → v mod 256 = x → JS.wr a i v = a.
Proof.
  unfold JS.rd, JS.wr. destruct (i <? 0); [done |].
  intros Hx <-. by apply list_insert_id.
Qed.

End Arrays.

(** Checking a predicate on all of [0, n) by evaluation. *)
Lemma range_cases (f : Z → bool) (n : Z) :
  forallb f (seqZ 0 n) = true → ∀ c, 0 ≤ c < n → f c = true.
Proof.
  intros Hall c Hc. rewrite forallb_forall in Hall. apply Hall.
  apply list_elem_of_In, elem_of_seqZ. lia.
Qed.

(** ** The permutation table *)

Section Permutation.

Import Simplex.

(** Exchanging two cells of a list permutes it. *)
Lemma insert_cons_perm (l : list Z) (j : nat) (a y : Z) :
  l !! j = Some y → y :: <[j := a]> l ≡ₚ a :: l.
Proof.
  revert j. induction l as [| b l IH]; intros [| j] Hj; simplify_eq/=.
  - apply perm_swap.
  - rewrite (perm_swap b y). rewrite (IH j Hj). apply perm_swap.
Qed.

Lemma swap_perm (l : list Z) (i j : nat) (x y : Z) :
  l !! i = Some x → l !! j = Some y → <[j := x]> (<[i := y]> l) ≡ₚ l.
Proof.
  revert i j. induction l as [| b l IH]; intros [| i] [| j] Hi Hj; simplify_eq/=.
  - done.
  - by apply insert_cons_perm.
  - by apply insert_cons_perm.
  - f_equiv. by apply IH.
Qed.

Lemma xorshift32_nonneg (x : Z) : 0 ≤ xorshift32 x.
Proof.
  unfold xorshift32, JS.ushr, JS.ToUint32. rewrite Z.shiftr_0_r.
  apply Z.mod_pos_bound. lia.
Qed.

Lemma tableOk_length p : tableOk p → length p = 256%nat.
Proof. intros Hp. by rewrite (Permutation_length Hp), length_seqZ. Qed.

Lemma tableOk_byte p (n : nat) x : tableOk p → p !! n = Some x → 0 ≤ x < 256.
Proof.
  intros Hp Hx. apply list_elem_of_lookup_2 in Hx.
  unfold tableOk in Hp. rewrite Hp in Hx. apply elem_of_seqZ in Hx. lia.
Qed.

Lemma shuffleStep_ok (i s : Z) (p : list Z) :
  0 < i < 256 → tableOk p → tableOk (snd (shuffleStep i (s, p))).
Proof.
  intros Hi Hp. unfold shuffleStep. cbn [snd].
  pose proof (xorshift32_nonneg s) as Hs.
  set (s' := xorshift32 s) in *.
  assert (0 ≤ Z.rem s' (i + 1) < i + 1) as Hj by (apply Z.rem_bound_pos; lia).
  set (j := Z.rem s' (i + 1)) in *.
  pose proof (tableOk_length p Hp) as Hlen.
  destruct (rd_in_range p i) as [x Hx]; [lia |].
  destruct (rd_in_range p j) as [y Hy]; [lia |].
  rewrite Hx, Hy. cbn [JS.num default].
  unfold JS.rd in Hx, Hy.
  destruct (Z.ltb_spec i 0); [lia |]. destruct (Z.ltb_spec j 0); [lia |].
  unfold JS.wr.
  destruct (Z.ltb_spec i 0); [lia |]. destruct (Z.ltb_spec j 0); [lia |].
  rewrite !Z.mod_small by eauto using tableOk_byte.
  unfold tableOk. rewrite swap_perm; done.
Qed.

Lemma shuffle_ok (n : nat) (s : Z) (p : list Z) :
  (n < 256)%nat → tableOk p → tableOk (snd (shuffle n (s, p))).
Proof.
  revert s p. induction n as [| n IH]; intros s p Hn Hp; [done |].
  cbn [shuffle].
  destruct (shuffleStep (Z.of_nat (S n)) (s, p)) as [s' p'] eqn:E.
  apply IH; [lia |].
  change p' with (snd (s', p')). rewrite <- E.
  apply shuffleStep_ok; [lia | done].
Qed.

(** C9 as amended: for every seed, [buildPermutation] returns a 256-entry
    table that is a permutation of the values 0..255 (the seeded
    Fisher-Yates shuffle only exchanges cells); nothing is promised about
    fixed points. *)
Theorem buildPermutation_permutation (seed : Z) :
  length (buildPermutation seed) = 256%nat ∧
  buildPermutation seed ≡ₚ seqZ 0 256.
Proof.
  assert (tableOk (buildPermutation seed)) as H.
  { unfold buildPermutation. apply shuffle_ok; [lia | unfold tableOk; reflexivity]. }
  split; [by apply tableOk_length | done].
Qed.

(** C9 as stated fails: with the default seed 123456789 the table keeps
    entry 98 in place, so it is not a derangement. *)
Lemma buildPermutation_fixed_point :
  buildPermutation 123456789 !! 98%nat = Some 98 ∧
  ¬ derangement (buildPermutation 123456789).
Proof.
  assert (buildPermutation 123456789 !! 98%nat = Some 98) as H
    by (vm_compute; reflexivity).
  split; [done |]. intros Hd. by apply (Hd _ _ H).
Qed.

End Permutation.

(** ** Bytes *)

Section Bytes.

Import Terrain Cell.

Lemma wellFormed_byte c : wellFormed c = true → 0 ≤ c < 256.
Proof. unfold wellFormed. lia. Qed.

(** A well-formed byte is never one of the two values the region pruning
    looks for. *)
Lemma wellFormed_not_binary c : wellFormed c = true → c ≠ 0 ∧ c ≠ 1.
Proof. unfold wellFormed. lia. Qed.

Lemma wellFormed_water c :
  wellFormed c = true → hasBit (Some c) IS_LAND_BIT = false → c = 32.
Proof.
  intros Hwf Hw. pose proof (wellFormed_byte c Hwf) as Hc.
  assert (forallb
    (λ c, implb (wellFormed c && negb (hasBit (Some c) IS_LAND_BIT)) (c =? 32))
    (seqZ 0 256) = true) as Hall by (vm_compute; reflexivity).
  pose proof (range_cases _ _ Hall c Hc) as H. cbv beta in H.
  rewrite Hwf, Hw in H. cbn [andb negb implb] in H. lia.
Qed.

Lemma wellFormed_invariants c : wellFormed c = true → bitInvariants c.
Proof.
  intros Hwf. pose proof (wellFormed_byte c Hwf) as Hc.
  assert (forallb
    (λ c, implb (wellFormed c)
            (negb (isLand c && isOcean c) && implb (isShoreline c) (isLand c)
             && implb (negb (isLand c)) (magnitude c =? 0)
             && ((0 <=? magnitude c) && (magnitude c <=? 31))))
    (seqZ 0 256) = true) as Hall by (vm_compute; reflexivity).
  pose proof (range_cases _ _ Hall c Hc) as H. cbv beta in H.
  rewrite Hwf in H. cbn [implb] in H.
  apply andb_true_iff in H as [H H4]. apply andb_true_iff in H as [H H3].
  apply andb_true_iff in H as [H1 H2]. apply andb_true_iff in H4 as [H4 H5].
  unfold bitInvariants. repeat split.
  - intros [Hl Ho]. by rewrite Hl, Ho in H1.
  - intros Hs. rewrite Hs in H2. by destruct (isLand c).
  - intros Hl. rewrite Hl in H3. cbn [negb implb] in H3. lia.
  - lia.
  - lia.
Qed.

Lemma and_mask_range (m : Z) : 0 ≤ JS.and m MAG_MASK < 32.
Proof.
  unfold JS.and, MAG_MASK. change (JS.ToInt32 31) with (Z.ones 5).
  rewrite Z.land_ones by lia. apply Z.mod_pos_bound. lia.
Qed.

(** Setting the SHORELINE flag of a land byte keeps it. *)
Lemma keeps_shoreline c0 c :
  keeps c0 c → hasBit (Some c) IS_LAND_BIT = true →
  keeps c0 (JS.or (JS.num (Some c)) (JS.shl 1 SHORELINE_BIT) mod 256).
Proof.
  intros [Hwf Hl] Hland. pose proof (wellFormed_byte c Hwf) as Hc.
  change (JS.num (Some c)) with c.
  assert (forallb
    (λ c, implb (wellFormed c && hasBit (Some c) IS_LAND_BIT)
            (let c' := JS.or c (JS.shl 1 SHORELINE_BIT) mod 256 in
             wellFormed c' && hasBit (Some c') IS_LAND_BIT))
    (seqZ 0 256) = true) as Hall by (vm_compute; reflexivity).
  pose proof (range_cases _ _ Hall c Hc) as H. cbv beta zeta in H.
  rewrite Hwf, Hland in H. cbn [andb implb] in H.
  apply andb_true_iff in H as [H1 H2].
  split; [exact H1 | rewrite H2, <- Hl, Hland; reflexivity].
Qed.

(** Replacing the magnitude of a land byte keeps it. *)
Lemma keeps_magnitude c0 c m :
  keeps c0 c → hasBit (Some c) IS_LAND_BIT = true →
  keeps c0 (withMagnitude (Some c) m mod 256).
Proof.
  intros [Hwf Hl] Hland. pose proof (wellFormed_byte c Hwf) as Hc.
  unfold withMagnitude. change (JS.num (Some c)) with c.
  pose proof (and_mask_range m) as Hk.
  set (k := JS.and m MAG_MASK) in *. clearbody k.
  assert (forallb (λ c, forallb (λ k,
       implb (wellFormed c && hasBit (Some c) IS_LAND_BIT)
            (let c' := JS.or (JS.and c (JS.not MAG_MASK)) k mod 256 in
             wellFormed c' && hasBit (Some c') IS_LAND_BIT)) (seqZ 0 32))
    (seqZ 0 256) = true) as Hall by (vm_compute; reflexivity).
  pose proof (range_cases _ _ Hall c Hc) as H. cbv beta in H.
  pose proof (range_cases _ _ H k Hk) as H'. cbv beta zeta in H'.
  rewrite Hwf, Hland in H'. cbn [andb implb] in H'.
  apply andb_true_iff in H' as [H1 H2].
  split; [exact H1 | rewrite H2, <- Hl, Hland; reflexivity].
Qed.

(** Raising the OCEAN flag of a well-formed water byte leaves the byte as
    it is: the encoding has set the flag already. *)
Lemma ocean_flag_already_set c :
  wellFormed c = true → hasBit (Some c) IS_LAND_BIT = false →
  JS.or (JS.num (Some c)) (JS.shl 1 OCEAN_BIT) mod 256 = c.
Proof. intros Hwf Hw. rewrite (wellFormed_water c Hwf Hw). reflexivity. Qed.

End Bytes.

(** ** The passes *)

Section Passes.

Import Terrain Cell.

Lemma fold_left_preserves {A S : Type} (P : S → Prop) (f : S → A → S) (l : list A) (s : S) :
  (∀ s a, P s → P (f s a)) → P s → P (fold_left f l s).
Proof. intros Hf. revert s. induction l as [| a l IH]; simpl; auto. Qed.

Lemma length_coords (width height : Z) :
  length (coords width height) = (Z.to_nat width * Z.to_nat height)%nat.
Proof.
  unfold coords. rewrite <- (length_seqZ 0 height).
  induction (seqZ 0 height) as [| y l IH]; simpl; [lia |].
  rewrite length_app, length_fmap, length_seqZ, IH. lia.
Qed.

Lemma Forall2_wr (R : Z → Z → Prop) (a b : list Z) (i v : Z) :
  Forall2 R a b →
  (∀ x y, JS.rd a i = Some x → JS.rd b i = Some y → R x (v mod 256)) →
  Forall2 R a (JS.wr b i v).
Proof.
  intros Hab Hv. unfold JS.wr, JS.rd in *. destruct (i <? 0); [done |].
  apply Forall2_same_length_lookup in Hab as [Hlen Hab].
  apply Forall2_same_length_lookup. split; [by rewrite length_insert |].
  intros n x y Hx Hy. destruct (decide (n = Z.to_nat i)) as [-> | Hne].
  - pose proof (lookup_lt_Some _ _ _ Hx) as Hlt. rewrite Hlen in Hlt.
    rewrite list_lookup_insert_eq in Hy by done. simplify_eq.
    destruct (lookup_lt_is_Some_2 b (Z.to_nat i) Hlt) as [y Hy]. eauto.
  - rewrite list_lookup_insert_ne in Hy by done. eauto.
Qed.

Lemma Forall2_keeps_refl (out : list Z) :
  Forall (λ c, wellFormed c = true) out → Forall2 keeps out out.
Proof. intros H. apply Forall_Forall2_diag. eapply Forall_impl; [done |]. by split. Qed.

Lemma Forall2_keeps_rd (a b : list Z) i x y :
  Forall2 keeps a b → JS.rd a i = Some x → JS.rd b i = Some y → keeps x y.
Proof.
  unfold JS.rd. destruct (i <? 0); [done |]. intros H Hx Hy.
  eapply Forall2_lookup_lr; eauto.
Qed.

Lemma Forall2_keeps_wf (a b : list Z) :
  Forall2 keeps a b → Forall (λ c, wellFormed c = true) b.
Proof. intros H. eapply Forall2_Forall_r; [done |]. apply Forall_true. by intros x y [? ?]. Qed.

(** *** Region pruning never fires on an encoded buffer *)

Lemma same_not_binary (grid : list Z) (i target : Z) :
  Forall (λ c, wellFormed c = true) grid → target = 0 ∨ target = 1 →
  JS.same (JS.rd grid i) target = false.
Proof.
  intros Hwf Ht. destruct (JS.rd grid i) as [c |] eqn:E; [| done].
  unfold JS.rd in E. destruct (i <? 0); [done |].
  apply (Forall_lookup_1 _ _ _ _ Hwf) in E. apply wellFormed_not_binary in E.
  simpl. lia.
Qed.

Lemma pruneAt_encoded width height target fill minSize grid visited c :
  Forall (λ c, wellFormed c = true) grid → target = 0 ∨ target = 1 →
  pruneAt width height target fill minSize (grid, visited) c = Some (grid, visited).
Proof.
  intros Hwf Ht. unfold pruneAt. destruct c as [x y].
  by rewrite (same_not_binary grid _ target Hwf Ht), andb_false_r.
Qed.

Lemma foldM_pruneAt_encoded width height target fill minSize grid visited l :
  Forall (λ c, wellFormed c = true) grid → target = 0 ∨ target = 1 →
  foldM (pruneAt width height target fill minSize) l (grid, visited) = Some (grid, visited).
Proof.
  intros Hwf Ht. induction l as [| c l IH]; [done |].
  cbn [foldM]. by rewrite pruneAt_encoded.
Qed.

Lemma removeSmallRegions_encoded grid width height minLandSize minWaterSize :
  Forall (λ c, wellFormed c = true) grid →
  removeSmallRegions grid width height minLandSize minWaterSize = Some grid.
Proof.
  intros Hwf. unfold removeSmallRegions.
  rewrite foldM_pruneAt_encoded by auto. simpl.
  rewrite foldM_pruneAt_encoded by auto. done.
Qed.

(** *** The flood fill changes no byte of an encoded buffer *)

Lemma floodLoop_encoded fuel width height out visited q r :
  Forall (λ c, wellFormed c = true) out →
  floodLoop fuel width height out visited q = Some r → r.1 = out.
Proof.
  intros Hwf. revert visited q.
  induction fuel as [| fuel IH]; intros visited q; destruct q as [| [cx cy] q];
    simpl; try (intros; by simplify_eq).
  destruct (JS.truthy _); [by apply IH |].
  destruct (hasBit (JS.rd out (index width cx cy)) IS_LAND_BIT) eqn:Hland; [by apply IH |].
  assert (JS.wr out (index width cx cy)
            (JS.or (JS.num (JS.rd out (index width cx cy))) (JS.shl 1 OCEAN_BIT)) = out) as ->.
  { destruct (JS.rd out (index width cx cy)) as [c |] eqn:E.
    - apply (wr_same _ _ _ c E). apply ocean_flag_already_set; [| done].
      unfold JS.rd in E. destruct (_ <? 0); [done |].
      by apply (Forall_lookup_1 _ _ _ _ Hwf) in E.
    - by apply wr_outside. }
  apply IH.
Qed.

(** *** The flood fill terminates within its fuel *)

Lemma unvisited_le visited : (unvisited visited ≤ length visited)%nat.
Proof. apply length_filter. Qed.

Lemma unvisited_mark (visited : list Z) (n : nat) :
  visited !! n = Some 0 →
  S (unvisited (<[n := 1 mod 256]> visited)) = unvisited visited.
Proof.
  unfold unvisited. revert n.
  induction visited as [| v l IH]; intros [| n] Hn; simplify_eq/=.
  - rewrite filter_cons_False by (by vm_compute). done.
  - specialize (IH n Hn). destruct (decide (v = 0)).
    + rewrite !filter_cons_True by done. simpl. by rewrite IH.
    + rewrite !filter_cons_False by done. done.
Qed.

Lemma index_in_range width height x y :
  inBounds width height x y = true → 0 ≤ index width x y < width * height.
Proof. unfold inBounds, index. intros H. nia. Qed.

Lemma floodVisit_fold_length out visited width height cx cy l q :
  (length (fold_left (floodVisit out visited width height cx cy) l q)
   ≤ length q + length l)%nat.
Proof.
  revert q. induction l as [| [dx dy] l IH]; intros q; simpl; [lia |].
  etrans; [apply IH |].
  destruct (inBounds _ _ _ _); simpl; [| lia].
  destruct (JS.truthy _); [lia |]. destruct (hasBit _ _); [lia |].
  rewrite length_app. simpl. lia.
Qed.

Lemma floodVisit_fold_ok out visited width height cx cy l q :
  queueOk width height q →
  queueOk width height (fold_left (floodVisit out visited width height cx cy) l q).
Proof.
  revert q. induction l as [| [dx dy] l IH]; intros q Hq; simpl; [done |].
  apply IH. destruct (inBounds _ _ _ _) eqn:Hin; simpl; [| done].
  destruct (JS.truthy _); [done |]. destruct (hasBit _ _); [done |].
  destruct Hq as [Hd | Hq]; [by left | right].
  apply Forall_app. split; [done |]. by constructor.
Qed.

Lemma floodVisit_fold_degenerate out visited width height cx cy l q :
  width ≤ 0 ∨ height ≤ 0 →
  fold_left (floodVisit out visited width height cx cy) l q = q.
Proof.
  intros Hd. revert q. induction l as [| [dx dy] l IH]; intros q; simpl; [done |].
  assert (inBounds width height (cx + dx) (cy + dy) = false) as ->
    by (unfold inBounds; lia).
  simpl. apply IH.
Qed.

Lemma floodLoop_total fuel width height out visited q :
  length visited = Z.to_nat (width * height) →
  queueOk width height q →
  (length q + 4 * unvisited visited ≤ fuel)%nat →
  is_Some (floodLoop fuel width height out visited q).
Proof.
  revert out visited q.
  induction fuel as [| fuel IH]; intros out visited q Hlen Hq Hfuel;
    destruct q as [| [cx cy] q]; cbn [floodLoop]; cbn [length] in Hfuel;
    try done; try lia.
  assert (queueOk width height q) as Hq'.
  { destruct Hq as [Hd | Hq]; [by left | right]. by inversion Hq. }
  destruct (JS.rd visited (index width cx cy)) as [v |] eqn:Hv; cbn [JS.truthy].
  - destruct (Z.eqb_spec v 0) as [-> | Hne]; cbn [negb]; [| apply IH; [done | done | lia]].
    assert (S (unvisited (JS.wr visited (index width cx cy) 1)) = unvisited visited) as Hmark.
    { unfold JS.wr, JS.rd in *. destruct (_ <? 0); [done |]. by apply unvisited_mark. }
    destruct (hasBit _ _).
    + apply IH; [by rewrite length_wr | done | lia].
    + apply IH; [by rewrite length_wr | by apply floodVisit_fold_ok |].
      pose proof (floodVisit_fold_length
        (JS.wr out (index width cx cy)
           (JS.or (JS.num (JS.rd out (index width cx cy))) (JS.shl 1 OCEAN_BIT)))
        (JS.wr visited (index width cx cy) 1) width height cx cy dirs q) as Hl.
      change (length dirs) with 4%nat in Hl. lia.
  - assert (width ≤ 0 ∨ height ≤ 0) as Hd.
    { destruct Hq as [Hd | Hq]; [done |]. exfalso.
      inversion Hq as [| ? ? Hin _]; subst. cbn [fst snd] in Hin.
      apply index_in_range in Hin.
      destruct (rd_in_range visited (index width cx cy)) as [? ?]; [lia | congruence]. }
    rewrite (wr_outside _ _ _ Hv).
    destruct (hasBit _ _); [apply IH; [done | done | lia] |].
    rewrite floodVisit_fold_degenerate by done.
    apply IH; [done | done | lia].
Qed.

Lemma edgeSeeds_ok out width height : queueOk width height (edgeSeeds out width height).
Proof.
  destruct (decide (0 < width ∧ 0 < height)) as [[Hw Hh] | Hd]; [right | left; lia].
  unfold edgeSeeds. apply Forall_app. split.
  - apply Forall_flat_map, Forall_forall. intros x Hx%elem_of_seqZ.
    apply Forall_flat_map, Forall_forall. intros y Hy.
    destruct (hasBit _ _); [constructor |]. constructor; [| constructor]. simpl.
    rewrite !elem_of_cons, elem_of_nil in Hy.
    unfold inBounds. lia.
  - apply Forall_flat_map, Forall_forall. intros y Hy%elem_of_seqZ.
    apply Forall_flat_map, Forall_forall. intros x Hx.
    destruct (hasBit _ _); [constructor |]. constructor; [| constructor]. simpl.
    rewrite !elem_of_cons, elem_of_nil in Hx.
    unfold inBounds. lia.
Qed.

Lemma floodOceans_encoded out width height :
  Forall (λ c, wellFormed c = true) out →
  floodOceans out width height = Some out.
Proof.
  intros Hwf. unfold floodOceans.
  destruct (floodLoop_total
    (length (edgeSeeds out width height)
     + 4 * length (JS.newUint8Array (Z.to_nat (width * height))))
    width height out (JS.newUint8Array (Z.to_nat (width * height)))
    (edgeSeeds out width height)) as [r Hr].
  - apply length_replicate.
  - apply edgeSeeds_ok.
  - pose proof (unvisited_le (JS.newUint8Array (Z.to_nat (width * height)))). lia.
  - rewrite Hr. simpl. f_equal. by eapply floodLoop_encoded.
Qed.

(** *** Shoreline, smoothing and ridge accent keep every cell *)

Lemma hasBit_land_test (cell : option Z) :
  (JS.and (JS.num cell) (JS.shl 1 IS_LAND_BIT) =? 0) = negb (hasBit cell IS_LAND_BIT).
Proof. unfold hasBit. by rewrite negb_involutive. Qed.

Lemma shorelineAt_keeps width height start out c :
  Forall2 keeps start out → Forall2 keeps start (shorelineAt width height out c).
Proof.
  intros H. unfold shorelineAt. destruct c as [x y].
  destruct (hasBit (JS.rd out (index width x y)) IS_LAND_BIT) eqn:Hland; [| done].
  cbn [negb]. match goal with |- context [if ?b then JS.wr _ _ _ else _] => destruct b end;
    [| done].
  apply Forall2_wr; [done |]. intros c0 c Hc0 Hc. rewrite Hc in Hland |- *.
  apply keeps_shoreline; [| done]. by eapply Forall2_keeps_rd.
Qed.

Lemma markShoreline_keeps start out width height :
  Forall2 keeps start out → Forall2 keeps start (markShoreline out width height).
Proof.
  unfold markShoreline. apply fold_left_preserves. intros. by apply shorelineAt_keeps.
Qed.

Lemma smoothAt_keeps width height radius copy out c :
  Forall2 keeps copy out → Forall2 keeps copy (smoothAt copy width height radius out c).
Proof.
  intros H. unfold smoothAt. destruct c as [x y].
  rewrite hasBit_land_test.
  destruct (hasBit (JS.rd copy (index width x y)) IS_LAND_BIT) eqn:Hland; [| done].
  cbn [negb]. destruct (radius =? 0); [done |].
  destruct (windowSum copy width height radius x y) as [sum count].
  apply Forall2_wr; [done |]. intros c0 c Hc0 Hc. rewrite Hc0 in Hland. rewrite Hc.
  pose proof (Forall2_keeps_rd _ _ _ _ _ H Hc0 Hc) as Hk.
  apply keeps_magnitude; [done |]. destruct Hk as [_ ->]. done.
Qed.

Lemma smoothMagnitude_keeps start out width height smoothingRadius :
  Forall2 keeps start out →
  Forall2 keeps start (smoothMagnitude out width height smoothingRadius).
Proof.
  intros H. unfold smoothMagnitude.
  assert (Forall2 keeps out
    (fold_left (smoothAt out width height (Z.max 0 (Z.min 2 smoothingRadius)))
       (coords width height) out)) as Hs.
  { apply fold_left_preserves; [intros; by apply smoothAt_keeps |].
    apply Forall2_keeps_refl. by eapply Forall2_keeps_wf. }
  apply Forall2_same_length_lookup in H as [Hlen H].
  apply Forall2_same_length_lookup in Hs as [Hlen' Hs].
  apply Forall2_same_length_lookup. split; [congruence |].
  intros i c0 c Hc0 Hc.
  destruct (lookup_lt_is_Some_2 out i) as [c1 Hc1].
  { rewrite <- Hlen. by eapply lookup_lt_Some. }
  destruct (H i c0 c1 Hc0 Hc1) as [_ H01]. destruct (Hs i c1 c Hc1 Hc) as [Hwf H1].
  split; [done | congruence].
Qed.

Lemma accentAt_keeps width height copy out c :
  Forall2 keeps copy out → Forall2 keeps copy (accentAt copy width height out c).
Proof.
  intros H. unfold accentAt. destruct c as [x y].
  rewrite hasBit_land_test.
  destruct (hasBit (JS.rd copy (index width x y)) IS_LAND_BIT) eqn:Hland; [| done].
  cbn [negb]. destruct (windowSum copy width height 1 x y) as [sum count].
  match goal with |- context [if ?b then JS.wr _ _ _ else _] => destruct b end; [| done].
  apply Forall2_wr; [done |]. intros c0 c Hc0 Hc. rewrite Hc0 in Hland. rewrite Hc.
  pose proof (Forall2_keeps_rd _ _ _ _ _ H Hc0 Hc) as Hk.
  apply keeps_magnitude; [done |]. destruct Hk as [_ ->]. done.
Qed.

Lemma ridgeAccentPass_keeps start out width height enableAccent :
  Forall2 keeps start out →
  Forall2 keeps start (ridgeAccentPass out width height enableAccent).
Proof.
  intros H. unfold ridgeAccentPass. destruct enableAccent; [| done].
  assert (Forall2 keeps out
    (fold_left (accentAt out width height) (coords width height) out)) as Hs.
  { apply fold_left_preserves; [intros; by apply accentAt_keeps |].
    apply Forall2_keeps_refl. by eapply Forall2_keeps_wf. }
  apply Forall2_same_length_lookup in H as [Hlen H].
  apply Forall2_same_length_lookup in Hs as [Hlen' Hs].
  apply Forall2_same_length_lookup. split; [congruence |].
  intros i c0 c Hc0 Hc.
  destruct (lookup_lt_is_Some_2 out i) as [c1 Hc1].
  { rewrite <- Hlen. by eapply lookup_lt_Some. }
  destruct (H i c0 c1 Hc0 Hc1) as [_ H01]. destruct (Hs i c1 c Hc1 Hc) as [Hwf H1].
  split; [done | congruence].
Qed.

End Passes.

(** ** The breadth-first loops return on every grid *)

Section Termination.

Import Terrain.

Lemma unmarked_le visited : (unmarked visited ≤ length visited)%nat.
Proof. apply length_filter. Qed.

Lemma unmarked_mark (visited : list Z) (n : nat) (v : Z) :
  visited !! n = Some v → v ≠ 1 →
  S (unmarked (<[n := 1 mod 256]> visited)) = unmarked visited.
Proof.
  unfold unmarked. revert n.
  induction visited as [| w l IH]; intros [| n] Hn Hv; simplify_eq/=.
  - rewrite filter_cons_False by (intros H; by apply H).
    by rewrite filter_cons_True by done.
  - specialize (IH n Hn Hv). destruct (decide (w ≠ 1)).
    + rewrite !filter_cons_True by done. simpl. by rewrite IH.
    + rewrite !filter_cons_False by done. done.
Qed.

Lemma unmarked_wr (visited : list Z) (i v : Z) :
  JS.rd visited i = Some v → v ≠ 1 →
  S (unmarked (JS.wr visited i 1)) = unmarked visited.
Proof.
  unfold JS.rd, JS.wr. destruct (i <? 0); [done |]. apply unmarked_mark.
Qed.

Lemma same_Some (c : option Z) (v : Z) : JS.same c v = true → c = Some v.
Proof. destruct c as [x |]; simpl; [| done]. intros H. f_equal. lia. Qed.

(** A direction either changes nothing or marks a fresh cell and queues it. *)
Lemma bfsVisit_measure grid width height target cx cy visited q d :
  length visited = length grid →
  ∃ visited' q',
    bfsVisit grid width height target cx cy (visited, q) d = (visited', q')
    ∧ length visited' = length grid
    ∧ (length q' + unmarked visited' = length q + unmarked visited)%nat.
Proof.
  intros Hlen. unfold bfsVisit. destruct d as [dx dy].
  destruct (outside _ _ _ _); [by eauto |].
  set (ni := index width (cx + dx) (cy + dy)).
  destruct (JS.same (JS.rd visited ni) 1) eqn:Hv; [by eauto |].
  destruct (JS.same (JS.rd grid ni) target) eqn:Hg; [| by eauto].
  apply same_Some, rd_Some in Hg. rewrite <- Hlen in Hg.
  destruct (rd_in_range visited ni Hg) as [v Hrd].
  assert (v ≠ 1) as Hne.
  { intros ->. rewrite Hrd in Hv. done. }
  eexists _, _. split; [reflexivity |]. split; [by rewrite length_wr |].
  pose proof (unmarked_wr visited ni v Hrd Hne). rewrite length_app. simpl. lia.
Qed.

Lemma bfsVisit_fold_measure grid width height target cx cy l visited q :
  length visited = length grid →
  ∃ visited' q',
    fold_left (bfsVisit grid width height target cx cy) l (visited, q) = (visited', q')
    ∧ length visited' = length grid
    ∧ (length q' + unmarked visited' = length q + unmarked visited)%nat.
Proof.
  revert visited q. induction l as [| d l IH]; intros visited q Hlen; [by eauto |].
  cbn [fold_left].
  destruct (bfsVisit_measure grid width height target cx cy visited q d Hlen)
    as (v1 & q1 & -> & Hlen1 & Hm1).
  destruct (IH v1 q1 Hlen1) as (v2 & q2 & -> & Hlen2 & Hm2).
  eexists _, _. split; [reflexivity |]. split; [done | lia].
Qed.

Lemma bfsLoop_total grid width height fuel target visited q cells size :
  length visited = length grid →
  (length q + unmarked visited ≤ fuel)%nat →
  ∃ visited' size' cells',
    bfsLoop grid width height fuel target visited q cells size
      = Some (visited', size', cells')
    ∧ length visited' = length grid.
Proof.
  revert visited q cells size.
  induction fuel as [| fuel IH]; intros visited q cells size Hlen Hfuel;
    destruct q as [| [cx cy] q]; cbn [bfsLoop]; cbn [length] in Hfuel;
    try (by eauto 6); try lia.
  destruct (bfsVisit_fold_measure grid width height target cx cy dirs visited q Hlen)
    as (v1 & q1 & -> & Hlen1 & Hm1).
  apply IH; [done | lia].
Qed.

Lemma length_fill (width fill : Z) (cells : list (Z * Z)) (grid : list Z) :
  length (fold_left (λ g '(cx, cy), JS.wr g (index width cx cy) fill) cells grid)
  = length grid.
Proof.
  revert grid. induction cells as [| [cx cy] cells IH]; intros grid; [done |].
  cbn [fold_left]. by rewrite IH, length_wr.
Qed.

Lemma pruneAt_total width height target fill minSize grid visited c :
  length visited = length grid →
  ∃ grid' visited',
    pruneAt width height target fill minSize (grid, visited) c = Some (grid', visited')
    ∧ length grid' = length grid ∧ length visited' = length grid'.
Proof.
  intros Hlen. unfold pruneAt. destruct c as [x y].
  destruct (JS.same (JS.rd visited (index width x y)) 0) eqn:Hv; [| by eauto].
  destruct (JS.same (JS.rd grid (index width x y)) target); [| by eauto].
  cbn [andb]. apply same_Some in Hv.
  pose proof (unmarked_wr visited (index width x y) 0 Hv ltac:(done)) as Hm.
  pose proof (unmarked_le visited) as Hle.
  destruct (bfsLoop_total grid width height (S (length grid)) target
              (JS.wr visited (index width x y) 1) [(x, y)] [] 0)
    as (v1 & size & cells & Hbfs & Hlen1).
  { by rewrite length_wr. }
  { simpl. lia. }
  unfold bfs. rewrite Hbfs.
  destruct (size <? minSize); eexists _, _; (split; [reflexivity |]).
  - rewrite length_fill. split; [done | congruence].
  - split; [done | congruence].
Qed.

Lemma foldM_pruneAt_total width height target fill minSize l grid visited :
  length visited = length grid →
  ∃ grid' visited',
    foldM (pruneAt width height target fill minSize) l (grid, visited)
      = Some (grid', visited')
    ∧ length grid' = length grid ∧ length visited' = length grid'.
Proof.
  revert grid visited. induction l as [| c l IH]; intros grid visited Hlen; [by eauto |].
  cbn [foldM].
  destruct (pruneAt_total width height target fill minSize grid visited c Hlen)
    as (g1 & v1 & -> & Hg1 & Hv1).
  destruct (IH g1 v1 Hv1) as (g2 & v2 & -> & Hg2 & Hv2).
  eexists _, _. split; [reflexivity |]. split; [congruence | done].
Qed.

(** [removeSmallRegions] returns on every grid, of the same length. *)
Lemma removeSmallRegions_total grid width height minLandSize minWaterSize :
  ∃ grid', removeSmallRegions grid width height minLandSize minWaterSize = Some grid'
           ∧ length grid' = length grid.
Proof.
  unfold removeSmallRegions.
  destruct (foldM_pruneAt_total width height 1 0 minLandSize (coords width height)
              grid (JS.newUint8Array (length grid))) as (g1 & v1 & -> & Hg1 & Hv1).
  { apply length_replicate. }
  cbn [mbind option_bind].
  destruct (foldM_pruneAt_total width height 0 1 minWaterSize (coords width height)
              g1 (replicate (length v1) 0)) as (g2 & v2 & -> & Hg2 & Hv2).
  { by rewrite length_replicate. }
  cbn [mbind option_bind]. exists g2. split; [done | congruence].
Qed.

(** The flood fill returns on every buffer. *)
Lemma floodOceans_total out width height :
  is_Some (floodOceans out width height).
Proof.
  unfold floodOceans.
  destruct (floodLoop_total
    (length (edgeSeeds out width height)
     + 4 * length (JS.newUint8Array (Z.to_nat (width * height))))
    width height out (JS.newUint8Array (Z.to_nat (width * height)))
    (edgeSeeds out width height)) as [r Hr].
  - apply length_replicate.
  - apply edgeSeeds_ok.
  - pose proof (unvisited_le (JS.newUint8Array (Z.to_nat (width * height)))). lia.
  - rewrite Hr. by eexists.
Qed.

End Termination.

(** ** Terrain generation *)

Section GenerationProperties.

Import Num Terrain Cell Loader.

Variable M : MathLib.

(** Every byte of the encoding block is well formed: water is the bare
    OCEAN flag, land is the IS_LAND flag with a magnitude. *)
Lemma terrainByte_wf noise octs ampSum gamma landThreshold x y :
  wellFormed (terrainByte M noise octs ampSum gamma landThreshold x y) = true.
Proof.
  unfold terrainByte. cbv zeta.
  match goal with |- context [(landThreshold <? ?e)%float] => generalize e end.
  intros v. destruct (landThreshold <? v)%float.
  - match goal with |- context [truncZ ?e] => generalize (truncZ e) end.
    intros m. pose proof (and_mask_range m) as Hk.
    change 0x1f with MAG_MASK. set (k := JS.and m MAG_MASK) in *. clearbody k.
    assert (forallb (λ k, wellFormed (JS.and (JS.or (JS.or (JS.shl 1 7) 0) k) 0xff))
              (seqZ 0 32) = true) as Hall by (vm_compute; reflexivity).
    apply (range_cases _ _ Hall k Hk).
  - vm_compute. reflexivity.
Qed.

Lemma encodeField_wf this store width height seed landThreshold :
  Forall (λ c, wellFormed c = true)
         (encodeField M this store width height seed landThreshold).
Proof.
  unfold encodeField. destruct (buildOctaves M store) as [octs ampSum].
  apply Forall_fmap, Forall_forall. intros [x y] _. apply terrainByte_wf.
Qed.

Lemma length_encodeField this store width height seed landThreshold :
  length (encodeField M this store width height seed landThreshold)
  = (Z.to_nat width * Z.to_nat height)%nat.
Proof.
  unfold encodeField. destruct (buildOctaves M store) as [octs ampSum].
  by rewrite length_fmap, length_coords.
Qed.

(** The passes return on every buffer. *)
Lemma postProcess_total minLand minWater radius accent out width height :
  is_Some (postProcess minLand minWater radius accent out width height).
Proof.
  unfold postProcess.
  destruct (removeSmallRegions_total out width height minLand minWater) as (g & -> & _).
  cbn [mbind option_bind].
  destruct (floodOceans_total g width height) as [o ->].
  cbn [mbind option_bind]. by eexists.
Qed.

(** On an encoded buffer the passes always finish, and they keep every
    cell: the pruning and the flood fill change nothing, the other passes
    only touch the SHORELINE flag and the magnitude of land cells. *)
Lemma postProcess_keeps minLand minWater radius accent out width height :
  Forall (λ c, wellFormed c = true) out →
  ∃ buf, postProcess minLand minWater radius accent out width height = Some buf
         ∧ Forall2 keeps out buf.
Proof.
  intros Hwf. unfold postProcess.
  rewrite removeSmallRegions_encoded by done. cbn [mbind option_bind].
  rewrite floodOceans_encoded by done. cbn [mbind option_bind].
  eexists. split; [reflexivity |].
  by apply ridgeAccentPass_keeps, smoothMagnitude_keeps, markShoreline_keeps,
    Forall2_keeps_refl.
Qed.

Lemma generateTerrainBin_keeps this store width height seed landThreshold :
  ∃ buf, generateTerrainBin M this store width height seed landThreshold = Some buf
         ∧ Forall2 keeps
             (encodeField M this store (Z.of_nat width) (Z.of_nat height) seed landThreshold)
             buf.
Proof. unfold generateTerrainBin. apply postProcess_keeps, encodeField_wf. Qed.

Lemma generateTerrainBin_wf this store width height seed landThreshold :
  ∃ buf, generateTerrainBin M this store width height seed landThreshold = Some buf
         ∧ length buf = (width * height)%nat
         ∧ Forall (λ c, wellFormed c = true) buf.
Proof.
  destruct (generateTerrainBin_keeps this store width height seed landThreshold)
    as (buf & Hbuf & Hk).
  exists buf. split; [done |]. split; [| by eapply Forall2_keeps_wf].
  rewrite <- (Forall2_length _ _ _ Hk), length_encodeField. lia.
Qed.

(** The loader instance enters a run only through three fields of its
    effective params. *)
Lemma generateTerrainBin_params_ext (this1 this2 : GeneratedMapLoader)
    (store : GeneratedParams) (width height : nat) (seed : Z) (landThreshold : float) :
  contrastGamma (default store (params this1))
    = contrastGamma (default store (params this2)) →
  smoothingRadius (default store (params this1))
    = smoothingRadius (default store (params this2)) →
  ridgeAccent (default store (params this1))
    = ridgeAccent (default store (params this2)) →
  generateTerrainBin M this1 store width height seed landThreshold
  = generateTerrainBin M this2 store width height seed landThreshold.
Proof.
  intros Hg Hr Ha. unfold generateTerrainBin, encodeField. by rewrite Hg, Hr, Ha.
Qed.

(** C5: in every buffer [generateTerrainBin] returns, no cell has both
    IS_LAND and OCEAN, SHORELINE only comes with IS_LAND, a cell without
    IS_LAND has magnitude 0, and every magnitude lies in [0, 31]. *)
Theorem generateTerrainBin_bit_invariants
    (this : GeneratedMapLoader) (store : GeneratedParams)
    (width height : nat) (seed : Z) (landThreshold : float) :
  ∃ buf, generateTerrainBin M this store width height seed landThreshold = Some buf
         ∧ Forall bitInvariants buf.
Proof.
  destruct (generateTerrainBin_wf this store width height seed landThreshold)
    as (buf & Hbuf & _ & Hwf).
  exists buf. split; [done |].
  eapply Forall_impl; [exact Hwf |]. apply wellFormed_invariants.
Qed.

(** C6: a run of [generateTerrainBin] is a function of the constructor's
    params, the store snapshot and the four arguments: two runs that agree
    on these, whatever the caches of the two loaders hold, both return, and
    return the same buffer of width * height bytes. *)
Theorem generateTerrainBin_deterministic
    (injected : option GeneratedParams) (cache1 cache2 : gmap string MapData)
    (store : GeneratedParams) (width height : nat) (seed : Z) (landThreshold : float) :
  ∃ buf,
    generateTerrainBin M {| params := injected; maps := cache1 |} store
                       width height seed landThreshold = Some buf
    ∧ generateTerrainBin M {| params := injected; maps := cache2 |} store
                         width height seed landThreshold = Some buf
    ∧ length buf = (width * height)%nat.
Proof.
  destruct (generateTerrainBin_wf {| params := injected; maps := cache1 |}
              store width height seed landThreshold) as (buf & Hbuf & Hlen & _).
  exists buf. split; [done |]. split; [| done]. rewrite <- Hbuf. reflexivity.
Qed.

End GenerationProperties.

(** ** The loader *)

Section LoaderProperties.

Import Num Terrain Cell Loader.

Lemma countLand_from (buf : list Z) (c : Z) :
  Forall (λ b, wellFormed b = true) buf →
  fold_left (λ c b, c + (if b =? 1 then 1 else 0)) buf c = c.
Proof.
  intros Hwf. revert c. induction Hwf as [| b buf Hb _ IH]; intros c; [done |].
  cbn [fold_left]. apply wellFormed_not_binary in Hb as [_ Hb].
  destruct (Z.eqb_spec b 1); [done |]. rewrite Z.add_0_r. apply IH.
Qed.

(** [countLand] looks for bytes equal to 1; an encoded buffer has none. *)
Lemma countLand_encoded (buf : list Z) :
  Forall (λ b, wellFormed b = true) buf → countLand buf = 0.
Proof. apply countLand_from. Qed.

Variable M : MathLib.
Variable Generated : string.

(** The product a loader without a cached entry builds. *)
Lemma getMapData_fresh (this : GeneratedMapLoader) (store : GeneratedParams) :
  maps this !! Generated = None →
  ∃ d, getMapData M Generated this store Generated
         = Some (Return d, {| params := params this;
                              maps := <[Generated := d]> (maps this) |})
       ∧ Forall (λ b, wellFormed b = true) (mapBin d)
       ∧ Forall (λ b, wellFormed b = true) (map4xBin d)
       ∧ Forall (λ b, wellFormed b = true) (map16xBin d)
       ∧ num_land_tiles (map (manifest d)) = countLand (mapBin d)
       ∧ num_land_tiles (map4x (manifest d)) = countLand (map4xBin d)
       ∧ num_land_tiles (map16x (manifest d)) = countLand (map16xBin d).
Proof.
  intros Hnone. unfold getMapData. rewrite String.eqb_refl. cbn [negb]. rewrite Hnone.
  set (p := default store (params this)).
  destruct (generateTerrainBin_wf M this store (width p) (height p) (seed p)
              (landThreshold p)) as (b1 & -> & _ & Hwf1).
  destruct (generateTerrainBin_wf M this store (width4x p) (height4x p) (seed p + 101)
              (landThreshold p)) as (b2 & -> & _ & Hwf2).
  destruct (generateTerrainBin_wf M this store (width16x p) (height16x p) (seed p + 202)
              (landThreshold p)) as (b3 & -> & _ & Hwf3).
  cbn [mbind option_bind]. eexists. split; [reflexivity |]. cbn. done.
Qed.

Lemma getMapData_cached (this : GeneratedMapLoader) (store : GeneratedParams) (d : MapData) :
  maps this !! Generated = Some d →
  getMapData M Generated this store Generated = Some (Return d, this).
Proof.
  intros Hd. unfold getMapData. rewrite String.eqb_refl. cbn [negb]. by rewrite Hd.
Qed.

(** With the generated identity the call returns a product, and the loader
    holds that product afterwards. *)
Lemma getMapData_returns (this : GeneratedMapLoader) (store : GeneratedParams) :
  ∃ d this', getMapData M Generated this store Generated = Some (Return d, this')
             ∧ maps this' !! Generated = Some d.
Proof.
  destruct (maps this !! Generated) as [d |] eqn:Hd.
  - exists d, this. split; [by apply getMapData_cached | done].
  - destruct (getMapData_fresh this store Hd) as (d & Hget & _).
    eexists _, _. split; [exact Hget |]. cbn. apply lookup_insert_eq.
Qed.

(** C7: for a map identity other than the generated kind, [getMapData]
    throws an error whose message ends with that identity, returns no
    product, and leaves the loader (its cache) as it was; with the
    generated kind it returns a product. *)
Theorem getMapData_rejects_other_maps
    (this : GeneratedMapLoader) (store : GeneratedParams) (m : string) :
  m ≠ Generated →
  getMapData M Generated this store m
    = Some (Throw ("GeneratedMapLoader only supports GameMapType.Generated, received: "
                   +:+ m), this)
  ∧ ∃ d this', getMapData M Generated this store Generated = Some (Return d, this').
Proof.
  intros Hm. split.
  - unfold getMapData. destruct (String.eqb_spec m Generated); done.
  - destruct (getMapData_returns this store) as (d & this' & H & _). eauto.
Qed.

End LoaderProperties.

(** C8: on every loader, a call with the generated identity returns a
    product, and a second call on the loader it leaves returns the same
    product and leaves the loader as it is, whatever the store holds by then
    and whatever the math functions would compute: the second call takes the
    cached product and evaluates no noise. *)
Theorem getMapData_cached_idempotent
    (M : MathLib) (Generated : string)
    (this : GeneratedMapLoader) (store : GeneratedParams) :
  ∃ d this',
    Loader.getMapData M Generated this store Generated = Some (Return d, this')
    ∧ ∀ (M' : MathLib) (store' : GeneratedParams),
        Loader.getMapData M' Generated this' store' Generated = Some (Return d, this').
Proof.
  destruct (getMapData_returns M Generated this store) as (d & this' & Hget & Hd).
  exists d, this'. split; [done |]. intros M' store'. by apply getMapData_cached.
Qed.

(** C10: two fresh loaders whose injected params agree on the seed, the six
    dimensions, landThreshold, contrastGamma, smoothingRadius and ridgeAccent
    (so differ at most in octaves, lacunarity, persistence and the two region
    sizes) return, under the same store, the same outcome: those five fields
    are read from the store. *)
Theorem getMapData_ignores_injected_noise_fields
    (M : MathLib) (Generated : string)
    (p1 p2 : GeneratedParams) (store : GeneratedParams) :
  sameInjectedFields p1 p2 →
  fst <$> Loader.getMapData M Generated (Loader.new (Some p1)) store Generated
  = fst <$> Loader.getMapData M Generated (Loader.new (Some p2)) store Generated.
Proof.
  intros (Hseed & Hw & Hh & Hw4 & Hh4 & Hw16 & Hh16 & Hlt & Hg & Hr & Ha).
  unfold Loader.getMapData. rewrite String.eqb_refl. cbn [negb].
  unfold Loader.new. cbn [maps params default]. unfold id. rewrite lookup_empty.
  rewrite Hseed, Hw, Hh, Hw4, Hh4, Hw16, Hh16, Hlt.
  rewrite !(generateTerrainBin_params_ext M
              {| params := Some p1; maps := ∅ |} {| params := Some p2; maps := ∅ |})
    by done.
  repeat match goal with
         | |- context [Loader.generateTerrainBin ?M ?t ?s ?w ?h ?sd ?lt] =>
             destruct (Loader.generateTerrainBin M t s w h sd lt);
             cbn [mbind option_bind]; [| reflexivity]
         end.
  reflexivity.
Qed.

(** ** Where the code departs from the specification *)

Section Departures.

Import Num Terrain Cell Loader.

(** Whatever the configuration, a water cell of a generated buffer carries
    the OCEAN flag: the encoding sets it on all water and no pass clears
    it, so enclosed water is not told apart from the ocean. *)
Lemma generated_water_has_ocean_flag (M : MathLib)
    (this : GeneratedMapLoader) (store : GeneratedParams)
    (width height : nat) (seed : Z) (landThreshold : float) :
  ∃ buf, generateTerrainBin M this store width height seed landThreshold = Some buf
         ∧ Forall (λ c, hasBit (Some c) IS_LAND_BIT = false → c = 32) buf.
Proof.
  destruct (generateTerrainBin_wf M this store width height seed landThreshold)
    as (buf & Hbuf & _ & Hwf).
  exists buf. split; [done |].
  eapply Forall_impl; [exact Hwf |]. intros c. apply wellFormed_water.
Qed.

(** The manifest of a freshly generated product counts no land at all. *)
Lemma manifest_counts_no_land (M : MathLib) (Generated : string)
    (injected : option GeneratedParams) (store : GeneratedParams) :
  ∃ d this',
    getMapData M Generated (Loader.new injected) store Generated = Some (Return d, this')
    ∧ num_land_tiles (map (manifest d)) = 0
    ∧ num_land_tiles (map4x (manifest d)) = 0
    ∧ num_land_tiles (map16x (manifest d)) = 0.
Proof.
  destruct (getMapData_fresh M Generated (Loader.new injected) store)
    as (d & Hget & Hwf1 & Hwf2 & Hwf3 & H1 & H2 & H3); [apply lookup_empty |].
  eexists _, _. split; [exact Hget |].
  by rewrite H1, H2, H3, !countLand_encoded.
Qed.

(** A cell none of whose neighbours satisfies [ok] is connected to itself
    only. *)
Lemma isolated_path (ok : Z * Z → bool) (c c' : Z * Z) :
  Grid.isolated ok c = true → Grid.path ok c c' → c' = c.
Proof.
  intros Hiso Hp. unfold Grid.isolated in Hiso. rewrite forallb_forall in Hiso.
  inversion Hp as [| ? d ? _ Hd Hnext]; subst; [done |].
  apply list_elem_of_In, Hiso in Hd.
  assert (ok (Grid.neighbour c d) = true) as Hok by (inversion Hnext; done).
  by rewrite Hok in Hd.
Qed.

(** The passes on three hand-made fields. A 3 x 3 field whose only land is
    the centre, with minimum region sizes 2 and 0: the pruning returns the
    buffer as it got it and the island survives, while on the 0/1 grid the
    pruning was written for the same island is removed. *)
Lemma island_field_not_pruned :
  removeSmallRegions [32; 32; 32; 32; 128; 32; 32; 32; 32] 3 3 2 0
    = Some [32; 32; 32; 32; 128; 32; 32; 32; 32]
  ∧ postProcess 2 0 1 true [32; 32; 32; 32; 128; 32; 32; 32; 32] 3 3
    = Some [32; 32; 32; 32; 192; 32; 32; 32; 32]
  ∧ landCells [32; 32; 32; 32; 192; 32; 32; 32; 32] = 1
  ∧ removeSmallRegions [0; 0; 0; 0; 1; 0; 0; 0; 0] 3 3 2 0
    = Some [0; 0; 0; 0; 0; 0; 0; 0; 0].
Proof. repeat split; vm_compute; reflexivity. Qed.

(** A 4 x 3 field of land around a lake of two cells, with pruning,
    smoothing and ridge accent switched off: no water touches the border,
    yet the lake keeps the OCEAN flag and the six land cells next to it get
    the SHORELINE flag. *)
Lemma lake_field_marked_as_ocean :
  postProcess 0 0 0 false
    [133; 133; 133; 133;
     133;  32;  32; 133;
     133; 133; 133; 133] 4 3
  = Some [133; 197; 197; 133;
          197;  32;  32; 197;
          133; 197; 197; 133]
  ∧ isOcean 32 = true ∧ isShoreline 197 = true ∧ isLand 197 = true
  ∧ edgeSeeds [133; 133; 133; 133; 133; 32; 32; 133; 133; 133; 133; 133] 4 3 = [].
Proof. repeat split; vm_compute; reflexivity. Qed.

(** C1, at the failing input: the default configuration on an 8 x 8 grid
    with landThreshold 0.6, the store holding twelve octaves of lacunarity 4
    and persistence 1 (minLandRegionSize is 30). In the returned buffer the
    cell (1, 1) is land and no land cell is 4-connected to it but itself: a
    land component of one cell, which the claim has pruned away. *)
Theorem pruning_keeps_single_cell_island :
  ∃ buf,
    generateTerrainBin RefMath.engine (Loader.new (Some islandParams)) speckleStore
      (width islandParams) (height islandParams) (seed islandParams)
      (landThreshold islandParams) = Some buf
    ∧ Grid.landAt buf 8 8 (1, 1) = true
    ∧ (∀ c, Grid.path (Grid.landAt buf 8 8) (1, 1) c → c = (1, 1))
    ∧ 1 < minLandRegionSize speckleStore.
Proof.
  eexists. split; [vm_compute; reflexivity |].
  split; [vm_compute; reflexivity |]. split; [| reflexivity].
  intros c Hp. apply isolated_path in Hp; [done |]. vm_compute. reflexivity.
Qed.

(** C2, at the failing input: the same store and grid with landThreshold
    0.545. The cell (5, 4) of the returned buffer is water and carries the
    OCEAN flag, yet no path of water cells leads from it to the border. *)
Theorem enclosed_lake_keeps_ocean_flag :
  ∃ buf lake,
    generateTerrainBin RefMath.engine (Loader.new (Some lakeParams)) speckleStore
      (width lakeParams) (height lakeParams) (seed lakeParams)
      (landThreshold lakeParams) = Some buf
    ∧ JS.rd buf (index 8 5 4) = Some lake
    ∧ isLand lake = false ∧ isOcean lake = true
    ∧ ¬ Grid.reachesBorder buf 8 8 (5, 4).
Proof.
  eexists _, 32. split; [vm_compute; reflexivity |].
  split; [vm_compute; reflexivity |]. split; [reflexivity |]. split; [reflexivity |].
  intros (b & Hp & Hb). apply isolated_path in Hp; [| vm_compute; reflexivity].
  subst b. vm_compute in Hb. discriminate.
Qed.

(** C3, at the failing input: the configuration of C2. The land cell (5, 3)
    of the returned buffer has the SHORELINE flag, yet none of its four
    neighbours is a water cell of the edge-reachable ocean: three are land
    and the fourth is the enclosed lake (5, 4). *)
Theorem lake_shore_marked_shoreline :
  ∃ buf shore,
    generateTerrainBin RefMath.engine (Loader.new (Some lakeParams)) speckleStore
      (width lakeParams) (height lakeParams) (seed lakeParams)
      (landThreshold lakeParams) = Some buf
    ∧ JS.rd buf (index 8 5 3) = Some shore
    ∧ isLand shore = true ∧ isShoreline shore = true
    ∧ ∀ d, d ∈ dirs →
        ¬ (Grid.waterAt buf 8 8 (Grid.neighbour (5, 3) d) = true
           ∧ Grid.reachesBorder buf 8 8 (Grid.neighbour (5, 3) d)).
Proof.
  eexists _, 194. split; [vm_compute; reflexivity |].
  split; [vm_compute; reflexivity |]. split; [reflexivity |]. split; [reflexivity |].
  intros d Hd [Hw Hr]. unfold dirs in Hd.
  rewrite !elem_of_cons, elem_of_nil in Hd.
  destruct Hd as [-> | [-> | [-> | [-> | []]]]];
    try (vm_compute in Hw; discriminate).
  destruct Hr as (b & Hp & Hb).
  apply isolated_path in Hp; [| vm_compute; reflexivity].
  subst b. vm_compute in Hb. discriminate.
Qed.

(** C4, at the failing input: the default configuration on grids of one
    cell. The three buffers hold the land byte 134, and the manifest
    reports no land tile. *)
Theorem single_cell_manifest_counts_no_land :
  fst <$> getMapData RefMath.engine "Generated" (Loader.new (Some singleCellParams))
                     DefaultGeneratedParams "Generated"
  = Some (Return {|
      mapBin := [134];
      map4xBin := [134];
      map16xBin := [134];
      manifest := {|
        name := "Generated";
        map := {| md_width := 1; md_height := 1; num_land_tiles := 0 |};
        map4x := {| md_width := 1; md_height := 1; num_land_tiles := 0 |};
        map16x := {| md_width := 1; md_height := 1; num_land_tiles := 0 |};
        nations := [];
      |};
      webpPath := placeholderThumbnail;
    |})
  ∧ landCells [134] = 1.
Proof.
  split; [| reflexivity].
  unfold getMapData. cbn [String.eqb Ascii.eqb Bool.eqb negb].
  unfold Loader.new. cbn [maps]. rewrite lookup_empty.
  cbn [params default]. unfold id.
  cbn [singleCellParams seed width height width4x height4x width16x height16x landThreshold].
  assert (∀ s, s = 123456789 ∨ s = 123456789 + 101 ∨ s = 123456789 + 202 →
            generateTerrainBin RefMath.engine
              {| params := Some singleCellParams; maps := ∅ |}
              DefaultGeneratedParams 1 1 s 0.46 = Some [134]) as Hgen.
  { intros s Hs. unfold generateTerrainBin. cbn [params default]. unfold id.
    destruct Hs as [-> | [-> | ->]]; vm_compute; reflexivity. }
  rewrite !Hgen by auto. reflexivity.
Qed.

End Departures.

(** ** Instances of the conditional theorems *)

(** The rejection of C7 at the map identity "World", on a fresh loader. *)
Lemma getMapData_rejects_other_maps_witness :
  "World" ≠ "Generated"
  ∧ (Loader.getMapData RefMath.engine "Generated" (Loader.new None)
       DefaultGeneratedParams "World"
     = Some (Throw ("GeneratedMapLoader only supports GameMapType.Generated, received: "
                    +:+ "World"), Loader.new None)
     ∧ ∃ d this', Loader.getMapData RefMath.engine "Generated" (Loader.new None)
                    DefaultGeneratedParams "Generated" = Some (Return d, this')).
Proof.
  split; [discriminate |].
  apply (getMapData_rejects_other_maps RefMath.engine "Generated" (Loader.new None)
           DefaultGeneratedParams "World").
  discriminate.
Defined.

(** The independence of C10 at the default params and at params with other
    octaves, lacunarity, persistence and region sizes. *)
Lemma getMapData_ignores_injected_noise_fields_witness :
  sameInjectedFields DefaultGeneratedParams otherNoiseParams
  ∧ fst <$> Loader.getMapData RefMath.engine "Generated"
              (Loader.new (Some DefaultGeneratedParams)) DefaultGeneratedParams "Generated"
    = fst <$> Loader.getMapData RefMath.engine "Generated"
                (Loader.new (Some otherNoiseParams)) DefaultGeneratedParams "Generated".
Proof.
  assert (sameInjectedFields DefaultGeneratedParams otherNoiseParams) as H
    by (repeat split; reflexivity).
  split; [exact H |].
  exact (getMapData_ignores_injected_noise_fields RefMath.engine "Generated"
           DefaultGeneratedParams otherNoiseParams DefaultGeneratedParams H).
Defined.

(** * Further properties *)

(** * Further properties of the terrain passes *)

Section ByteFacts.

Import Terrain Cell.

Lemma bytes_lookup (buf : list Z) (i : nat) (c : Z) :
  bytes buf → buf !! i = Some c → 0 ≤ c < 256.
Proof. intros Hb Hc. exact (Forall_lookup_1 _ _ _ _ Hb Hc). Qed.

Lemma bytes_rd (buf : list Z) (i c : Z) :
  bytes buf → JS.rd buf i = Some c → 0 ≤ c < 256.
Proof.
  unfold JS.rd. destruct (i <? 0); [done |]. apply bytes_lookup.
Qed.

Lemma bytes_wr (buf : list Z) (i v : Z) : bytes buf → bytes (JS.wr buf i v).
Proof.
  intros Hb. unfold JS.wr. destruct (i <? 0); [done |].
  apply Forall_insert; [done |]. apply Z.mod_pos_bound. lia.
Qed.

(** For a byte, the source's bit tests are the bits of the layout. *)
Lemma hasBit_testbit (c : Z) :
  0 ≤ c < 256 →
  hasBit (Some c) IS_LAND_BIT = isLand c
  ∧ hasBit (Some c) SHORELINE_BIT = isShoreline c
  ∧ hasBit (Some c) OCEAN_BIT = isOcean c
  ∧ JS.and c MAG_MASK = magnitude c.
Proof.
  intros Hc.
  assert (forallb (λ c,
      Bool.eqb (hasBit (Some c) IS_LAND_BIT) (isLand c)
      && Bool.eqb (hasBit (Some c) SHORELINE_BIT) (isShoreline c)
      && Bool.eqb (hasBit (Some c) OCEAN_BIT) (isOcean c)
      && (JS.and c MAG_MASK =? magnitude c)) (seqZ 0 256) = true) as Hall
    by (vm_compute; reflexivity).
  pose proof (range_cases _ _ Hall c Hc) as H. cbv beta in H.
  apply andb_true_iff in H as [H H4]. apply andb_true_iff in H as [H H3].
  apply andb_true_iff in H as [H1 H2].
  apply eqb_prop in H1, H2, H3.
  split; [exact H1 |]. split; [exact H2 |]. split; [exact H3 | lia].
Qed.

(** Writing a magnitude keeps the flag bits and stores the magnitude. *)
Lemma withMagnitude_byte (c m : Z) :
  0 ≤ c < 256 →
  withMagnitude (Some c) m mod 256 = flagBits c + JS.and m MAG_MASK.
Proof.
  intros Hc. unfold withMagnitude. change (JS.num (Some c)) with c.
  pose proof (and_mask_range m) as Hk. set (k := JS.and m MAG_MASK) in *. clearbody k.
  assert (forallb (λ c, forallb (λ k,
      JS.or (JS.and c (JS.not MAG_MASK)) k mod 256 =? flagBits c + k) (seqZ 0 32))
    (seqZ 0 256) = true) as Hall by (vm_compute; reflexivity).
  pose proof (range_cases _ _ Hall c Hc) as H. cbv beta in H.
  pose proof (range_cases _ _ H k Hk) as H'. cbv beta in H'. lia.
Qed.

Lemma flagBits_plus (c k : Z) :
  0 ≤ c < 256 → 0 ≤ k < 32 →
  0 ≤ flagBits c + k < 256
  ∧ flagBits (flagBits c + k) = flagBits c
  ∧ magnitude (flagBits c + k) = k
  ∧ isLand (flagBits c + k) = isLand c
  ∧ isShoreline (flagBits c + k) = isShoreline c
  ∧ isOcean (flagBits c + k) = isOcean c.
Proof.
  intros Hc Hk.
  assert (forallb (λ c, forallb (λ k,
      let c' := flagBits c + k in
      (0 <=? c') && (c' <? 256) && (flagBits c' =? flagBits c) && (magnitude c' =? k)
      && Bool.eqb (isLand c') (isLand c) && Bool.eqb (isShoreline c') (isShoreline c)
      && Bool.eqb (isOcean c') (isOcean c)) (seqZ 0 32))
    (seqZ 0 256) = true) as Hall by (vm_compute; reflexivity).
  pose proof (range_cases _ _ Hall c Hc) as H. cbv beta in H.
  pose proof (range_cases _ _ H k Hk) as H'. cbv beta zeta in H'.
  apply andb_true_iff in H' as [H' H7]. apply andb_true_iff in H' as [H' H6].
  apply andb_true_iff in H' as [H' H5]. apply andb_true_iff in H' as [H' H4].
  apply andb_true_iff in H' as [H' H3]. apply andb_true_iff in H' as [H1 H2].
  apply eqb_prop in H5, H6, H7.
  split; [lia |]. split; [lia |]. split; [lia |].
  split; [exact H5 |]. split; [exact H6 | exact H7].
Qed.

Lemma flagBits_magnitude (c : Z) : 0 ≤ c < 256 → c = flagBits c + magnitude c.
Proof.
  intros Hc.
  assert (forallb (λ c, c =? flagBits c + magnitude c) (seqZ 0 256) = true) as Hall
    by (vm_compute; reflexivity).
  pose proof (range_cases _ _ Hall c Hc) as H. cbv beta in H. lia.
Qed.

Lemma magnitude_range (c : Z) : 0 ≤ magnitude c < 32.
Proof. unfold magnitude. apply Z.mod_pos_bound. lia. Qed.

End ByteFacts.

(** ** Smoothing and ridge accent, on any buffer of bytes *)

Section MagnitudePasses.

Import Terrain Cell.

Lemma fold_left_preserves_in {A S : Type} (P : S → Prop) (f : S → A → S) (l : list A) (s : S) :
  (∀ s a, a ∈ l → P s → P (f s a)) → P s → P (fold_left f l s).
Proof.
  revert s. induction l as [| a l IH]; intros s Hf Hs; [done |].
  cbn [fold_left]. apply IH.
  - intros s' a' Ha'. apply Hf. by right.
  - apply Hf; [by left | done].
Qed.

Lemma elem_of_coords (width height : Z) (x y : Z) :
  (x, y) ∈ coords width height ↔ inBounds width height x y = true.
Proof.
  unfold coords, inBounds. rewrite list_elem_of_In, in_flat_map. split.
  - intros (y' & Hy & Hx). apply list_elem_of_In, elem_of_seqZ in Hy.
    apply list_elem_of_In, list_elem_of_fmap in Hx as (x' & Heq & Hx).
    apply elem_of_seqZ in Hx. simplify_eq. lia.
  - intros H. exists y. split.
    + apply list_elem_of_In, elem_of_seqZ. lia.
    + apply list_elem_of_In, list_elem_of_fmap. exists x. split; [done |].
      apply elem_of_seqZ. lia.
Qed.

Lemma and_mask_small (b : Z) : 0 ≤ b < 32 → JS.and b MAG_MASK = b.
Proof.
  intros Hb.
  assert (forallb (λ b, JS.and b MAG_MASK =? b) (seqZ 0 32) = true) as Hall
    by (vm_compute; reflexivity).
  pose proof (range_cases _ _ Hall b Hb) as H. cbv beta in H. lia.
Qed.

Lemma rewritten_refl (P : Z → Z → Prop) (out : list Z) :
  Forall2 (rewritten P) out out.
Proof. apply Forall_Forall2_diag, Forall_true. intros c. by left. Qed.

Lemma rewritten_byte (P : Z → Z → Prop) (c0 c : Z) :
  0 ≤ c0 < 256 → rewritten P c0 c →
  0 ≤ c < 256 ∧ flagBits c = flagBits c0 ∧ isLand c = isLand c0
  ∧ isShoreline c = isShoreline c0 ∧ isOcean c = isOcean c0
  ∧ (isLand c0 = false → c = c0).
Proof.
  intros Hc0 [-> | (Hland & k & Hk & _ & ->)]; [repeat split; (lia || done) |].
  destruct (flagBits_plus c0 k Hc0 Hk) as (H1 & H2 & _ & H4 & H5 & H6).
  split; [exact H1 |]. split; [exact H2 |]. split; [exact H4 |].
  split; [exact H5 |]. split; [exact H6 |].
  intros Hw. rewrite Hw in Hland. discriminate.
Qed.

(** Storing a magnitude into a cell the pass may have rewritten before. *)
Lemma rewritten_store (P : Z → Z → Prop) (copy out : list Z) (i m : Z) :
  bytes copy →
  Forall2 (rewritten P) copy out →
  (∀ c0, JS.rd copy i = Some c0 → isLand c0 = true ∧ P c0 (JS.and m MAG_MASK)) →
  Forall2 (rewritten P) copy (JS.wr out i (withMagnitude (JS.rd out i) m)).
Proof.
  intros Hb H Hm. apply Forall2_wr; [done |]. intros c0 c Hc0 Hc.
  destruct (Hm c0 Hc0) as [Hland HP]. rewrite Hc.
  pose proof (bytes_rd _ _ _ Hb Hc0) as Hbyte.
  assert (rewritten P c0 c) as Hr.
  { unfold JS.rd in Hc0, Hc. destruct (i <? 0); [done |].
    eapply Forall2_lookup_lr; eauto. }
  destruct (rewritten_byte P c0 c Hbyte Hr) as (Hcb & Hfl & _).
  rewrite withMagnitude_byte by done. rewrite Hfl.
  right. split; [done |]. exists (JS.and m MAG_MASK).
  split; [apply and_mask_range |]. split; [exact HP | done].
Qed.

Lemma land_test_isLand (copy : list Z) (i : Z) :
  bytes copy →
  (JS.and (JS.num (JS.rd copy i)) (JS.shl 1 IS_LAND_BIT) =? 0) = false →
  ∃ c0, JS.rd copy i = Some c0 ∧ isLand c0 = true.
Proof.
  intros Hb Ht. destruct (JS.rd copy i) as [c0 |] eqn:E; [| done].
  exists c0. split; [done |].
  destruct (hasBit_testbit c0 (bytes_rd _ _ _ Hb E)) as (<- & _).
  unfold hasBit. by rewrite Ht.
Qed.

(** *** The window *)

Lemma windowSum_cells (copy : list Z) (width height radius : Z) (x y : Z) :
  windowSum copy width height radius x y
  = fold_left (λ acc dy,
      fold_left (windowCell copy width height x y dy)
                (seqZ (- radius) (2 * radius + 1)) acc)
      (seqZ (- radius) (2 * radius + 1)) (0, 0).
Proof. reflexivity. Qed.

(** One cell of the window adds a land magnitude of the copy, or nothing. *)
Lemma windowCell_bounds (copy : list Z) (width height : Z) (lo hi : Z)
    (x y dx dy : Z) (acc : Z * Z) :
  bytes copy → landMagnitudesIn lo hi copy →
  0 ≤ acc.2 ∧ lo * acc.2 ≤ acc.1 ≤ hi * acc.2 →
  let r := windowCell copy width height x y dy acc dx in
  (acc.2 ≤ r.2 ∧ lo * r.2 ≤ r.1 ≤ hi * r.2)
  ∧ (outside width height (x + dx) (y + dy) = false →
     hasBit (JS.rd copy (index width (x + dx) (y + dy))) IS_LAND_BIT = true →
     r.2 = acc.2 + 1).
Proof.
  intros Hb Hm HJ. destruct acc as [sum count]. cbn [fst snd] in HJ.
  unfold windowCell. cbv zeta.
  destruct (outside width height (x + dx) (y + dy)); [split; [simpl; lia | done] |].
  destruct (JS.and _ _ =? 0) eqn:Ht.
  - split; [simpl; lia |]. intros _ Hl. unfold hasBit in Hl. by rewrite Ht in Hl.
  - split; [| done].
    destruct (land_test_isLand copy _ Hb Ht) as (c & Hc & Hland). rewrite Hc.
    change (JS.num (Some c)) with c.
    pose proof (bytes_rd _ _ _ Hb Hc) as Hbyte.
    destruct (hasBit_testbit c Hbyte) as (_ & _ & _ & ->).
    assert (lo ≤ magnitude c ≤ hi) as Hmc.
    { unfold JS.rd in Hc. destruct (_ <? 0); [done |].
      exact (Forall_lookup_1 _ _ _ _ Hm Hc Hland). }
    simpl. lia.
Qed.

Lemma windowRow_bounds (copy : list Z) (width height : Z) (lo hi : Z)
    (x y dy : Z) (l : list Z) (acc : Z * Z) :
  bytes copy → landMagnitudesIn lo hi copy →
  0 ≤ acc.2 ∧ lo * acc.2 ≤ acc.1 ≤ hi * acc.2 →
  let r := fold_left (windowCell copy width height x y dy) l acc in
  acc.2 ≤ r.2 ∧ lo * r.2 ≤ r.1 ≤ hi * r.2.
Proof.
  intros Hb Hm. revert acc. induction l as [| dx l IH]; intros acc HJ; cbn [fold_left];
    [cbv zeta; lia |].
  destruct (windowCell_bounds copy width height lo hi x y dx dy acc Hb Hm HJ) as [Hc _].
  cbv zeta in Hc.
  specialize (IH (windowCell copy width height x y dy acc dx)). cbv zeta in IH |- *.
  set (a' := windowCell copy width height x y dy acc dx) in *.
  set (r := fold_left (windowCell copy width height x y dy) l a') in *.
  lia.
Qed.

Lemma windowRows_bounds (copy : list Z) (width height : Z) (lo hi : Z)
    (x y : Z) (L l : list Z) (acc : Z * Z) :
  bytes copy → landMagnitudesIn lo hi copy →
  0 ≤ acc.2 ∧ lo * acc.2 ≤ acc.1 ≤ hi * acc.2 →
  let r := fold_left (λ acc dy, fold_left (windowCell copy width height x y dy) L acc)
                     l acc in
  acc.2 ≤ r.2 ∧ lo * r.2 ≤ r.1 ≤ hi * r.2.
Proof.
  intros Hb Hm. revert acc. induction l as [| dy l IH]; intros acc HJ; cbn [fold_left];
    [cbv zeta; lia |].
  pose proof (windowRow_bounds copy width height lo hi x y dy L acc Hb Hm HJ) as H1.
  cbv zeta in H1.
  specialize (IH (fold_left (windowCell copy width height x y dy) L acc)).
  cbv zeta in IH |- *.
  set (a' := fold_left (windowCell copy width height x y dy) L acc) in *.
  set (r := fold_left _ l a') in *.
  lia.
Qed.

Lemma window_centre (copy : list Z) (width height : Z) (lo hi : Z) (x y : Z)
    (L Lo : list Z) :
  bytes copy → landMagnitudesIn lo hi copy →
  0 ∈ L → 0 ∈ Lo →
  inBounds width height x y = true →
  hasBit (JS.rd copy (index width x y)) IS_LAND_BIT = true →
  let w := fold_left (λ acc dy, fold_left (windowCell copy width height x y dy) L acc)
                     Lo (0, 0) in
  1 ≤ w.2 ∧ lo * w.2 ≤ w.1 ≤ hi * w.2.
Proof.
  intros Hb Hm H0 H0o Hin Hland.
  destruct (list_elem_of_split _ _ H0) as (l1 & l2 & HL).
  destruct (list_elem_of_split _ _ H0o) as (o1 & o2 & HLo).
  assert (outside width height x y = false) as Hout
    by (unfold inBounds, outside in *; lia).
  (* the row of the centre *)
  assert (∀ acc, (0 ≤ acc.2 ∧ lo * acc.2 ≤ acc.1 ≤ hi * acc.2) →
            let r := fold_left (windowCell copy width height x y 0) L acc in
            acc.2 + 1 ≤ r.2 ∧ lo * r.2 ≤ r.1 ≤ hi * r.2) as Hcentre.
  { intros acc HJ. cbv zeta. rewrite HL, fold_left_app. cbn [fold_left].
    pose proof (windowRow_bounds copy width height lo hi x y 0 l1 acc Hb Hm HJ) as H1.
    cbv zeta in H1.
    set (a1 := fold_left (windowCell copy width height x y 0) l1 acc) in *.
    destruct (windowCell_bounds copy width height lo hi x y 0 0 a1 Hb Hm)
      as [Hc Hinc]; [lia |]. cbv zeta in Hc, Hinc.
    rewrite !Z.add_0_r in Hinc. specialize (Hinc Hout Hland).
    set (a2 := windowCell copy width height x y 0 a1 0) in *.
    pose proof (windowRow_bounds copy width height lo hi x y 0 l2 a2 Hb Hm) as H2.
    cbv zeta in H2.
    set (r := fold_left (windowCell copy width height x y 0) l2 a2) in *.
    lia. }
  cbv zeta. subst Lo. rewrite fold_left_app. cbn [fold_left].
  pose proof (windowRows_bounds copy width height lo hi x y L o1 (0, 0) Hb Hm) as H1.
  cbv zeta in H1. cbn [fst snd] in H1.
  set (a1 := fold_left (λ acc dy, fold_left (windowCell copy width height x y dy) L acc)
                       o1 (0, 0)) in *.
  pose proof (Hcentre a1) as H2. cbv zeta in H2.
  set (a2 := fold_left (windowCell copy width height x y 0) L a1) in *.
  pose proof (windowRows_bounds copy width height lo hi x y L o2 a2 Hb Hm) as H3.
  cbv zeta in H3.
  set (r := fold_left (λ acc dy, fold_left (windowCell copy width height x y dy) L acc)
                      o2 a2) in *.
  lia.
Qed.

(** Around a land cell the window holds at least that cell, and its sum
    lies between [lo] and [hi] times its count. *)
Lemma windowSum_bounds (copy : list Z) (width height radius : Z) (lo hi : Z) (x y : Z) :
  bytes copy → landMagnitudesIn lo hi copy →
  0 < radius →
  inBounds width height x y = true →
  hasBit (JS.rd copy (index width x y)) IS_LAND_BIT = true →
  let w := windowSum copy width height radius x y in
  1 ≤ w.2 ∧ lo * w.2 ≤ w.1 ≤ hi * w.2.
Proof.
  intros Hb Hm Hr Hin Hland. rewrite windowSum_cells.
  apply window_centre; try done; apply elem_of_seqZ; lia.
Qed.

End MagnitudePasses.

Section MagnitudePassTheorems.

Import Terrain Cell.

Lemma windowAverage_mask (w : Z * Z) :
  0 ≤ windowAverage w < 32 ∧ JS.and (windowAverage w) MAG_MASK = windowAverage w.
Proof.
  assert (0 ≤ windowAverage w < 32) as H by (unfold windowAverage; lia).
  split; [done | by apply and_mask_small].
Qed.

Lemma smoothAt_rewritten (P : Z → Z → Prop) (copy out : list Z)
    (width height radius : Z) (x y : Z) :
  bytes copy →
  (∀ c0, JS.rd copy (index width x y) = Some c0 → isLand c0 = true → radius ≠ 0 →
         P c0 (windowAverage (windowSum copy width height radius x y))) →
  Forall2 (rewritten P) copy out →
  Forall2 (rewritten P) copy (smoothAt copy width height radius out (x, y)).
Proof.
  intros Hb HP H. unfold smoothAt.
  destruct (JS.and _ _ =? 0) eqn:Ht; [done |].
  destruct (Z.eqb_spec radius 0) as [| Hr]; [done |].
  destruct (land_test_isLand copy _ Hb Ht) as (c0 & Hc0 & Hland).
  specialize (HP c0 Hc0 Hland Hr).
  destruct (windowSum copy width height radius x y) as [sum count] eqn:Hw.
  change (Z.min 31 (Z.max 0 (sum / Z.max 1 count))) with (windowAverage (sum, count)).
  apply rewritten_store; [done | done |].
  intros c0' Hc0'. rewrite Hc0 in Hc0'. injection Hc0' as <-. split; [done |].
  by rewrite (proj2 (windowAverage_mask (sum, count))).
Qed.

Lemma smoothMagnitude_rewritten (P : Z → Z → Prop) (out : list Z)
    (width height smoothingRadius : Z) :
  bytes out →
  (∀ x y c0 radius, inBounds width height x y = true →
         JS.rd out (index width x y) = Some c0 → isLand c0 = true → 0 < radius →
         P c0 (windowAverage (windowSum out width height radius x y))) →
  Forall2 (rewritten P) out (smoothMagnitude out width height smoothingRadius).
Proof.
  intros Hb HP. unfold smoothMagnitude.
  apply fold_left_preserves_in; [| apply rewritten_refl].
  intros s [x y] Hxy Hs. apply elem_of_coords in Hxy.
  apply smoothAt_rewritten; [done | | done].
  intros c0 Hc0 Hland Hr. apply HP; [done | done | done | lia].
Qed.

Lemma accentAt_rewritten (copy out : list Z) (width height : Z) (x y : Z) :
  bytes copy →
  Forall2 (rewritten (λ c0 k, k = Z.min 31 (magnitude c0 + 2))) copy out →
  Forall2 (rewritten (λ c0 k, k = Z.min 31 (magnitude c0 + 2))) copy
          (accentAt copy width height out (x, y)).
Proof.
  intros Hb H. unfold accentAt.
  destruct (JS.and _ _ =? 0) eqn:Ht; [done |].
  destruct (land_test_isLand copy _ Hb Ht) as (c0 & Hc0 & Hland).
  destruct (windowSum copy width height 1 x y) as [sum count].
  match goal with |- context [if ?b then JS.wr _ _ _ else _] => destruct b end; [| done].
  apply rewritten_store; [done | done |].
  intros c0' Hc0'. rewrite Hc0 in Hc0'. injection Hc0' as <-. split; [done |].
  rewrite Hc0. change (JS.num (Some c0)) with c0.
  pose proof (bytes_rd _ _ _ Hb Hc0) as Hbyte.
  destruct (hasBit_testbit c0 Hbyte) as (_ & _ & _ & ->).
  pose proof (magnitude_range c0). apply and_mask_small. lia.
Qed.

Lemma boosted_byte (c : Z) :
  0 ≤ c < 256 → boosted c = flagBits c + Z.min 31 (magnitude c + 2).
Proof.
  intros Hc. unfold boosted. rewrite withMagnitude_byte by done.
  pose proof (magnitude_range c). rewrite and_mask_small by lia. done.
Qed.

(** The two magnitude passes rewrite magnitudes of land cells only. *)
Lemma magnitude_passes_rewritten
    (out : list Z) (width height smoothingRadius : Z) (enableAccent : bool) :
  bytes out →
  bytes (smoothMagnitude out width height smoothingRadius)
  ∧ Forall2 (rewritten (λ _ _, True)) out (smoothMagnitude out width height smoothingRadius)
  ∧ Forall2 (rewritten (λ c0 k, k = Z.min 31 (magnitude c0 + 2)))
      (smoothMagnitude out width height smoothingRadius)
      (ridgeAccentPass (smoothMagnitude out width height smoothingRadius)
                       width height enableAccent).
Proof.
  intros Hb.
  pose proof (smoothMagnitude_rewritten (λ _ _, True) out width height smoothingRadius Hb
                ltac:(done)) as H1.
  set (mid := smoothMagnitude out width height smoothingRadius) in *.
  assert (bytes mid) as Hbm.
  { apply Forall_lookup_2. intros i c' Hc'.
    apply Forall2_same_length_lookup in H1 as [Hl H1].
    destruct (lookup_lt_is_Some_2 out i) as [c Hc].
    { rewrite Hl. by eapply lookup_lt_Some. }
    by destruct (rewritten_byte _ c c' (bytes_lookup _ _ _ Hb Hc) (H1 i c c' Hc Hc')). }
  split; [done |]. split; [done |].
  unfold ridgeAccentPass. destruct enableAccent; [| apply rewritten_refl].
  apply fold_left_preserves; [| apply rewritten_refl].
  intros s [x y] Hs. by apply accentAt_rewritten.
Qed.

(** X1: smoothing followed by the ridge accent keeps the length of a byte
    buffer, leaves every cell a byte, never changes one of the three flag
    bits, and never changes a water cell. *)
Theorem magnitude_passes_keep_flags
    (out : list Z) (width height smoothingRadius : Z) (enableAccent : bool) :
  bytes out →
  Forall2 (λ c c', 0 ≤ c' < 256 ∧ isLand c' = isLand c
                   ∧ isShoreline c' = isShoreline c ∧ isOcean c' = isOcean c
                   ∧ (isLand c = false → c' = c))
    out
    (ridgeAccentPass (smoothMagnitude out width height smoothingRadius)
                     width height enableAccent).
Proof.
  intros Hb.
  destruct (magnitude_passes_rewritten out width height smoothingRadius enableAccent Hb)
    as (Hbm & H1 & H2).
  set (mid := smoothMagnitude out width height smoothingRadius) in *.
  apply Forall2_same_length_lookup.
  apply Forall2_same_length_lookup in H1 as [Hl1 H1].
  apply Forall2_same_length_lookup in H2 as [Hl2 H2].
  split; [congruence |]. intros i c c'' Hc Hc''.
  destruct (lookup_lt_is_Some_2 mid i) as [c' Hc'].
  { rewrite <- Hl1. by eapply lookup_lt_Some. }
  destruct (rewritten_byte _ c c' (bytes_lookup _ _ _ Hb Hc) (H1 i c c' Hc Hc'))
    as (Hb1 & _ & Hl & Hs & Ho & Hw).
  destruct (rewritten_byte _ c' c'' Hb1 (H2 i c' c'' Hc' Hc''))
    as (Hb2 & _ & Hl' & Hs' & Ho' & Hw').
  split; [done |]. split; [congruence |]. split; [congruence |]. split; [congruence |].
  intros Hwater. rewrite Hw' by congruence. by apply Hw.
Qed.

(** X2: the ridge accent leaves a cell as it is or, if it is land, raises
    its magnitude by 2, capped at 31; it never lowers a magnitude. *)
Theorem ridgeAccentPass_only_boosts
    (out : list Z) (width height : Z) (enableAccent : bool) :
  bytes out →
  Forall2 (λ c c', (c' = c ∨ (isLand c = true ∧ c' = boosted c))
                   ∧ magnitude c ≤ magnitude c' ≤ Z.min 31 (magnitude c + 2))
    out (ridgeAccentPass out width height enableAccent).
Proof.
  intros Hb.
  assert (Forall2 (rewritten (λ c0 k, k = Z.min 31 (magnitude c0 + 2))) out
            (ridgeAccentPass out width height enableAccent)) as H.
  { unfold ridgeAccentPass. destruct enableAccent; [| apply rewritten_refl].
    apply fold_left_preserves; [| apply rewritten_refl].
    intros s [x y] Hs. by apply accentAt_rewritten. }
  apply Forall2_same_length_lookup. apply Forall2_same_length_lookup in H as [Hl H].
  split; [done |]. intros i c c' Hc Hc'.
  pose proof (bytes_lookup _ _ _ Hb Hc) as Hbyte.
  pose proof (magnitude_range c) as Hm.
  destruct (H i c c' Hc Hc') as [-> | (Hland & k & Hk & -> & ->)].
  - split; [by left | lia].
  - split; [right; split; [done | by rewrite boosted_byte] |].
    destruct (flagBits_plus c (Z.min 31 (magnitude c + 2)) Hbyte Hk) as (_ & _ & -> & _).
    lia.
Qed.

(** X3: smoothing creates no new extreme: if every land magnitude of the
    buffer lies between [lo] and [hi], so does every land magnitude after
    the pass. *)
Theorem smoothMagnitude_within_range
    (out : list Z) (width height smoothingRadius : Z) (lo hi : Z) :
  bytes out → landMagnitudesIn lo hi out →
  landMagnitudesIn lo hi (smoothMagnitude out width height smoothingRadius).
Proof.
  intros Hb Hm.
  assert (Forall2 (rewritten (λ _ k, lo ≤ k ≤ hi)) out
            (smoothMagnitude out width height smoothingRadius)) as H.
  { apply smoothMagnitude_rewritten; [done |].
    intros x y c0 radius Hin Hc0 Hland Hr.
    pose proof (bytes_rd _ _ _ Hb Hc0) as Hbyte.
    assert (hasBit (JS.rd out (index width x y)) IS_LAND_BIT = true) as Hbit.
    { rewrite Hc0. by destruct (hasBit_testbit c0 Hbyte) as (-> & _). }
    pose proof (windowSum_bounds out width height radius lo hi x y Hb Hm Hr Hin Hbit) as Hw.
    cbv zeta in Hw.
    assert (lo ≤ magnitude c0 ≤ hi) as Hmc.
    { unfold JS.rd in Hc0. destruct (_ <? 0); [done |].
      exact (Forall_lookup_1 _ _ _ _ Hm Hc0 Hland). }
    pose proof (magnitude_range c0) as Hr0.
    revert Hw. destruct (windowSum out width height radius x y) as [sum count].
    intros Hw. unfold windowAverage. cbn [fst snd] in *.
    rewrite (Z.max_r 1 count) by lia.
    assert (lo ≤ sum / count ≤ hi) as Hq.
    { split.
      - apply Z.div_le_lower_bound; lia.
      - apply Z.div_le_upper_bound; lia. }
    lia. }
  apply Forall_lookup_2. intros i c' Hc' Hland'.
  apply Forall2_same_length_lookup in H as [Hl H].
  destruct (lookup_lt_is_Some_2 out i) as [c Hc].
  { rewrite Hl. by eapply lookup_lt_Some. }
  pose proof (bytes_lookup _ _ _ Hb Hc) as Hbyte.
  destruct (H i c c' Hc Hc') as [-> | (Hland & k & Hk & Hlk & ->)].
  - exact (Forall_lookup_1 _ _ _ _ Hm Hc Hland').
  - by destruct (flagBits_plus c k Hbyte Hk) as (_ & _ & -> & _).
Qed.

End MagnitudePassTheorems.

(** ** The shoreline pass, on any buffer of bytes *)

Section Shoreline.

Import Terrain Cell.

Lemma index_inj (width height : Z) (x y x' y' : Z) :
  inBounds width height x y = true → inBounds width height x' y' = true →
  index width x y = index width x' y' → x = x' ∧ y = y'.
Proof.
  unfold inBounds, index. intros H H' Heq.
  assert (0 ≤ x < width ∧ 0 ≤ x' < width) as [Hx Hx'] by lia.
  clear H H'.
  assert (y = y') as ->; [| lia].
  destruct (Z.lt_trichotomy y y') as [Hlt | [-> | Hlt]]; [| done |].
  - assert ((y + 1) * width ≤ y' * width) by (apply Z.mul_le_mono_nonneg_r; lia). lia.
  - assert ((y' + 1) * width ≤ y * width) by (apply Z.mul_le_mono_nonneg_r; lia). lia.
Qed.

Lemma rd_wr_eq (a : list Z) (i v x : Z) :
  JS.rd a i = Some x → JS.rd (JS.wr a i v) i = Some (v mod 256).
Proof.
  unfold JS.rd, JS.wr. destruct (i <? 0); [done |].
  intros Hx%lookup_lt_Some. by apply list_lookup_insert_eq.
Qed.

Lemma rd_wr_ne (a : list Z) (i j v : Z) :
  i ≠ j → JS.rd (JS.wr a i v) j = JS.rd a j.
Proof.
  intros Hne. unfold JS.rd, JS.wr.
  destruct (Z.ltb_spec i 0); [done |]. destruct (Z.ltb_spec j 0); [done |].
  apply list_lookup_insert_ne. lia.
Qed.

(** Setting the SHORELINE flag of a byte. *)
Lemma shoreline_store (c : Z) :
  0 ≤ c < 256 →
  JS.or c (JS.shl 1 SHORELINE_BIT) mod 256 = Z.lor c 64
  ∧ 0 ≤ Z.lor c 64 < 256
  ∧ Z.lor (Z.lor c 64) 64 = Z.lor c 64
  ∧ hasBit (Some (Z.lor c 64)) IS_LAND_BIT = hasBit (Some c) IS_LAND_BIT
  ∧ hasBit (Some (Z.lor c 64)) OCEAN_BIT = hasBit (Some c) OCEAN_BIT.
Proof.
  intros Hc.
  assert (forallb (λ c,
      (JS.or c (JS.shl 1 SHORELINE_BIT) mod 256 =? Z.lor c 64)
      && (0 <=? Z.lor c 64) && (Z.lor c 64 <? 256)
      && (Z.lor (Z.lor c 64) 64 =? Z.lor c 64)
      && Bool.eqb (hasBit (Some (Z.lor c 64)) IS_LAND_BIT) (hasBit (Some c) IS_LAND_BIT)
      && Bool.eqb (hasBit (Some (Z.lor c 64)) OCEAN_BIT) (hasBit (Some c) OCEAN_BIT))
    (seqZ 0 256) = true) as Hall by (vm_compute; reflexivity).
  pose proof (range_cases _ _ Hall c Hc) as H. cbv beta in H.
  apply andb_true_iff in H as [H H6]. apply andb_true_iff in H as [H H5].
  apply andb_true_iff in H as [H H4]. apply andb_true_iff in H as [H H3].
  apply andb_true_iff in H as [H1 H2]. apply eqb_prop in H5, H6.
  split; [lia |]. split; [lia |]. split; [lia |]. split; [exact H5 | exact H6].
Qed.

Lemma shorelineOf_bits (buf0 : list Z) (width height : Z) (c : Z * Z) (c0 : Z) :
  0 ≤ c0 < 256 →
  0 ≤ shorelineOf buf0 width height c c0 < 256
  ∧ hasBit (Some (shorelineOf buf0 width height c c0)) IS_LAND_BIT
    = hasBit (Some c0) IS_LAND_BIT
  ∧ hasBit (Some (shorelineOf buf0 width height c c0)) OCEAN_BIT
    = hasBit (Some c0) OCEAN_BIT.
Proof.
  intros Hc. unfold shorelineOf.
  destruct (shoreline_store c0 Hc) as (_ & H2 & _ & H4 & H5).
  destruct (isLand c0 && oceanNeighbour buf0 width height c); done.
Qed.

(** During the pass the IS_LAND and OCEAN flags read as in the buffer the
    pass started from. *)
Lemma shorelineInv_bits (buf0 : list Z) (width height : Z) (done : list (Z * Z))
    (out : list Z) (x y : Z) :
  bytes buf0 → shorelineInv buf0 width height done out →
  inBounds width height x y = true →
  hasBit (JS.rd out (index width x y)) IS_LAND_BIT
    = hasBit (JS.rd buf0 (index width x y)) IS_LAND_BIT
  ∧ hasBit (JS.rd out (index width x y)) OCEAN_BIT
    = hasBit (JS.rd buf0 (index width x y)) OCEAN_BIT.
Proof.
  intros Hb [Hlen Hinv] Hin.
  destruct (JS.rd buf0 (index width x y)) as [c0 |] eqn:E0.
  - destruct (Hinv x y c0 Hin E0) as (c & -> & [-> | ->] & _); [done |].
    destruct (shorelineOf_bits buf0 width height (x, y) c0 (bytes_rd _ _ _ Hb E0))
      as (_ & H1 & H2). done.
  - rewrite rd_None; [done |]. rewrite Hlen. intros Hr.
    destruct (rd_in_range buf0 _ Hr) as [? ?]. congruence.
Qed.

(** The four tests of the pass, for a cell inside the grid. *)
Lemma adjacent_tests (out : list Z) (width height : Z) (x y : Z) :
  inBounds width height x y = true →
  ((0 <? x) && hasBit (JS.rd out (index width (x - 1) y)) OCEAN_BIT)
  || ((x + 1 <? width) && hasBit (JS.rd out (index width (x + 1) y)) OCEAN_BIT)
  || ((0 <? y) && hasBit (JS.rd out (index width x (y - 1))) OCEAN_BIT)
  || ((y + 1 <? height) && hasBit (JS.rd out (index width x (y + 1))) OCEAN_BIT)
  = oceanNeighbour out width height (x, y).
Proof.
  intros Hin. unfold oceanNeighbour, dirs, Grid.neighbour. cbn [existsb fst snd].
  rewrite !Z.add_0_r, orb_false_r.
  change (x + -1) with (x - 1). change (y + -1) with (y - 1).
  assert (inBounds width height (x + 1) y = (x + 1 <? width)) as ->
    by (unfold inBounds in *; lia).
  assert (inBounds width height (x - 1) y = (0 <? x)) as ->
    by (unfold inBounds in *; lia).
  assert (inBounds width height x (y + 1) = (y + 1 <? height)) as ->
    by (unfold inBounds in *; lia).
  assert (inBounds width height x (y - 1) = (0 <? y)) as ->
    by (unfold inBounds in *; lia).
  destruct ((0 <? x) && _), ((x + 1 <? width) && _), ((0 <? y) && _),
    ((y + 1 <? height) && _); reflexivity.
Qed.

Lemma shorelineAt_test (out : list Z) (width height : Z) (x y : Z) :
  inBounds width height x y = true →
  shorelineAt width height out (x, y)
  = if hasBit (JS.rd out (index width x y)) IS_LAND_BIT
       && oceanNeighbour out width height (x, y)
    then JS.wr out (index width x y)
           (JS.or (JS.num (JS.rd out (index width x y))) (JS.shl 1 SHORELINE_BIT))
    else out.
Proof.
  intros Hin. rewrite <- (adjacent_tests out width height x y Hin).
  unfold shorelineAt.
  destruct (hasBit (JS.rd out (index width x y)) IS_LAND_BIT); [| done].
  cbn [negb andb].
  destruct ((0 <? x) && _), ((x + 1 <? width) && _), ((0 <? y) && _),
    ((y + 1 <? height) && _); reflexivity.
Qed.

Lemma oceanNeighbour_ext (out buf0 : list Z) (width height : Z) (c : Z * Z) :
  (∀ x y, inBounds width height x y = true →
          hasBit (JS.rd out (index width x y)) OCEAN_BIT
          = hasBit (JS.rd buf0 (index width x y)) OCEAN_BIT) →
  oceanNeighbour out width height c = oceanNeighbour buf0 width height c.
Proof.
  intros Hext. unfold oceanNeighbour.
  induction dirs as [| d l IH]; [done |]. cbn [existsb]. rewrite IH. f_equal.
  destruct (inBounds width height (Grid.neighbour c d).1 (Grid.neighbour c d).2) eqn:Hin;
    [| done].
  cbn [andb]. by apply Hext.
Qed.

Lemma shorelineAt_inv (buf0 : list Z) (width height : Z) (done : list (Z * Z))
    (out : list Z) (x y : Z) :
  bytes buf0 → inBounds width height x y = true →
  shorelineInv buf0 width height done out →
  shorelineInv buf0 width height (done ++ [(x, y)]) (shorelineAt width height out (x, y)).
Proof.
  intros Hb Hin Hinv. rewrite shorelineAt_test by done.
  destruct (shorelineInv_bits buf0 width height done out x y Hb Hinv Hin) as [Hl _].
  rewrite Hl.
  rewrite (oceanNeighbour_ext out buf0)
    by (intros x' y' Hin'; by destruct (shorelineInv_bits buf0 width height done out x' y'
                                          Hb Hinv Hin')).
  destruct Hinv as [Hlen Hinv].
  destruct (JS.rd buf0 (index width x y)) as [c0 |] eqn:E0.
  - (* the cell exists *)
    pose proof (bytes_rd _ _ _ Hb E0) as Hbyte.
    destruct (hasBit_testbit c0 Hbyte) as (HL & _).
    destruct (shoreline_store c0 Hbyte) as (Hst & _ & Hidem & _).
    destruct (Hinv x y c0 Hin E0) as (c & Hc & Hcases & Hdone).
    assert (shorelineOf buf0 width height (x, y) c0
            = if hasBit (Some c0) IS_LAND_BIT && oceanNeighbour buf0 width height (x, y)
              then Z.lor c0 64 else c0) as HF by (unfold shorelineOf; by rewrite HL).
    destruct (hasBit (Some c0) IS_LAND_BIT && oceanNeighbour buf0 width height (x, y))
      eqn:Htest.
    + (* the flag is stored *)
      split; [by rewrite length_wr |].
      intros x' y' c0' Hin' E0'.
      destruct (decide (index width x' y' = index width x y)) as [Heq | Hne].
      * destruct (index_inj width height x' y' x y Hin' Hin Heq) as [-> ->].
        rewrite E0 in E0'. injection E0' as <-.
        rewrite (rd_wr_eq _ _ _ c Hc), Hc. change (JS.num (Some c)) with c.
        assert (JS.or c (JS.shl 1 SHORELINE_BIT) mod 256 = Z.lor c0 64) as ->.
        { destruct Hcases as [-> | ->]; [done |]. rewrite HF.
          destruct (shoreline_store (Z.lor c0 64)) as (-> & _); [| done].
          by destruct (shoreline_store c0 Hbyte) as (_ & ? & _). }
        eexists. split; [done |]. rewrite HF. split; [by right | done].
      * rewrite rd_wr_ne by done.
        destruct (Hinv x' y' c0' Hin' E0') as (c' & Hc' & Hcases' & Hdone').
        exists c'. split; [done |]. split; [done |].
        intros [Hd | Hd%list_elem_of_singleton]%elem_of_app; [by apply Hdone' |].
        simplify_eq.
    + (* nothing is stored *)
      split; [done |]. intros x' y' c0' Hin' E0'.
      destruct (Hinv x' y' c0' Hin' E0') as (c' & Hc' & Hcases' & Hdone').
      exists c'. split; [done |]. split; [done |].
      intros [Hd | Hd%list_elem_of_singleton]%elem_of_app; [by apply Hdone' |].
      simplify_eq. rewrite HF in *. by destruct Hcases'.
  - (* the buffer is too short to hold the cell *)
    cbn [hasBit JS.num default]. change (hasBit None IS_LAND_BIT) with false.
    cbn [andb]. split; [done |]. intros x' y' c0' Hin' E0'.
    destruct (Hinv x' y' c0' Hin' E0') as (c' & Hc' & Hcases' & Hdone').
    exists c'. split; [done |]. split; [done |].
    intros [Hd | Hd%list_elem_of_singleton]%elem_of_app; [by apply Hdone' |].
    simplify_eq.
Qed.

Lemma markShoreline_inv (buf0 : list Z) (width height : Z) (l done : list (Z * Z))
    (out : list Z) :
  bytes buf0 →
  Forall (λ c, inBounds width height c.1 c.2 = true) l →
  shorelineInv buf0 width height done out →
  shorelineInv buf0 width height (done ++ l) (fold_left (shorelineAt width height) l out).
Proof.
  intros Hb Hl. revert done out.
  induction Hl as [| [x y] l Hxy _ IH]; intros done out Hinv; cbn [fold_left].
  - by rewrite app_nil_r.
  - replace (done ++ (x, y) :: l) with ((done ++ [(x, y)]) ++ l)
      by (by rewrite <- app_assoc).
    apply IH. by apply shorelineAt_inv.
Qed.

(** What the pass leaves in one cell. *)
Lemma markShoreline_at (out : list Z) (width height : Z) (x y c : Z) :
  bytes out →
  inBounds width height x y = true →
  JS.rd out (index width x y) = Some c →
  JS.rd (markShoreline out width height) (index width x y)
  = Some (shorelineOf out width height (x, y) c).
Proof.
  intros Hb Hin Hc.
  assert (shorelineInv out width height ([] ++ coords width height)
            (markShoreline out width height)) as [_ Hinv].
  { apply markShoreline_inv; [done | |].
    - apply Forall_forall. intros [x' y'] Hc'. by apply elem_of_coords.
    - split; [done |]. intros x' y' c0 _ Hc0. exists c0.
      split; [done |]. split; [by left |]. by intros ?%elem_of_nil. }
  destruct (Hinv x y c Hin Hc) as (c' & -> & _ & Hdone).
  rewrite Hdone; [done |]. by apply elem_of_coords.
Qed.

Lemma length_markShoreline (out : list Z) (width height : Z) :
  length (markShoreline out width height) = length out.
Proof.
  unfold markShoreline. apply (fold_left_preserves (λ s, length s = length out)); [| done].
  intros s [x y] Hs. unfold shorelineAt. destruct (negb _); [done |].
  match goal with |- context [if ?b then JS.wr _ _ _ else _] => destruct b end;
    [by rewrite length_wr | done].
Qed.

(** X4: the shoreline pass keeps the length of the buffer, and after it a
    cell inside the grid holds what it held before, with the SHORELINE flag
    added exactly when it is land and a neighbour inside the grid carried
    the OCEAN flag. *)
Theorem markShoreline_cells (out : list Z) (width height : Z) (x y c : Z) :
  bytes out →
  inBounds width height x y = true →
  JS.rd out (index width x y) = Some c →
  length (markShoreline out width height) = length out
  ∧ JS.rd (markShoreline out width height) (index width x y)
    = Some (if isLand c && oceanNeighbour out width height (x, y) then Z.lor c 64 else c).
Proof.
  intros Hb Hin Hc. split; [apply length_markShoreline |].
  by rewrite (markShoreline_at out width height x y c).
Qed.

End Shoreline.

(** ** The shoreline of a generated buffer *)

Section GeneratedShoreline.

Import Num Terrain Cell Loader.

Variable M : MathLib.

Lemma terrainByte_encoded noise octs ampSum gamma landThreshold x y :
  encoded (terrainByte M noise octs ampSum gamma landThreshold x y) = true.
Proof.
  unfold terrainByte. cbv zeta.
  match goal with |- context [(landThreshold <? ?e)%float] => generalize e end.
  intros v. destruct (landThreshold <? v)%float.
  - match goal with |- context [truncZ ?e] => generalize (truncZ e) end.
    intros m. pose proof (and_mask_range m) as Hk.
    change 0x1f with MAG_MASK. set (k := JS.and m MAG_MASK) in *. clearbody k.
    assert (forallb (λ k, encoded (JS.and (JS.or (JS.or (JS.shl 1 7) 0) k) 0xff))
              (seqZ 0 32) = true) as Hall by (vm_compute; reflexivity).
    apply (range_cases _ _ Hall k Hk).
  - vm_compute. reflexivity.
Qed.

Lemma encodeField_encoded this store width height seed landThreshold :
  Forall (λ c, encoded c = true)
         (encodeField M this store width height seed landThreshold).
Proof.
  unfold encodeField. destruct (buildOctaves M store) as [octs ampSum].
  apply Forall_fmap, Forall_forall. intros [x y] _. apply terrainByte_encoded.
Qed.

(** On an encoded byte the OCEAN flag is the negation of IS_LAND, and
    setting SHORELINE is the only way to have it. *)
Lemma encoded_flags (c : Z) :
  encoded c = true →
  0 ≤ c < 256
  ∧ hasBit (Some c) OCEAN_BIT = negb (hasBit (Some c) IS_LAND_BIT)
  ∧ isShoreline c = false
  ∧ isShoreline (Z.lor c 64) = true.
Proof.
  intros He. assert (0 ≤ c < 256) as Hc by (unfold encoded in He; lia).
  assert (forallb (λ c, implb (encoded c)
      (Bool.eqb (hasBit (Some c) OCEAN_BIT) (negb (hasBit (Some c) IS_LAND_BIT))
       && negb (isShoreline c) && isShoreline (Z.lor c 64)))
    (seqZ 0 256) = true) as Hall by (vm_compute; reflexivity).
  pose proof (range_cases _ _ Hall c Hc) as H. cbv beta in H.
  rewrite He in H. cbn [implb] in H.
  apply andb_true_iff in H as [H H3]. apply andb_true_iff in H as [H1 H2].
  apply eqb_prop in H1. apply negb_true_iff in H2. done.
Qed.

Lemma rd_in_grid (buf : list Z) (width height : nat) (x y : Z) :
  length buf = (width * height)%nat →
  inBounds (Z.of_nat width) (Z.of_nat height) x y = true →
  is_Some (JS.rd buf (index (Z.of_nat width) x y)).
Proof.
  intros Hlen Hin. pose proof (index_in_range _ _ _ _ Hin) as Hr.
  destruct (JS.rd buf (index (Z.of_nat width) x y)) eqn:E; [done |].
  exfalso. revert E. unfold JS.rd.
  destruct (Z.ltb_spec (index (Z.of_nat width) x y) 0); [lia |].
  intros E%lookup_ge_None. lia.
Qed.

(** X5: in every generated buffer the SHORELINE flag of a cell tells
    exactly that the cell is land and has a water cell among its
    neighbours inside the grid. *)
Theorem generated_shoreline_is_water_adjacency
    (this : GeneratedMapLoader) (store : GeneratedParams)
    (width height : nat) (seed : Z) (landThreshold : float) :
  ∃ buf, generateTerrainBin M this store width height seed landThreshold = Some buf
    ∧ ∀ x y c,
        inBounds (Z.of_nat width) (Z.of_nat height) x y = true →
        JS.rd buf (index (Z.of_nat width) x y) = Some c →
        isShoreline c
        = isLand c && waterNeighbour buf (Z.of_nat width) (Z.of_nat height) (x, y).
Proof.
  set (W := Z.of_nat width). set (H := Z.of_nat height).
  set (raw := encodeField M this store W H seed landThreshold).
  pose proof (encodeField_encoded this store W H seed landThreshold) as Henc.
  pose proof (encodeField_wf M this store W H seed landThreshold) as Hwf.
  assert (length raw = (width * height)%nat) as Hlen.
  { unfold raw. rewrite length_encodeField. unfold W, H. by rewrite !Nat2Z.id. }
  fold raw in Henc, Hwf.
  assert (bytes raw) as Hb.
  { eapply Forall_impl; [exact Hwf |]. intros c. apply wellFormed_byte. }
  unfold generateTerrainBin. fold W H raw. unfold postProcess.
  rewrite removeSmallRegions_encoded by done. cbn [mbind option_bind].
  rewrite floodOceans_encoded by done. cbn [mbind option_bind].
  eexists. split; [reflexivity |].
  set (sh := markShoreline raw W H).
  set (buf := ridgeAccentPass (smoothMagnitude sh W H _) W H _).
  assert (Forall2 keeps raw sh) as Hksh by (by apply markShoreline_keeps, Forall2_keeps_refl).
  assert (bytes sh) as Hbsh.
  { eapply Forall_impl; [exact (Forall2_keeps_wf _ _ Hksh) |]. intros c. apply wellFormed_byte. }
  assert (Forall2 (λ c c', 0 ≤ c' < 256 ∧ isLand c' = isLand c
                           ∧ isShoreline c' = isShoreline c) sh buf) as Hflags.
  { destruct (magnitude_passes_rewritten sh W H
                (smoothingRadius (default store (params this)))
                (ridgeAccent (default store (params this))) Hbsh) as (Hbm & H1 & H2).
    apply Forall2_same_length_lookup.
    apply Forall2_same_length_lookup in H1 as [Hl1 H1].
    apply Forall2_same_length_lookup in H2 as [Hl2 H2].
    split; [unfold buf; congruence |]. intros i c c'' Hc Hc''.
    destruct (lookup_lt_is_Some_2
                (smoothMagnitude sh W H (smoothingRadius (default store (params this)))) i)
      as [c' Hc'].
    { rewrite <- Hl1. by eapply lookup_lt_Some. }
    destruct (rewritten_byte _ c c' (bytes_lookup _ _ _ Hbsh Hc) (H1 i c c' Hc Hc'))
      as (Hb1 & _ & Hl & Hs & _).
    destruct (rewritten_byte _ c' c'' Hb1 (H2 i c' c'' Hc' Hc''))
      as (Hb2 & _ & Hl' & Hs' & _).
    split; [done |]. split; congruence. }
  assert (length sh = length raw) as Hlsh by (symmetry; by eapply Forall2_length).
  assert (length buf = length raw) as Hlbuf
    by (rewrite <- Hlsh; symmetry; by eapply Forall2_length).
  (* what a cell of the result holds, from the cell of the raw field *)
  assert (∀ x y c, inBounds W H x y = true → JS.rd buf (index W x y) = Some c →
            ∃ c0, JS.rd raw (index W x y) = Some c0 ∧ encoded c0 = true
                  ∧ isLand c = isLand c0
                  ∧ isShoreline c = isLand c0 && oceanNeighbour raw W H (x, y)
                  ∧ hasBit (Some c) IS_LAND_BIT = hasBit (Some c0) IS_LAND_BIT) as Hcell.
  { intros x y c Hin Hc.
    destruct (rd_in_grid raw width height x y Hlen Hin) as [c0 Hc0]. fold W in Hc0.
    exists c0. split; [done |].
    assert (encoded c0 = true) as He.
    { revert Hc0. unfold JS.rd. destruct (_ <? 0); [done |]. intros Hl.
      exact (Forall_lookup_1 (λ c, encoded c = true) raw _ _ Henc Hl). }
    split; [done |].
    pose proof (markShoreline_at raw W H x y c0 Hb Hin Hc0) as Hsh. fold sh in Hsh.
    unfold shorelineOf in Hsh.
    revert Hsh Hc. unfold JS.rd. destruct (_ <? 0); [done |]. intros Hsh Hc.
    destruct (Forall2_lookup_lr _ _ _ _ _ _ Hflags Hsh Hc) as (Hbyte & HL & HS).
    destruct (encoded_flags c0 He) as (Hc0b & _ & Hs0 & Hs1).
    destruct (hasBit_testbit c0 Hc0b) as (HL0 & _).
    destruct (hasBit_testbit c Hbyte) as (HLc & _).
    rewrite HLc, HL0.
    destruct (isLand c0 && oceanNeighbour raw W H (x, y)) eqn:Htest.
    - destruct (shoreline_store c0 Hc0b) as (_ & Hb1 & _ & HL1 & _).
      destruct (hasBit_testbit _ Hb1) as (HL1' & _).
      assert (isLand c = isLand c0) as HLand by (by rewrite HL, <- HL1', HL1, HL0).
      split; [exact HLand |]. split; [by rewrite HS | exact HLand].
    - split; [exact HL |]. split; [by rewrite HS | exact HL]. }
  intros x y c Hin Hc.
  destruct (Hcell x y c Hin Hc) as (c0 & Hc0 & He & HL & HS & _).
  rewrite HS, HL. f_equal.
  (* the neighbours: OCEAN in the raw field is water in the result *)
  unfold oceanNeighbour, waterNeighbour, Grid.waterAt.
  induction dirs as [| d l IH]; [done |]. cbn [existsb]. rewrite IH. f_equal.
  destruct (inBounds W H (Grid.neighbour (x, y) d).1 (Grid.neighbour (x, y) d).2) eqn:Hn;
    [| done].
  cbn [andb].
  destruct (rd_in_grid buf width height _ _ (eq_trans Hlbuf Hlen) Hn) as [cn Hcn].
  fold W in Hcn.
  destruct (Hcell _ _ cn Hn Hcn) as (cn0 & Hcn0 & Hen & _ & _ & HLn).
  rewrite Hcn, Hcn0, HLn. by destruct (encoded_flags cn0 Hen) as (_ & -> & _).
Qed.

End GeneratedShoreline.

(** ** The ocean flood fill, on any buffer of bytes *)

Section FloodFill.

Import Terrain Cell.

(** Setting the OCEAN flag of a byte. *)
Lemma ocean_store (c : Z) :
  0 ≤ c < 256 →
  JS.or c (JS.shl 1 OCEAN_BIT) mod 256 = Z.lor c 32
  ∧ hasBit (Some (Z.lor c 32)) IS_LAND_BIT = hasBit (Some c) IS_LAND_BIT.
Proof.
  intros Hc.
  assert (forallb (λ c,
      (JS.or c (JS.shl 1 OCEAN_BIT) mod 256 =? Z.lor c 32)
      && Bool.eqb (hasBit (Some (Z.lor c 32)) IS_LAND_BIT) (hasBit (Some c) IS_LAND_BIT))
    (seqZ 0 256) = true) as Hall by (vm_compute; reflexivity).
  pose proof (range_cases _ _ Hall c Hc) as H. cbv beta in H.
  apply andb_true_iff in H as [H1 H2]. apply eqb_prop in H2.
  split; [lia | exact H2].
Qed.

Lemma visitedAt_new (n : nat) (width : Z) (c : Z * Z) :
  visitedAt (JS.newUint8Array n) width c = false.
Proof.
  unfold visitedAt, JS.rd, JS.newUint8Array. destruct (_ <? 0); [done |].
  destruct (replicate n 0 !! _) as [v |] eqn:E; [| done].
  by apply lookup_replicate in E as [-> _].
Qed.

Lemma visitedAt_mark (visited : list Z) (width height : Z) (c : Z * Z) :
  length visited = Z.to_nat (width * height) →
  inBounds width height c.1 c.2 = true →
  visitedAt (JS.wr visited (index width c.1 c.2) 1) width c = true.
Proof.
  intros Hlen Hin. unfold visitedAt. pose proof (index_in_range _ _ _ _ Hin) as Hr.
  destruct (rd_in_range visited (index width c.1 c.2)) as [v Hv]; [lia |].
  by rewrite (rd_wr_eq _ _ _ v Hv).
Qed.

Lemma visitedAt_other (visited : list Z) (width height : Z) (c c' : Z * Z) :
  inBounds width height c.1 c.2 = true →
  inBounds width height c'.1 c'.2 = true →
  c' ≠ c →
  visitedAt (JS.wr visited (index width c.1 c.2) 1) width c' = visitedAt visited width c'.
Proof.
  intros Hin Hin' Hne. unfold visitedAt. rewrite rd_wr_ne; [done |].
  intros Heq. destruct (index_inj _ _ _ _ _ _ Hin Hin' Heq) as [? ?].
  destruct c, c'. simplify_eq/=.
Qed.

(** The neighbour loop appends to the queue the neighbours inside the
    grid that are neither visited nor land. *)
Lemma floodVisit_app out visited width height cx cy q d :
  floodVisit out visited width height cx cy q d
  = q ++ floodVisit out visited width height cx cy [] d.
Proof.
  unfold floodVisit. destruct d as [dx dy].
  destruct (negb _); [by rewrite app_nil_r |].
  destruct (JS.truthy _); [by rewrite app_nil_r |].
  destruct (hasBit _ _); [by rewrite app_nil_r | done].
Qed.

Lemma floodVisit_fold out visited width height cx cy l q :
  fold_left (floodVisit out visited width height cx cy) l q
  = q ++ flat_map (floodVisit out visited width height cx cy []) l.
Proof.
  revert q. induction l as [| d l IH]; intros q; cbn [fold_left flat_map].
  - by rewrite app_nil_r.
  - by rewrite IH, (floodVisit_app _ _ _ _ _ _ q), app_assoc.
Qed.

Lemma elem_of_floodVisit out visited width height cx cy d n :
  n ∈ floodVisit out visited width height cx cy [] d
  ↔ n = Grid.neighbour (cx, cy) d
    ∧ inBounds width height n.1 n.2 = true
    ∧ visitedAt visited width n = false
    ∧ hasBit (JS.rd out (index width n.1 n.2)) IS_LAND_BIT = false.
Proof.
  unfold floodVisit, Grid.neighbour, visitedAt. destruct d as [dx dy]. cbn [fst snd].
  destruct (inBounds width height (cx + dx) (cy + dy)) eqn:Hin; cbn [negb].
  - destruct (JS.truthy _) eqn:Hv.
    + rewrite elem_of_nil. split; [done |]. intros (-> & _ & Hv' & _).
      cbn [fst snd] in Hv'. congruence.
    + destruct (hasBit _ _) eqn:Hl.
      * rewrite elem_of_nil. split; [done |]. intros (-> & _ & _ & Hl').
        cbn [fst snd] in Hl'. congruence.
      * rewrite app_nil_l, list_elem_of_singleton. split; [| by intros [-> _]].
        intros ->. done.
  - rewrite elem_of_nil. split; [done |]. intros (-> & Hin' & _).
    cbn [fst snd] in Hin'. congruence.
Qed.

Lemma neighbour_back (c d : Z * Z) :
  d ∈ dirs → ∃ d', d' ∈ dirs ∧ Grid.neighbour (Grid.neighbour c d) d' = c.
Proof.
  destruct c as [x y]. unfold dirs, Grid.neighbour.
  rewrite !elem_of_cons, elem_of_nil.
  intros [-> | [-> | [-> | [-> | []]]]]; cbn [fst snd].
  - exists (-1, 0). rewrite !elem_of_cons. split; [tauto |]. cbn [fst snd]. f_equal; lia.
  - exists (1, 0). rewrite !elem_of_cons. split; [tauto |]. cbn [fst snd]. f_equal; lia.
  - exists (0, -1). rewrite !elem_of_cons. split; [tauto |]. cbn [fst snd]. f_equal; lia.
  - exists (0, 1). rewrite !elem_of_cons. split; [tauto |]. cbn [fst snd]. f_equal; lia.
Qed.

Lemma path_start (ok : Z * Z → bool) (c c' : Z * Z) : Grid.path ok c c' → ok c = true.
Proof. by intros []. Qed.

Lemma waterAt_inBounds buf width height c :
  Grid.waterAt buf width height c = true → inBounds width height c.1 c.2 = true.
Proof. unfold Grid.waterAt. by intros [? _]%andb_true_iff. Qed.

Section Invariant.

Variables (buf0 : list Z) (width height : Z).
Hypothesis buf0_bytes : bytes buf0.

(** During the fill the IS_LAND flags read as in the buffer it started
    from. *)
Lemma flood_land_bit out visited q x y :
  floodInv buf0 width height out visited q →
  inBounds width height x y = true →
  hasBit (JS.rd out (index width x y)) IS_LAND_BIT
  = hasBit (JS.rd buf0 (index width x y)) IS_LAND_BIT.
Proof.
  intros Hinv Hin. destruct (JS.rd buf0 (index width x y)) as [c0 |] eqn:E0.
  - rewrite (flood_cells _ _ _ _ _ _ Hinv x y c0 Hin E0).
    destruct (visitedAt _ _ _); [| done].
    by destruct (ocean_store c0 (bytes_rd _ _ _ buf0_bytes E0)) as [_ ->].
  - rewrite rd_None; [done |]. rewrite (flood_length _ _ _ _ _ _ Hinv). intros Hr.
    destruct (rd_in_range buf0 _ Hr) as [? ?]. congruence.
Qed.

Lemma flood_skip out visited c q :
  floodInv buf0 width height out visited (c :: q) →
  visitedAt visited width c = true →
  floodInv buf0 width height out visited q.
Proof.
  intros [H1 H2 H3 H4 H5 H6 H7] Hv. split; try done.
  - by inversion H3.
  - intros c' Hw Hb. destruct (H6 c' Hw Hb) as [? | [-> | ?]%elem_of_cons]; auto.
  - intros c' d Hin Hv' Hd Hw.
    destruct (H7 c' d Hin Hv' Hd Hw) as [? | [-> | ?]%elem_of_cons]; auto.
Qed.

Lemma flood_visit out visited c q :
  floodInv buf0 width height out visited (c :: q) →
  visitedAt visited width c = false →
  floodInv buf0 width height
    (JS.wr out (index width c.1 c.2)
       (JS.or (JS.num (JS.rd out (index width c.1 c.2))) (JS.shl 1 OCEAN_BIT)))
    (JS.wr visited (index width c.1 c.2) 1)
    (fold_left (floodVisit
        (JS.wr out (index width c.1 c.2)
           (JS.or (JS.num (JS.rd out (index width c.1 c.2))) (JS.shl 1 OCEAN_BIT)))
        (JS.wr visited (index width c.1 c.2) 1) width height c.1 c.2) dirs q).
Proof.
  intros Hinv Hv.
  pose proof (flood_land_bit _ _ _ c.1 c.2 Hinv) as Hland0.
  destruct Hinv as [H1 H2 H3 H4 H5 H6 H7].
  assert (oceanCell buf0 width height c) as Hc by (by inversion H3).
  assert (Forall (oceanCell buf0 width height) q) as Hq by (by inversion H3).
  pose proof (waterAt_inBounds _ _ _ _ (proj1 Hc)) as Hin.
  set (out' := JS.wr out _ _). set (visited' := JS.wr visited _ _).
  (* the visited cells after the step *)
  assert (visitedAt visited' width c = true) as Hvc by (by eapply visitedAt_mark).
  assert (∀ c', inBounds width height c'.1 c'.2 = true → c' ≠ c →
                visitedAt visited' width c' = visitedAt visited width c') as Hvo
    by (intros; by eapply visitedAt_other).
  (* the cells after the step *)
  assert (∀ x y c0, inBounds width height x y = true →
            JS.rd buf0 (index width x y) = Some c0 →
            JS.rd out' (index width x y)
            = Some (if visitedAt visited' width (x, y) then Z.lor c0 32 else c0)) as Hcells.
  { intros x y c0 Hxy E0. pose proof (H4 x y c0 Hxy E0) as Hout.
    destruct (decide ((x, y) = c)) as [<- | Hne].
    - cbn [fst snd] in *. rewrite Hvc. rewrite Hv in Hout.
      unfold out'. rewrite (rd_wr_eq _ _ _ c0 Hout), Hout.
      change (JS.num (Some c0)) with c0.
      by destruct (ocean_store c0 (bytes_rd _ _ _ buf0_bytes E0)) as [-> _].
    - rewrite (Hvo (x, y)) by done. unfold out'. rewrite rd_wr_ne; [done |].
      intros Heq. destruct (index_inj _ _ _ _ _ _ Hin Hxy Heq) as [? ?].
      destruct c. simplify_eq/=. }
  assert (∀ x y, inBounds width height x y = true →
            hasBit (JS.rd out' (index width x y)) IS_LAND_BIT
            = hasBit (JS.rd buf0 (index width x y)) IS_LAND_BIT) as Hland.
  { intros x y Hxy. destruct (JS.rd buf0 (index width x y)) as [c0 |] eqn:E0.
    - rewrite (Hcells x y c0 Hxy E0). destruct (visitedAt visited' width (x, y)); [| done].
      by destruct (ocean_store c0 (bytes_rd _ _ _ buf0_bytes E0)) as [_ ->].
    - rewrite rd_None; [done |]. unfold out'. rewrite length_wr, H1. intros Hr.
      destruct (rd_in_range buf0 _ Hr) as [? ?]. congruence. }
  rewrite floodVisit_fold.
  split.
  - unfold out'. by rewrite length_wr.
  - unfold visited'. by rewrite length_wr.
  - apply Forall_app. split; [done |].
    apply Forall_flat_map, Forall_forall. intros d Hd.
    apply Forall_forall. intros n (-> & Hn & _ & Hl)%elem_of_floodVisit.
    rewrite Hland in Hl by done.
    assert (Grid.waterAt buf0 width height (Grid.neighbour (c.1, c.2) d) = true) as Hw
      by (unfold Grid.waterAt; by rewrite Hn, Hl).
    split; [done |].
    destruct (neighbour_back (c.1, c.2) d Hd) as (d' & Hd' & Hback).
    destruct Hc as [_ (b & Hp & Hb)]. exists b. split; [| done].
    eapply Grid.path_step; [done | exact Hd' |]. rewrite Hback. by destruct c.
  - done.
  - intros c' Hin' Hv'. destruct (decide (c' = c)) as [-> | Hne]; [done |].
    apply H5; [done |]. by rewrite <- Hvo.
  - intros c' Hw Hb. destruct (decide (c' = c)) as [-> | Hne]; [by left |].
    pose proof (waterAt_inBounds _ _ _ _ Hw) as Hin'.
    rewrite Hvo by done.
    destruct (H6 c' Hw Hb) as [? | [-> | ?]%elem_of_cons]; [by left | done |].
    right. apply elem_of_app. by left.
  - intros c' d Hin' Hv' Hd Hw.
    pose proof (waterAt_inBounds _ _ _ _ Hw) as Hinn.
    destruct (decide (Grid.neighbour c' d = c)) as [-> | Hnc]; [by left |].
    rewrite Hvo by done.
    destruct (decide (c' = c)) as [-> | Hne].
    + destruct (visitedAt visited width (Grid.neighbour c d)) eqn:Hvn; [by left | right].
      apply elem_of_app. right. apply list_elem_of_In, in_flat_map.
      exists d. split; [by apply list_elem_of_In |].
      apply list_elem_of_In, elem_of_floodVisit.
      split; [by destruct c |]. split; [done |].
      split; [by rewrite Hvo |].
      rewrite Hland by done. unfold Grid.waterAt in Hw.
      apply andb_true_iff in Hw as [_ Hw]. by apply negb_true_iff in Hw.
    + rewrite Hvo in Hv' by done.
      destruct (H7 c' d Hin' Hv' Hd Hw) as [? | [? | ?]%elem_of_cons];
        [by left | done |].
      right. apply elem_of_app. by left.
Qed.

Lemma floodLoop_inv fuel out visited q r :
  floodInv buf0 width height out visited q →
  floodLoop fuel width height out visited q = Some r →
  floodInv buf0 width height r.1 r.2 [].
Proof.
  revert out visited q.
  induction fuel as [| fuel IH]; intros out visited q Hinv;
    destruct q as [| [cx cy] q]; cbn [floodLoop]; try (intros; by simplify_eq).
  destruct (JS.truthy (JS.rd visited (index width cx cy))) eqn:Hv.
  - apply IH. by eapply flood_skip.
  - pose proof (flood_land_bit _ _ _ cx cy Hinv) as Hland.
    assert (oceanCell buf0 width height (cx, cy)) as [Hw _]
      by (destruct Hinv as [_ _ H3 _ _ _ _]; by inversion H3).
    unfold Grid.waterAt in Hw. cbn [fst snd] in Hw.
    apply andb_true_iff in Hw as [Hin Hw]. apply negb_true_iff in Hw.
    rewrite Hland, Hw by done.
    apply IH. by apply (flood_visit out visited (cx, cy) q).
Qed.

(** When the queue is empty the visited cells are the border-connected
    water. *)
Lemma flood_complete out visited c :
  floodInv buf0 width height out visited [] →
  oceanCell buf0 width height c → visitedAt visited width c = true.
Proof.
  intros [_ _ _ _ _ H6 H7] [_ (b & Hp & Hb)].
  induction Hp as [c Hw | c d c' Hw Hd Hp IH].
  - by destruct (H6 c Hw Hb) as [? | ?%elem_of_nil].
  - specialize (IH Hb).
    destruct (neighbour_back c d Hd) as (d' & Hd' & Hback).
    pose proof (waterAt_inBounds _ _ _ _ (path_start _ _ _ Hp)) as Hin.
    assert (Grid.waterAt buf0 width height (Grid.neighbour (Grid.neighbour c d) d') = true)
      as Hw' by (by rewrite Hback).
    destruct (H7 (Grid.neighbour c d) d' Hin IH Hd' Hw') as [Hv | []%elem_of_nil].
    by rewrite Hback in Hv.
Qed.

Lemma edgeSeeds_inv :
  0 < width → 0 < height →
  floodInv buf0 width height buf0 (JS.newUint8Array (Z.to_nat (width * height)))
    (edgeSeeds buf0 width height).
Proof.
  intros HW HH. split.
  - done.
  - apply length_replicate.
  - assert (∀ x y, inBounds width height x y = true →
              Grid.onBorder width height (x, y) = true →
              Forall (oceanCell buf0 width height)
                (if hasBit (JS.rd buf0 (index width x y)) IS_LAND_BIT then [] else [(x, y)]))
      as Hseed.
    { intros x y Hin Hb. destruct (hasBit _ _) eqn:Hl; constructor; [| constructor].
      assert (Grid.waterAt buf0 width height (x, y) = true) as Hw
        by (unfold Grid.waterAt; cbn [fst snd]; by rewrite Hin, Hl).
      split; [done |]. exists (x, y). split; [by constructor | done]. }
    unfold edgeSeeds. apply Forall_app. split.
    + apply Forall_flat_map, Forall_forall. intros x Hx%elem_of_seqZ.
      apply Forall_flat_map, Forall_forall. intros y Hy.
      rewrite !elem_of_cons, elem_of_nil in Hy.
      apply Hseed; unfold inBounds, Grid.onBorder; cbn [fst snd]; lia.
    + apply Forall_flat_map, Forall_forall. intros y Hy%elem_of_seqZ.
      apply Forall_flat_map, Forall_forall. intros x Hx.
      rewrite !elem_of_cons, elem_of_nil in Hx.
      apply Hseed; unfold inBounds, Grid.onBorder; cbn [fst snd]; lia.
  - intros x y c0 _ ->. by rewrite visitedAt_new.
  - intros c _ Hv. by rewrite visitedAt_new in Hv.
  - intros [x y] Hw Hb. right.
    pose proof (waterAt_inBounds _ _ _ _ Hw) as Hin.
    unfold Grid.waterAt in Hw. apply andb_true_iff in Hw as [_ Hl].
    apply negb_true_iff in Hl. cbn [fst snd] in *.
    unfold edgeSeeds. apply elem_of_app.
    destruct (decide (y = 0 ∨ y = height - 1)) as [Hy | Hy].
    + left. apply list_elem_of_In, in_flat_map. exists x.
      split; [apply list_elem_of_In, elem_of_seqZ; unfold inBounds in Hin; lia |].
      apply in_flat_map. exists y.
      split; [apply list_elem_of_In; rewrite !elem_of_cons; tauto |].
      rewrite Hl. by left.
    + right. apply list_elem_of_In, in_flat_map. exists y.
      split; [apply list_elem_of_In, elem_of_seqZ; unfold inBounds in Hin; lia |].
      apply in_flat_map. exists x.
      split; [apply list_elem_of_In; rewrite !elem_of_cons;
              unfold Grid.onBorder in Hb; cbn [fst snd] in Hb; lia |].
      rewrite Hl. by left.
  - intros c d _ Hv. by rewrite visitedAt_new in Hv.
Qed.

End Invariant.

Lemma floodLoop_length fuel width height out visited q r :
  floodLoop fuel width height out visited q = Some r → length r.1 = length out.
Proof.
  revert out visited q.
  induction fuel as [| fuel IH]; intros out visited q;
    destruct q as [| [cx cy] q]; cbn [floodLoop]; try (intros; by simplify_eq).
  destruct (JS.truthy _); [apply IH |].
  destruct (hasBit _ _); [apply IH |].
  intros Hr%IH. by rewrite Hr, length_wr.
Qed.

(** X6: the flood fill returns, and in the buffer it returns a cell inside
    the grid has the OCEAN flag added exactly when it is water joined to
    the border of the grid by a 4-connected path of water; every other
    cell holds what it held. *)
Theorem floodOceans_marks_border_connected_water (out : list Z) (width height : Z) :
  bytes out →
  ∃ out', floodOceans out width height = Some out'
    ∧ length out' = length out
    ∧ ∀ x y c,
        inBounds width height x y = true →
        JS.rd out (index width x y) = Some c →
        (oceanCell out width height (x, y)
         ∧ JS.rd out' (index width x y) = Some (Z.lor c 32))
        ∨ (¬ oceanCell out width height (x, y)
           ∧ JS.rd out' (index width x y) = Some c).
Proof.
  intros Hb. destruct (floodOceans_total out width height) as [out' Hout].
  exists out'. split; [done |].
  unfold floodOceans in Hout.
  destruct (floodLoop _ _ _ _ _ _) as [r |] eqn:Hr; [| done].
  cbn [fmap option_fmap option_map] in Hout. injection Hout as <-.
  split; [by eapply floodLoop_length |].
  intros x y c Hin Hc.
  assert (0 < width ∧ 0 < height) as [HW HH] by (unfold inBounds in Hin; lia).
  pose proof (floodLoop_inv out width height Hb _ _ _ _ _
                (edgeSeeds_inv out width height HW HH) Hr) as Hinv.
  rewrite (flood_cells _ _ _ _ _ _ Hinv x y c Hin Hc).
  destruct (visitedAt r.2 width (x, y)) eqn:Hv.
  - left. split; [| done]. by apply (flood_sound _ _ _ _ _ _ Hinv (x, y)).
  - right. split; [| done]. intros Ho.
    pose proof (flood_complete out width height _ _ _ Hinv Ho). congruence.
Qed.

End FloodFill.

(** ** The region pruning, on any grid *)

Section Pruning.

Import Terrain.

Variables (width height : Z).

(** The cells a search collects hold the value it looks for. *)
Lemma bfsVisit_cells grid target cx cy visited q d :
  Forall (λ c, JS.rd grid (index width c.1 c.2) = Some target) q →
  Forall (λ c, JS.rd grid (index width c.1 c.2) = Some target)
         (bfsVisit grid width height target cx cy (visited, q) d).2.
Proof.
  intros Hq. unfold bfsVisit. destruct d as [dx dy].
  destruct (outside _ _ _ _); [done |].
  destruct (JS.same (JS.rd visited _) 1); [done |].
  destruct (JS.same (JS.rd grid _) target) eqn:Hg; [| done].
  cbn [snd]. apply Forall_app. split; [done |].
  constructor; [| constructor]. by apply same_Some.
Qed.

Lemma bfsVisit_fold_cells grid target cx cy l visited q :
  Forall (λ c, JS.rd grid (index width c.1 c.2) = Some target) q →
  Forall (λ c, JS.rd grid (index width c.1 c.2) = Some target)
         (fold_left (bfsVisit grid width height target cx cy) l (visited, q)).2.
Proof.
  revert visited q. induction l as [| d l IH]; intros visited q Hq; [done |].
  cbn [fold_left].
  pose proof (bfsVisit_cells grid target cx cy visited q d Hq) as Hs.
  destruct (bfsVisit grid width height target cx cy (visited, q) d) as [v1 q1].
  by apply IH.
Qed.

Lemma bfsLoop_cells grid fuel target visited q cells size r :
  Forall (λ c, JS.rd grid (index width c.1 c.2) = Some target) q →
  Forall (λ c, JS.rd grid (index width c.1 c.2) = Some target) cells →
  bfsLoop grid width height fuel target visited q cells size = Some r →
  Forall (λ c, JS.rd grid (index width c.1 c.2) = Some target) r.2 ∧ size ≤ r.1.2.
Proof.
  revert visited q cells size.
  induction fuel as [| fuel IH]; intros visited q cells size Hq Hcells;
    destruct q as [| [cx cy] q]; cbn [bfsLoop]; try (intros; by simplify_eq).
  pose proof (bfsVisit_fold_cells grid target cx cy dirs visited q) as Hs.
  destruct (fold_left _ dirs (visited, q)) as [v1 q1].
  intros Hr. apply IH in Hr as [Hc Hsize].
  - split; [done | lia].
  - apply Hs. by inversion Hq.
  - apply Forall_app. split; [done |]. constructor; [by inversion Hq | constructor].
Qed.

Lemma bfs_cells grid visited x y target r :
  JS.rd grid (index width x y) = Some target →
  bfs grid width height visited x y target = Some r →
  Forall (λ c, JS.rd grid (index width c.1 c.2) = Some target) r.2 ∧ 1 ≤ r.1.2.
Proof.
  intros Hseed. unfold bfs. cbn [bfsLoop].
  pose proof (bfsVisit_fold_cells grid target x y dirs
                (JS.wr visited (index width x y) 1) [] ltac:(constructor)) as Hs.
  destruct (fold_left _ dirs _) as [v1 q1].
  intros Hr. apply bfsLoop_cells in Hr as [Hc Hsize]; [done | done |].
  constructor; [done | constructor].
Qed.

Lemma fill_pruned (fill : Z) (start : list Z) (cells : list (Z * Z)) (grid : list Z) :
  binary fill →
  Forall (λ c, ∀ s, JS.rd start (index width c.1 c.2) = Some s → binary s) cells →
  Forall2 pruned start grid →
  Forall2 pruned start
    (fold_left (λ g '(cx, cy), JS.wr g (index width cx cy) fill) cells grid).
Proof.
  intros Hfill Hcells. revert grid.
  induction Hcells as [| [cx cy] cells Hc _ IH]; intros grid Hg; [done |].
  cbn [fold_left]. apply IH. apply Forall2_wr; [done |].
  intros s g Hs _. right. split; [by apply Hc |].
  destruct Hfill as [-> | ->]; [by left | by right].
Qed.

Lemma pruneAt_pruned target fill minSize start grid visited c r :
  binary target → binary fill →
  Forall2 pruned start grid →
  pruneAt width height target fill minSize (grid, visited) c = Some r →
  Forall2 pruned start r.1.
Proof.
  intros Ht Hf Hg. unfold pruneAt. destruct c as [x y].
  destruct (JS.same (JS.rd visited _) 0); [| intros [= <-]; exact Hg].
  destruct (JS.same (JS.rd grid _) target) eqn:Hseed; [| intros [= <-]; exact Hg].
  cbn [andb]. apply same_Some in Hseed.
  destruct (bfs grid width height visited x y target) as [[[v1 size] cells] |] eqn:Hbfs;
    [| done].
  apply (bfs_cells _ _ _ _ _ _ Hseed) in Hbfs as [Hcells _]. cbn [snd] in Hcells.
  destruct (size <? minSize); intros [= <-]; [| exact Hg].
  cbn [fst]. apply fill_pruned; [done | | done].
  eapply Forall_impl; [exact Hcells |]. intros c Hc s Hs. cbn beta in Hc.
  unfold JS.rd in Hc, Hs. destruct (_ <? 0); [done |].
  destruct (Forall2_lookup_lr _ _ _ _ _ _ Hg Hs Hc) as [-> | [? _]]; done.
Qed.

Lemma foldM_pruneAt_pruned target fill minSize start l grid visited r :
  binary target → binary fill →
  Forall2 pruned start grid →
  foldM (pruneAt width height target fill minSize) l (grid, visited) = Some r →
  Forall2 pruned start r.1.
Proof.
  intros Ht Hf. revert grid visited.
  induction l as [| c l IH]; intros grid visited Hg; cbn [foldM];
    [intros [= <-]; exact Hg |].
  destruct (pruneAt width height target fill minSize (grid, visited) c)
    as [[g1 v1] |] eqn:Hp; [| done].
  apply IH. by apply (pruneAt_pruned _ _ _ _ _ _ _ _ Ht Hf Hg Hp).
Qed.

(** X7: the pruning returns, and it leaves every cell that holds neither 0
    nor 1 as it is; a cell that holds 0 or 1 holds 0 or 1 afterwards. *)
Theorem removeSmallRegions_touches_binary_cells_only
    (grid : list Z) (minLandSize minWaterSize : Z) :
  ∃ grid', removeSmallRegions grid width height minLandSize minWaterSize = Some grid'
           ∧ Forall2 pruned grid grid'.
Proof.
  destruct (removeSmallRegions_total grid width height minLandSize minWaterSize)
    as (grid' & Hr & _).
  exists grid'. split; [done |]. revert Hr. unfold removeSmallRegions.
  destruct (foldM _ _ _) as [[g1 v1] |] eqn:H1; [| done]. cbn [mbind option_bind].
  destruct (foldM _ _ (g1, _)) as [[g2 v2] |] eqn:H2; [| done]. cbn [mbind option_bind].
  intros [= <-].
  apply (foldM_pruneAt_pruned 0 1 minWaterSize grid _ _ _ _
           ltac:(by left) ltac:(by right)) in H2; [done |].
  apply (foldM_pruneAt_pruned 1 0 minLandSize grid _ _ _ _
           ltac:(by right) ltac:(by left)) in H1; [done |].
  apply Forall_Forall2_diag, Forall_true. by left.
Qed.

(** A search counts its seed, so a minimum size of 1 or less prunes
    nothing. *)
Lemma pruneAt_disabled target fill minSize grid visited c r :
  minSize ≤ 1 →
  pruneAt width height target fill minSize (grid, visited) c = Some r → r.1 = grid.
Proof.
  intros Hmin. unfold pruneAt. destruct c as [x y].
  destruct (JS.same (JS.rd visited _) 0); [| by intros [= <-]].
  destruct (JS.same (JS.rd grid _) target) eqn:Hseed; [| by intros [= <-]].
  cbn [andb]. apply same_Some in Hseed.
  destruct (bfs grid width height visited x y target) as [[[v1 size] cells] |] eqn:Hbfs;
    [| done].
  apply (bfs_cells _ _ _ _ _ _ Hseed) in Hbfs as [_ Hsize]. cbn [fst snd] in Hsize.
  destruct (Z.ltb_spec size minSize); [lia |]. by intros [= <-].
Qed.

Lemma foldM_pruneAt_disabled target fill minSize l grid visited r :
  minSize ≤ 1 →
  foldM (pruneAt width height target fill minSize) l (grid, visited) = Some r →
  r.1 = grid.
Proof.
  intros Hmin. revert visited.
  induction l as [| c l IH]; intros visited; cbn [foldM]; [by intros [= <-] |].
  destruct (pruneAt width height target fill minSize (grid, visited) c)
    as [[g1 v1] |] eqn:Hp; [| done].
  apply (pruneAt_disabled _ _ _ _ _ _ _ Hmin) in Hp. cbn [fst] in Hp. subst g1.
  apply IH.
Qed.

(** X8: with both minimum sizes at 1 or below the pruning returns the grid
    as it got it. *)
Theorem removeSmallRegions_disabled (grid : list Z) (minLandSize minWaterSize : Z) :
  minLandSize ≤ 1 → minWaterSize ≤ 1 →
  removeSmallRegions grid width height minLandSize minWaterSize = Some grid.
Proof.
  intros HL HW.
  destruct (removeSmallRegions_total grid width height minLandSize minWaterSize)
    as (grid' & Hr & _).
  rewrite Hr. f_equal. revert Hr. unfold removeSmallRegions.
  destruct (foldM _ _ _) as [[g1 v1] |] eqn:H1; [| done]. cbn [mbind option_bind].
  destruct (foldM _ _ (g1, _)) as [[g2 v2] |] eqn:H2; [| done]. cbn [mbind option_bind].
  intros [= <-].
  apply (foldM_pruneAt_disabled _ _ _ _ _ _ _ HW) in H2.
  apply (foldM_pruneAt_disabled _ _ _ _ _ _ _ HL) in H1.
  cbn [fst] in *. congruence.
Qed.

End Pruning.

(** ** Flat terrain is a fixed point of the magnitude passes *)

Section FlatTerrain.

Import Terrain Cell.

(** X9: on a buffer whose land cells all have the magnitude [m], smoothing
    returns the buffer as it got it. *)
Theorem smoothMagnitude_flat (out : list Z) (width height smoothingRadius : Z) (m : Z) :
  bytes out → landMagnitudesIn m m out →
  smoothMagnitude out width height smoothingRadius = out.
Proof.
  intros Hb Hm.
  assert (Forall2 (rewritten (λ c0 k, k = magnitude c0)) out
            (smoothMagnitude out width height smoothingRadius)) as H.
  { apply smoothMagnitude_rewritten; [done |].
    intros x y c0 radius Hin Hc0 Hland Hr.
    pose proof (bytes_rd _ _ _ Hb Hc0) as Hbyte.
    assert (hasBit (JS.rd out (index width x y)) IS_LAND_BIT = true) as Hbit.
    { rewrite Hc0. by destruct (hasBit_testbit c0 Hbyte) as (-> & _). }
    pose proof (windowSum_bounds out width height radius m m x y Hb Hm Hr Hin Hbit) as Hw.
    cbv zeta in Hw.
    assert (m ≤ magnitude c0 ≤ m) as Hmc.
    { unfold JS.rd in Hc0. destruct (_ <? 0); [done |].
      exact (Forall_lookup_1 _ _ _ _ Hm Hc0 Hland). }
    pose proof (magnitude_range c0) as Hr0.
    revert Hw. destruct (windowSum out width height radius x y) as [sum count].
    intros Hw. unfold windowAverage. cbn [fst snd] in *.
    rewrite (Z.max_r 1 count) by lia.
    assert (m ≤ sum / count ≤ m) as Hq.
    { split.
      - apply Z.div_le_lower_bound; lia.
      - apply Z.div_le_upper_bound; lia. }
    lia. }
  symmetry. apply list_eq_Forall2.
  apply Forall2_same_length_lookup. apply Forall2_same_length_lookup in H as [Hl H].
  split; [done |]. intros i c c' Hc Hc'.
  destruct (H i c c' Hc Hc') as [-> | (_ & k & _ & -> & ->)]; [done |].
  apply flagBits_magnitude. by eapply bytes_lookup.
Qed.

(** X10: on a buffer whose land magnitudes differ by at most 1, the ridge
    accent finds no peak and returns the buffer as it got it. *)
Theorem ridgeAccentPass_flat (out : list Z) (width height : Z) (enableAccent : bool)
    (lo hi : Z) :
  bytes out → landMagnitudesIn lo hi out → hi ≤ lo + 1 →
  ridgeAccentPass out width height enableAccent = out.
Proof.
  intros Hb Hm Hflat. unfold ridgeAccentPass. destruct enableAccent; [| done].
  apply (fold_left_preserves_in (λ s, s = out)); [| done].
  intros s [x y] Hin%elem_of_coords ->. unfold accentAt.
  destruct (JS.and _ _ =? 0) eqn:Ht; [done |].
  destruct (land_test_isLand out _ Hb Ht) as (c0 & Hc0 & Hland).
  pose proof (bytes_rd _ _ _ Hb Hc0) as Hbyte.
  assert (hasBit (JS.rd out (index width x y)) IS_LAND_BIT = true) as Hbit.
  { rewrite Hc0. by destruct (hasBit_testbit c0 Hbyte) as (-> & _). }
  pose proof (windowSum_bounds out width height 1 lo hi x y Hb Hm ltac:(lia) Hin Hbit) as Hw.
  cbv zeta in Hw.
  assert (lo ≤ magnitude c0 ≤ hi) as Hmc.
  { unfold JS.rd in Hc0. destruct (_ <? 0); [done |].
    exact (Forall_lookup_1 _ _ _ _ Hm Hc0 Hland). }
  revert Hw. destruct (windowSum out width height 1 x y) as [sum count].
  intros Hw. cbn [fst snd] in Hw.
  rewrite Hc0. change (JS.num (Some c0)) with c0.
  destruct (hasBit_testbit c0 Hbyte) as (_ & _ & _ & ->).
  rewrite (Z.max_r 1 count) by lia.
  assert (lo ≤ sum / count) as Hq by (apply Z.div_le_lower_bound; lia).
  destruct (Z.geb_spec (magnitude c0) (sum / count + 2)); [lia | done].
Qed.

End FlatTerrain.

(** ** The noise engine's integer part *)

Section NoiseEngine.

Import Simplex.

(** The low 32 bits of a number survive the conversions of the bit
    operators. *)
Lemma ToUint32_bits (a i : Z) :
  0 ≤ i < 32 → Z.testbit (JS.ToUint32 a) i = Z.testbit a i.
Proof. intros Hi. unfold JS.ToUint32. apply Z.mod_pow2_bits_low. lia. Qed.

Lemma ToUint32_high (a i : Z) : 32 ≤ i → Z.testbit (JS.ToUint32 a) i = false.
Proof. intros Hi. unfold JS.ToUint32. apply Z.mod_pow2_bits_high. lia. Qed.

Lemma ToUint32_ToInt32 (a : Z) : JS.ToUint32 (JS.ToInt32 a) = JS.ToUint32 a.
Proof.
  unfold JS.ToUint32, JS.ToInt32. cbv zeta.
  destruct (a mod 2 ^ 32 <? 2 ^ 31).
  - apply Z.mod_mod. lia.
  - replace (a mod 2 ^ 32 - 2 ^ 32) with (a mod 2 ^ 32 + (-1) * 2 ^ 32) by lia.
    rewrite Z_mod_plus_full. apply Z.mod_mod. lia.
Qed.

Lemma ToInt32_bits (a i : Z) :
  0 ≤ i < 32 → Z.testbit (JS.ToInt32 a) i = Z.testbit a i.
Proof.
  intros Hi. by rewrite <- (ToUint32_bits (JS.ToInt32 a)), ToUint32_ToInt32, ToUint32_bits.
Qed.

Lemma ToUint32_eq (a b : Z) :
  JS.ToUint32 a = JS.ToUint32 b ↔ ∀ i, 0 ≤ i < 32 → Z.testbit a i = Z.testbit b i.
Proof.
  split.
  - intros Heq i Hi. by rewrite <- (ToUint32_bits a), <- (ToUint32_bits b), Heq.
  - intros Hb. apply Z.bits_inj'. intros i Hi.
    destruct (Z.lt_ge_cases i 32).
    + rewrite !ToUint32_bits by lia. apply Hb. lia.
    + by rewrite !ToUint32_high.
Qed.

Lemma xor_bits (a b i : Z) :
  0 ≤ i < 32 → Z.testbit (JS.xor a b) i = xorb (Z.testbit a i) (Z.testbit b i).
Proof. intros Hi. unfold JS.xor. by rewrite Z.lxor_spec, !ToInt32_bits. Qed.

Lemma shl_bits (a n i : Z) :
  0 ≤ n → 0 ≤ i < 32 →
  Z.testbit (JS.shl a n) i = if i <? n then false else Z.testbit a (i - n).
Proof.
  intros Hn Hi. unfold JS.shl. rewrite ToInt32_bits by done.
  destruct (Z.ltb_spec i n).
  - apply Z.shiftl_spec_low. lia.
  - rewrite Z.shiftl_spec by lia. apply ToInt32_bits. lia.
Qed.

Lemma ushr_bits (a n i : Z) :
  0 ≤ n → 0 ≤ i < 32 →
  Z.testbit (JS.ushr a n) i = if i + n <? 32 then Z.testbit a (i + n) else false.
Proof.
  intros Hn Hi. unfold JS.ushr. rewrite Z.shiftr_spec by lia.
  destruct (Z.ltb_spec (i + n) 32).
  - apply ToUint32_bits. lia.
  - apply ToUint32_high. lia.
Qed.

(** [x ^= x << n] and [x ^= x >>> n] merge no two 32-bit states: the low
    bits (resp. the high bits) of the state come out as they are, and each
    other bit is recovered from the bits before it. *)
Lemma xor_shl_inj (a b n : Z) :
  0 < n →
  JS.ToUint32 (JS.xor a (JS.shl a n)) = JS.ToUint32 (JS.xor b (JS.shl b n))
  ↔ JS.ToUint32 a = JS.ToUint32 b.
Proof.
  intros Hn. rewrite !ToUint32_eq. split.
  - intros Hx.
    assert (∀ k, 0 ≤ k → ∀ i, 0 ≤ i < k → i < 32 → Z.testbit a i = Z.testbit b i)
      as Hind.
    { intros k Hk. pattern k. apply natlike_ind; [intros; lia | | done].
      clear k Hk. intros k Hk IH i Hi Hi32.
      specialize (Hx i ltac:(lia)). rewrite !xor_bits, !shl_bits in Hx by lia.
      destruct (Z.ltb_spec i n).
      - by destruct (Z.testbit a i), (Z.testbit b i).
      - rewrite (IH (i - n)) in Hx by lia.
        by destruct (Z.testbit a i), (Z.testbit b i), (Z.testbit b (i - n)). }
    intros i Hi. apply (Hind 32); lia.
  - intros Ha i Hi. rewrite !xor_bits, !shl_bits by lia. rewrite Ha by done.
    destruct (Z.ltb_spec i n); [done |]. rewrite (Ha (i - n)); [done | lia].
Qed.

Lemma xor_ushr_inj (a b n : Z) :
  0 < n →
  JS.ToUint32 (JS.xor a (JS.ushr a n)) = JS.ToUint32 (JS.xor b (JS.ushr b n))
  ↔ JS.ToUint32 a = JS.ToUint32 b.
Proof.
  intros Hn. rewrite !ToUint32_eq. split.
  - intros Hx.
    assert (∀ k, 0 ≤ k → ∀ i, 32 - k ≤ i → 0 ≤ i < 32 →
                 Z.testbit a i = Z.testbit b i) as Hind.
    { intros k Hk. pattern k. apply natlike_ind; [intros; lia | | done].
      clear k Hk. intros k Hk IH i Hi Hi32.
      specialize (Hx i ltac:(lia)). rewrite !xor_bits, !ushr_bits in Hx by lia.
      destruct (Z.ltb_spec (i + n) 32).
      - rewrite (IH (i + n)) in Hx by lia.
        by destruct (Z.testbit a i), (Z.testbit b i), (Z.testbit b (i + n)).
      - by destruct (Z.testbit a i), (Z.testbit b i). }
    intros i Hi. apply (Hind 32); lia.
  - intros Ha i Hi. rewrite !xor_bits, !ushr_bits by lia. rewrite Ha by done.
    destruct (Z.ltb_spec (i + n) 32); [| done]. rewrite (Ha (i + n)); [done | lia].
Qed.

(** X11: [xorshift32] returns a 32-bit unsigned value and merges no two
    32-bit states; 0 is the only state it sends to 0. *)
Theorem xorshift32_injective (x y : Z) :
  0 ≤ xorshift32 x < 2 ^ 32
  ∧ (xorshift32 x = xorshift32 y ↔ JS.ToUint32 x = JS.ToUint32 y)
  ∧ (xorshift32 x = 0 ↔ JS.ToUint32 x = 0).
Proof.
  assert (∀ a b, xorshift32 a = xorshift32 b ↔ JS.ToUint32 a = JS.ToUint32 b) as Hinj.
  { intros a b. unfold xorshift32. cbv zeta.
    assert (∀ z, JS.ushr z 0 = JS.ToUint32 z) as Hu
      by (intros z; unfold JS.ushr; apply Z.shiftr_0_r).
    rewrite !Hu. rewrite xor_shl_inj by lia. rewrite xor_ushr_inj by lia.
    by rewrite xor_shl_inj by lia. }
  split; [| split; [apply Hinj |]].
  - unfold xorshift32, JS.ushr, JS.ToUint32. rewrite Z.shiftr_0_r.
    apply Z.mod_pos_bound. lia.
  - change 0 with (xorshift32 0) at 1. rewrite Hinj. done.
Qed.

Lemma and_255_range (a : Z) : 0 ≤ JS.and a 255 < 256.
Proof.
  unfold JS.and. change (JS.ToInt32 255) with (Z.ones 8).
  rewrite Z.land_ones by lia. apply Z.mod_pos_bound. lia.
Qed.

(** X12: the noise engine never reads outside its tables: whatever the seed
    and the lattice coordinates, the two reads of the permutation table and
    the reads of the two gradient tables at the hashed index find an
    entry. *)
Theorem gradIndex_in_tables (M : MathLib) (seed : Z) (i j : float) :
  let this := Simplex2D.new M seed in
  is_Some (JS.rd (Simplex2D.perm this) (JS.and (Num.truncZ i) 255))
  ∧ is_Some (JS.rd (Simplex2D.perm this) (JS.and (Num.truncZ j) 255))
  ∧ 0 ≤ Simplex2D.gradIndex this i j < 256
  ∧ is_Some (Simplex2D.gradX this !! Z.to_nat (Simplex2D.gradIndex this i j))
  ∧ is_Some (Simplex2D.gradY this !! Z.to_nat (Simplex2D.gradIndex this i j)).
Proof.
  cbv zeta.
  assert (length (Simplex2D.perm (Simplex2D.new M seed)) = 256%nat) as Hp.
  { cbn [Simplex2D.new Simplex2D.perm]. apply tableOk_length.
    unfold buildPermutation. apply shuffle_ok; [lia | unfold tableOk; reflexivity]. }
  pose proof (and_255_range (Num.truncZ i)) as Hi.
  pose proof (and_255_range (Num.truncZ j)) as Hj.
  split; [apply rd_in_range; lia |]. split; [apply rd_in_range; lia |].
  assert (0 ≤ Simplex2D.gradIndex (Simplex2D.new M seed) i j < 256) as Hg
    by (unfold Simplex2D.gradIndex; apply and_255_range).
  split; [done |].
  split; apply lookup_lt_is_Some; cbn [Simplex2D.new Simplex2D.gradX Simplex2D.gradY];
    rewrite length_fmap, length_seqZ; lia.
Qed.

End NoiseEngine.

(** ** The product of the loader and the loader of the client *)

Section Products.

Import Terrain Cell Loader.

Variable M : MathLib.
Variable Generated : string.

Lemma getMapData_new (injected : option GeneratedParams) (store : GeneratedParams) :
  ∃ d this',
    Loader.getMapData M Generated (Loader.new injected) store Generated
      = Some (Return d, this')
    ∧ consistent d
    ∧ dimensionsOf (default store injected) (manifest d)
    ∧ nations (manifest d) = []
    ∧ Forall (λ b, wellFormed b = true) (mapBin d)
    ∧ Forall (λ b, wellFormed b = true) (map4xBin d)
    ∧ Forall (λ b, wellFormed b = true) (map16xBin d).
Proof.
  unfold Loader.getMapData. rewrite String.eqb_refl. cbn [negb].
  unfold Loader.new. cbn [maps params]. rewrite lookup_empty.
  set (p := default store injected).
  destruct (generateTerrainBin_wf M {| params := injected; maps := ∅ |} store
              (width p) (height p) (seed p) (landThreshold p)) as (b1 & -> & Hl1 & Hwf1).
  destruct (generateTerrainBin_wf M {| params := injected; maps := ∅ |} store
              (width4x p) (height4x p) (seed p + 101) (landThreshold p))
    as (b2 & -> & Hl2 & Hwf2).
  destruct (generateTerrainBin_wf M {| params := injected; maps := ∅ |} store
              (width16x p) (height16x p) (seed p + 202) (landThreshold p))
    as (b3 & -> & Hl3 & Hwf3).
  cbn [mbind option_bind]. eexists _, _. split; [reflexivity |].
  unfold consistent, sized, dimensionsOf.
  cbn [mapBin map4xBin map16xBin manifest map map4x map16x md_width md_height nations].
  unfold generateNations. done.
Qed.

(** X13: a loader that has nothing cached returns a product whose three
    buffers have the sizes its manifest announces; the manifest carries the
    dimensions of the effective params and no nation. *)
Theorem getMapData_product_is_consistent
    (injected : option GeneratedParams) (store : GeneratedParams) :
  ∃ d this',
    Loader.getMapData M Generated (Loader.new injected) store Generated
      = Some (Return d, this')
    ∧ consistent d
    ∧ dimensionsOf (default store injected) (manifest d)
    ∧ nations (manifest d) = [].
Proof.
  destruct (getMapData_new injected store) as (d & this' & H1 & H2 & H3 & H4 & _).
  by exists d, this'.
Qed.

Variable fetchLoader : string → Outcome MapData.

(** X14: the loader of the client hands every map but the generated kind to
    the fetch loader, so the rejection of the generated loader is never
    reached through it; for the generated kind it returns, at every call,
    the product a loader built without params would return under the store
    of that moment, with the store's dimensions and cells that satisfy the
    bit invariants. *)
Theorem combined_getMapData (store : GeneratedParams) (m : string) :
  (m ≠ Generated →
   CombinedMapLoader.getMapData M Generated fetchLoader store m = Some (fetchLoader m))
  ∧ ∃ d,
      CombinedMapLoader.getMapData M Generated fetchLoader store Generated
        = Some (Return d)
      ∧ fst <$> Loader.getMapData M Generated (Loader.new None) store Generated
        = Some (Return d)
      ∧ consistent d
      ∧ dimensionsOf store (manifest d)
      ∧ Forall bitInvariants (mapBin d ++ map4xBin d ++ map16xBin d).
Proof.
  split.
  - intros Hm. unfold CombinedMapLoader.getMapData.
    by destruct (String.eqb_spec m Generated).
  - destruct (getMapData_new (Some store) store)
      as (d & this' & Hget & Hc & Hd & _ & Hw1 & Hw2 & Hw3).
    exists d. unfold CombinedMapLoader.getMapData. rewrite String.eqb_refl, Hget.
    split; [done |]. split.
    + revert Hget. unfold Loader.getMapData. rewrite String.eqb_refl. cbn [negb].
      unfold Loader.new. cbn [maps params default]. unfold id. rewrite lookup_empty.
      rewrite !(generateTerrainBin_params_ext M
                  {| params := Some store; maps := ∅ |} {| params := None; maps := ∅ |})
        by done.
      repeat match goal with
             | |- context [Loader.generateTerrainBin ?M ?t ?s ?w ?h ?sd ?lt] =>
                 destruct (Loader.generateTerrainBin M t s w h sd lt);
                 cbn [mbind option_bind]; [| done]
             end.
      by intros [= <- _].
    + split; [done |]. split; [done |].
      rewrite !Forall_app. repeat split;
        (eapply Forall_impl; [eassumption |]; intros c; apply wellFormed_invariants).
Qed.

End Products.

(** ** The order of numbers *)

Section NumberOrder.

Lemma SFcompare_antisym (a b : spec_float) :
  SFcompare b a = option_map CompOpp (SFcompare a b).
Proof.
  destruct a as [sa | sa | | sa ma ea], b as [sb | sb | | sb mb eb]; cbn;
    try done; try (by destruct sa); try (by destruct sb); try (by destruct sa, sb).
  destruct sa, sb; cbn; try done; rewrite (Z.compare_antisym ea eb);
    destruct (ea ?= eb); cbn; try done; f_equal.
  - by rewrite (Pos.compare_cont_antisym ma mb Eq).
  - by rewrite (Pos.compare_cont_antisym ma mb Eq).
Qed.

Lemma SFcompare_refl (a : spec_float) : a ≠ S754_nan → SFcompare a a = Some Eq.
Proof.
  destruct a as [s | s | | s m e]; cbn; try done; [by destruct s |].
  intros _. rewrite (Z.compare_refl e), (Pos.compare_cont_refl m Eq). by destruct s.
Qed.

Lemma SFcompare_Some (a b : spec_float) :
  a ≠ S754_nan → b ≠ S754_nan → ∃ c, SFcompare a b = Some c.
Proof. destruct a, b; cbn; intros; try done; by eexists. Qed.

Lemma is_nan_spec (x : float) : is_nan x = true ↔ Prim2SF x = S754_nan.
Proof.
  unfold is_nan. rewrite FloatAxioms.eqb_spec. unfold SFeqb. split.
  - intros H. destruct (Prim2SF x) as [s | s | | s m e] eqn:E; [| | done |];
      rewrite SFcompare_refl in H by done; done.
  - by intros ->.
Qed.

Lemma not_nan_spec (x : float) : is_nan x = false ↔ Prim2SF x ≠ S754_nan.
Proof. rewrite <- is_nan_spec. by destruct (is_nan x). Qed.

Lemma ltb_leb (x y : float) : (x <? y)%float = true → (x <=? y)%float = true.
Proof.
  rewrite FloatAxioms.ltb_spec, FloatAxioms.leb_spec. unfold SFltb, SFleb.
  by destruct (SFcompare _ _) as [[] |].
Qed.

Lemma not_ltb_leb (x y : float) :
  is_nan x = false → is_nan y = false →
  (x <? y)%float = false → (y <=? x)%float = true.
Proof.
  rewrite !not_nan_spec, FloatAxioms.ltb_spec, FloatAxioms.leb_spec. unfold SFltb, SFleb. intros Hx Hy.
  rewrite (SFcompare_antisym (Prim2SF x) (Prim2SF y)).
  destruct (SFcompare_Some _ _ Hx Hy) as [c ->]. by destruct c.
Qed.

Lemma leb_refl (x : float) : is_nan x = false → (x <=? x)%float = true.
Proof.
  rewrite not_nan_spec, FloatAxioms.leb_spec. unfold SFleb. intros Hx.
  by rewrite SFcompare_refl.
Qed.

End NumberOrder.

(** ** The parameter store *)

Section StoreProperties.

Import Num Store.

(** [clamp] lets NaN through and brings every other number between the
    bounds. *)
Lemma clamp_within (n lo hi : float) :
  is_nan lo = false → is_nan hi = false → (lo <=? hi)%float = true →
  within lo hi (clamp n lo hi) ∧ is_nan (clamp n lo hi) = is_nan n.
Proof.
  intros Hlo Hhi Hle.
  pose proof (leb_refl lo Hlo) as Hll. pose proof (leb_refl hi Hhi) as Hhh.
  assert (∀ y, is_nan y = false → (y <=? hi)%float = true →
               within lo hi (Math_max lo y) ∧ is_nan (Math_max lo y) = false) as Hmax.
  { intros y Hy Hyh. unfold Math_max. rewrite Hlo, Hy.
    destruct (lo <? y)%float eqn:H1.
    - split; [right; split; [by apply ltb_leb | done] | done].
    - destruct (y <? lo)%float eqn:H2; [split; [by right | done] |].
      destruct (get_sign lo); [| split; [by right | done]].
      split; [right; split; [by apply not_ltb_leb | done] | done]. }
  unfold clamp. destruct (is_nan n) eqn:Hn.
  - assert (Math_min hi n = n) as -> by (unfold Math_min; by rewrite Hhi, Hn).
    assert (Math_max lo n = n) as -> by (unfold Math_max; by rewrite Hlo, Hn).
    split; [by left | done].
  - assert (is_nan (Math_min hi n) = false ∧ (Math_min hi n <=? hi)%float = true)
      as [Hy Hyh].
    { unfold Math_min. rewrite Hhi, Hn.
      destruct (hi <? n)%float eqn:H1; [done |].
      pose proof (not_ltb_leb hi n Hhi Hn H1) as Hnh.
      destruct (n <? hi)%float; [done |]. by destruct (get_sign hi). }
    apply Hmax; done.
Qed.

Lemma floor_not_nan (n : float) : is_nan n = false → floor n ≠ WNaN.
Proof.
  rewrite not_nan_spec. unfold floor.
  destruct (Prim2SF n) as [s | s | | s m e]; try done. by destruct s.
Qed.

Lemma clampInt_range (n : float) (lo hi z : Z) :
  lo ≤ hi → clampInt n lo hi = Some z → lo ≤ z ≤ hi.
Proof.
  intros Hle. unfold clampInt, clampWhole. cbv zeta.
  destruct (floor n); intros; simplify_eq; lia.
Qed.

Lemma clampInt_defined (n : float) (lo hi : Z) :
  is_nan n = false → is_Some (clampInt n lo hi).
Proof.
  intros Hn%floor_not_nan. unfold clampInt, clampWhole. cbv zeta.
  destruct (floor n); [done | | |]; by eexists.
Qed.

Lemma nextInt_range (u : option float) (lo hi old z : Z) :
  lo ≤ hi → lo ≤ old ≤ hi → nextInt u lo hi old = Some z → lo ≤ z ≤ hi.
Proof.
  intros Hle Hold. destruct u as [n |]; cbn [nextInt].
  - by apply clampInt_range.
  - intros; simplify_eq; lia.
Qed.

Lemma nextFloat_within (u : option float) (lo hi old : float) :
  is_nan lo = false → is_nan hi = false → (lo <=? hi)%float = true →
  within lo hi old → within lo hi (nextFloat u lo hi old).
Proof.
  intros Hlo Hhi Hle Hold. destruct u as [n |]; cbn [nextFloat]; [| done].
  by apply clamp_within.
Qed.

Lemma toUint32_range (n : float) : 0 ≤ toUint32 n < 2 ^ 32.
Proof.
  unfold toUint32. destruct (floor n); try lia.
  unfold JS.ushr, JS.ToUint32. rewrite Z.shiftr_0_r. apply Z.mod_pos_bound. lia.
Qed.

(** What [set] computes keeps the ranges and copies the dimensions. *)
Lemma next_inRange (p q : GeneratedParams) (u : Update) :
  inRange p → next p u = Some q → inRange q ∧ sameDimensions q p.
Proof.
  intros [H1 H2 H3 H4 H5 H6 H7 H8 H9]. unfold next.
  destruct (nextInt (u_octaves u) 1 12 (octaves p)) as [o |] eqn:Eo; [| done].
  destruct (nextInt (u_minLandRegionSize u) 0 10000 (minLandRegionSize p))
    as [ml |] eqn:El; [| done].
  destruct (nextInt (u_minWaterRegionSize u) 0 10000 (minWaterRegionSize p))
    as [mw |] eqn:Ew; [| done].
  destruct (nextInt (u_smoothingRadius u) 0 2 (smoothingRadius p))
    as [sr |] eqn:Er; [| done].
  cbn [mbind option_bind]. intros [= <-]. split; [| done].
  split; cbn.
  - exact (nextInt_range _ 1 12 _ _ ltac:(lia) H1 Eo).
  - by apply nextFloat_within.
  - by apply nextFloat_within.
  - by apply nextFloat_within.
  - destruct (u_seed u); [apply toUint32_range | done].
  - by apply nextFloat_within.
  - exact (nextInt_range _ 0 10000 _ _ ltac:(lia) H7 El).
  - exact (nextInt_range _ 0 10000 _ _ ltac:(lia) H8 Ew).
  - exact (nextInt_range _ 0 2 _ _ ltac:(lia) H9 Er).
Qed.

(** An update whose octaves, region sizes and smoothing radius are not NaN
    is accepted. *)
Lemma next_defined (p : GeneratedParams) (u : Update) :
  whole u → is_Some (next p u).
Proof.
  intros Hu. unfold whole in Hu. unfold next.
  assert (∀ n lo hi old,
            n ∈ [u_octaves u; u_minLandRegionSize u; u_minWaterRegionSize u;
                 u_smoothingRadius u] → is_Some (nextInt n lo hi old)) as Hint.
  { intros [x |] lo hi old Hn; cbn [nextInt]; [| by eexists].
    apply clampInt_defined. by apply (Hu _ Hn). }
  destruct (Hint (u_octaves u) 1 12 (octaves p)) as [o ->];
    [rewrite !elem_of_cons; tauto |].
  destruct (Hint (u_minLandRegionSize u) 0 10000 (minLandRegionSize p)) as [ml ->];
    [rewrite !elem_of_cons; tauto |].
  destruct (Hint (u_minWaterRegionSize u) 0 10000 (minWaterRegionSize p)) as [mw ->];
    [rewrite !elem_of_cons; tauto |].
  destruct (Hint (u_smoothingRadius u) 0 2 (smoothingRadius p)) as [sr ->];
    [rewrite !elem_of_cons; tauto |].
  cbn [mbind option_bind]. by eexists.
Qed.

End StoreProperties.

Section StoreRuns.

Import Num Store.

Lemma initial_inv : storeInv initial.
Proof.
  split; [| done | constructor].
  split; cbn; try lia; right; done.
Qed.

Lemma set_inv (st st' : t) (u : Update) (r : GeneratedParams) (calls : list Call) :
  storeInv st → set st u = Some (r, st', calls) → storeInv st' ∧ r = get st'.
Proof.
  intros [Hr Hd Hs]. unfold set.
  destruct (next (current st) u) as [q |] eqn:Hq; [| done]. cbn [mbind option_bind].
  destruct (next_inRange _ _ _ Hr Hq) as [Hrq Hdq].
  destruct (negb _); intros [= <- <- <-].
  - split; [| done]. split; [exact Hrq | | exact Hs]. cbn [current].
    unfold sameDimensions in *.
    destruct Hdq as (-> & -> & -> & -> & -> & ->). exact Hd.
  - split; [by split | done].
Qed.

Lemma step_inv (st st' : t) (op : Op) (calls : list Call) :
  storeInv st → step st op = Some (st', calls) → storeInv st'.
Proof.
  intros Hinv. destruct op as [u | | fn | fn]; cbn [step].
  - destruct (set st u) as [[[r st1] c1] |] eqn:Hset; [| done].
    cbn. intros [= <- <-]. by destruct (set_inv _ _ _ _ _ Hinv Hset).
  - intros [= <- <-]. destruct Hinv as [_ _ Hs]. unfold reset. cbn [fst snd].
    destruct initial_inv as [Hr Hd _]. by split.
  - intros [= <- <-]. destruct Hinv as [Hr Hd Hs]. split; [done | done |].
    cbn [subscribers]. case_bool_decide as Hfn; [done |].
    apply NoDup_app. split; [done |]. split; [| apply NoDup_singleton].
    intros x Hx ->%list_elem_of_singleton. done.
  - intros [= <- <-]. destruct Hinv as [Hr Hd Hs]. split; [done | done |].
    cbn [unsubscribe subscribers]. by apply NoDup_filter.
Qed.

Lemma run_inv (ops : list Op) (st st' : t) (calls : list Call) :
  storeInv st → run st ops = Some (st', calls) → storeInv st'.
Proof.
  revert st calls. induction ops as [| op ops IH]; intros st calls Hinv; cbn [run].
  - by intros [= <- <-].
  - destruct (step st op) as [[st1 c1] |] eqn:Hstep; [| done]. cbn [mbind option_bind].
    destruct (run st1 ops) as [[st2 c2] |] eqn:Hrun; [| done]. cbn [mbind option_bind].
    intros [= <- <-]. eapply IH; [| exact Hrun]. by eapply step_inv.
Qed.

Lemma step_defined (st : t) (op : Op) : acceptable op → is_Some (step st op).
Proof.
  destruct op as [u | | fn | fn]; cbn [step acceptable]; intros Hop; try by eexists.
  unfold set. destruct (next_defined (current st) u Hop) as [q ->].
  cbn [mbind option_bind]. destruct (negb _); by eexists.
Qed.

Lemma run_defined (ops : list Op) (st : t) : Forall acceptable ops → is_Some (run st ops).
Proof.
  intros Hops. revert st. induction Hops as [| op ops Hop _ IH]; intros st; cbn [run].
  - by eexists.
  - destruct (step_defined st op Hop) as [[st1 c1] ->]. cbn [mbind option_bind].
    destruct (IH st1) as [[st2 c2] ->]. by eexists.
Qed.

(** X15: whatever calls are made on the singleton store, in any order and
    number, with updates that give no NaN to the four integer fields, its
    params stay in their ranges (octaves in 1..12, the seed a 32-bit
    unsigned value, the region sizes in 0..10000, the smoothing radius in
    0..2, each of the four other numbers between its bounds or NaN), its
    six dimensions stay the default ones, and no callback is registered
    twice. *)
Theorem store_keeps_its_ranges (ops : list Op) :
  Forall acceptable ops →
  ∃ st calls, run initial ops = Some (st, calls) ∧ storeInv st.
Proof.
  intros Hops. destruct (run_defined ops initial Hops) as [[st calls] Hrun].
  exists st, calls. split; [done |]. by eapply run_inv; [apply initial_inv |].
Qed.

(** [===] holds between params and themselves unless a number is NaN. *)
Lemma generatedParamsEqual_refl (p : GeneratedParams) :
  noNaN p → generatedParamsEqual p p = true.
Proof.
  intros (H1 & H2 & H3 & H4). unfold generatedParamsEqual.
  unfold is_nan in H1, H2, H3, H4. apply negb_false_iff in H1, H2, H3, H4.
  rewrite H1, H2, H3, H4, !Z.eqb_refl, !Nat.eqb_refl, eqb_reflx. done.
Qed.

Lemma generatedParamsEqual_NaN (p q : GeneratedParams) :
  hasNaN q → generatedParamsEqual p q = false.
Proof.
  assert (∀ x y, is_nan y = true → (x =? y)%float = false) as Hnan.
  { intros x y Hy%is_nan_spec. rewrite FloatAxioms.eqb_spec, Hy. unfold SFeqb.
    by destruct (Prim2SF x). }
  unfold generatedParamsEqual.
  intros [H | [H | [H | H]]]; rewrite (Hnan _ _ H), ?andb_false_r; done.
Qed.

Lemma nextInt_idem (u : option float) (lo hi old z : Z) :
  nextInt u lo hi old = Some z → nextInt u lo hi z = Some z.
Proof. destruct u; cbn [nextInt]; [done | by intros [= ->]]. Qed.

Lemma nextFloat_idem (u : option float) (lo hi old : float) :
  nextFloat u lo hi (nextFloat u lo hi old) = nextFloat u lo hi old.
Proof. by destruct u. Qed.

Lemma next_idem (p q : GeneratedParams) (u : Update) :
  next p u = Some q → next q u = Some q.
Proof.
  unfold next.
  destruct (nextInt (u_octaves u) 1 12 (octaves p)) as [o |] eqn:Eo; [| done].
  destruct (nextInt (u_minLandRegionSize u) 0 10000 (minLandRegionSize p))
    as [ml |] eqn:El; [| done].
  destruct (nextInt (u_minWaterRegionSize u) 0 10000 (minWaterRegionSize p))
    as [mw |] eqn:Ew; [| done].
  destruct (nextInt (u_smoothingRadius u) 0 2 (smoothingRadius p))
    as [sr |] eqn:Er; [| done].
  cbn [mbind option_bind]. intros [= <-].
  cbn [octaves minLandRegionSize minWaterRegionSize smoothingRadius lacunarity
       persistence landThreshold seed contrastGamma width height width4x height4x
       width16x height16x ridgeAccent].
  rewrite (nextInt_idem _ _ _ _ _ Eo), (nextInt_idem _ _ _ _ _ El),
    (nextInt_idem _ _ _ _ _ Ew), (nextInt_idem _ _ _ _ _ Er).
  cbn [mbind option_bind]. rewrite !nextFloat_idem.
  by destruct (u_seed u), (u_ridgeAccent u).
Qed.

(** X16: a [set] repeated with the same update is silent: it returns the
    snapshot the first call returned, leaves the store as the first call
    left it and calls no subscriber, provided the store holds no NaN. *)
Theorem set_twice_is_silent
    (st st' : t) (u : Update) (r : GeneratedParams) (calls : list Call) :
  set st u = Some (r, st', calls) →
  noNaN (current st') →
  set st' u = Some (r, st', []).
Proof.
  unfold set. destruct (next (current st) u) as [q |] eqn:Hq; [| done].
  cbn [mbind option_bind].
  destruct (negb (generatedParamsEqual (current st) q)) eqn:Hchanged.
  - intros [= <- <- <-] Hnan. cbn [current] in *.
    rewrite (next_idem _ _ _ Hq). cbn [mbind option_bind].
    by rewrite generatedParamsEqual_refl.
  - intros [= <- <- <-] _. rewrite Hq. cbn [mbind option_bind]. by rewrite Hchanged.
Qed.

(** X17: a NaN in the store defeats the comparison of [set]: whenever the
    params [set] computes hold a NaN, it stores them and calls every
    subscriber, whether or not the update changes a field. *)
Theorem set_notifies_on_NaN (st : t) (u : Update) (q : GeneratedParams) :
  next (current st) u = Some q →
  hasNaN q →
  set st u = Some (q, {| current := q; subscribers := subscribers st |},
                   (λ fn, (fn, q)) <$> subscribers st).
Proof.
  intros Hq Hnan. unfold set. rewrite Hq. cbn [mbind option_bind].
  by rewrite generatedParamsEqual_NaN.
Qed.




Variable M : MathLib.
Variable Generated : string.
Variable fetchLoader : string → Outcome MapData.

(** X19: whatever has been done with the store, the loader of the client
    returns for the generated kind a product with the default dimensions:
    no call on the store changes the size of the generated maps. *)
Theorem client_maps_keep_default_dimensions
    (ops : list Op) (st : t) (calls : list Call) :
  run initial ops = Some (st, calls) →
  ∃ d, CombinedMapLoader.getMapData M Generated fetchLoader (get st) Generated
         = Some (Return d)
       ∧ consistent d
       ∧ dimensionsOf DefaultGeneratedParams (manifest d).
Proof.
  intros Hrun. destruct (run_inv _ _ _ _ initial_inv Hrun) as [_ Hd _].
  destruct (getMapData_new M Generated (Some (get st)) (get st))
    as (d & this' & Hget & Hc & Hdim & _).
  exists d. unfold CombinedMapLoader.getMapData. rewrite String.eqb_refl, Hget.
  split; [done |]. split; [done |].
  cbn [default] in Hdim. unfold id in Hdim. unfold get in *.
  unfold dimensionsOf, sameDimensions in *.
  destruct Hd as (H1 & H2 & H3 & H4 & H5 & H6).
  destruct Hdim as (G1 & G2 & G3 & G4 & G5 & G6).
  repeat split; congruence.
Qed.

End StoreRuns.

(** ** Instances of the conditional theorems on the passes and the store *)

Lemma coastField_bytes : bytes coastField.
Proof. unfold bytes, coastField. repeat (constructor; [lia |]). constructor. Qed.

Lemma plateauField_bytes : bytes plateauField.
Proof. unfold bytes, plateauField. repeat (constructor; [lia |]). constructor. Qed.

Lemma plateauField_flat : landMagnitudesIn 7 7 plateauField.
Proof.
  unfold landMagnitudesIn, plateauField.
  repeat (constructor; [intros _; vm_compute; split; discriminate |]). constructor.
Qed.

Lemma coastField_magnitudes : landMagnitudesIn 2 22 coastField.
Proof.
  unfold landMagnitudesIn, coastField.
  repeat (constructor; [intros H; vm_compute in H |- *; (discriminate || (split; discriminate)) |]).
  constructor.
Qed.

Lemma sampleUpdate_whole : whole sampleUpdate.
Proof.
  intros n Hn x Hx. cbn in Hn. rewrite !elem_of_cons, elem_of_nil in Hn.
  destruct Hn as [-> | [-> | [-> | [-> | []]]]]; simplify_eq; reflexivity.
Qed.

Lemma sampleOps_acceptable : Forall acceptable sampleOps.
Proof.
  unfold sampleOps. repeat constructor. exact sampleUpdate_whole.
Qed.

Lemma magnitude_passes_keep_flags_witness :
  bytes coastField
  ∧ Forall2 (λ c c', 0 ≤ c' < 256 ∧ Cell.isLand c' = Cell.isLand c
                     ∧ Cell.isShoreline c' = Cell.isShoreline c
                     ∧ Cell.isOcean c' = Cell.isOcean c
                     ∧ (Cell.isLand c = false → c' = c))
      coastField
      (Terrain.ridgeAccentPass (Terrain.smoothMagnitude coastField 3 2 1) 3 2 true).
Proof.
  split; [exact coastField_bytes |].
  exact (magnitude_passes_keep_flags coastField 3 2 1 true coastField_bytes).
Defined.

Lemma ridgeAccentPass_only_boosts_witness :
  bytes coastField
  ∧ Forall2 (λ c c', (c' = c ∨ (Cell.isLand c = true ∧ c' = boosted c))
                     ∧ Cell.magnitude c ≤ Cell.magnitude c'
                       ≤ Z.min 31 (Cell.magnitude c + 2))
      coastField (Terrain.ridgeAccentPass coastField 3 2 true).
Proof.
  split; [exact coastField_bytes |].
  exact (ridgeAccentPass_only_boosts coastField 3 2 true coastField_bytes).
Defined.

Lemma smoothMagnitude_within_range_witness :
  bytes coastField ∧ landMagnitudesIn 2 22 coastField
  ∧ landMagnitudesIn 2 22 (Terrain.smoothMagnitude coastField 3 2 1).
Proof.
  split; [exact coastField_bytes |]. split; [exact coastField_magnitudes |].
  exact (smoothMagnitude_within_range coastField 3 2 1 2 22
           coastField_bytes coastField_magnitudes).
Defined.

Lemma markShoreline_cells_witness :
  bytes coastField
  ∧ Terrain.inBounds 3 2 1 0 = true
  ∧ JS.rd coastField (Terrain.index 3 1 0) = Some 140
  ∧ length (Terrain.markShoreline coastField 3 2) = length coastField
  ∧ JS.rd (Terrain.markShoreline coastField 3 2) (Terrain.index 3 1 0)
    = Some (if Cell.isLand 140 && oceanNeighbour coastField 3 2 (1, 0)
            then Z.lor 140 64 else 140).
Proof.
  split; [exact coastField_bytes |]. split; [reflexivity |]. split; [reflexivity |].
  exact (markShoreline_cells coastField 3 2 1 0 140 coastField_bytes
           eq_refl eq_refl).
Defined.

Lemma floodOceans_marks_border_connected_water_witness :
  bytes coastField
  ∧ ∃ out', Terrain.floodOceans coastField 3 2 = Some out'
      ∧ length out' = length coastField
      ∧ ∀ x y c,
          Terrain.inBounds 3 2 x y = true →
          JS.rd coastField (Terrain.index 3 x y) = Some c →
          (oceanCell coastField 3 2 (x, y)
           ∧ JS.rd out' (Terrain.index 3 x y) = Some (Z.lor c 32))
          ∨ (¬ oceanCell coastField 3 2 (x, y)
             ∧ JS.rd out' (Terrain.index 3 x y) = Some c).
Proof.
  split; [exact coastField_bytes |].
  exact (floodOceans_marks_border_connected_water coastField 3 2 coastField_bytes).
Defined.

Lemma removeSmallRegions_disabled_witness :
  1 ≤ 1 ∧ 0 ≤ 1
  ∧ Terrain.removeSmallRegions [1; 0; 0; 1] 2 2 1 0 = Some [1; 0; 0; 1].
Proof.
  split; [lia |]. split; [lia |].
  exact (removeSmallRegions_disabled 2 2 [1; 0; 0; 1] 1 0 ltac:(lia) ltac:(lia)).
Defined.

Lemma smoothMagnitude_flat_witness :
  bytes plateauField ∧ landMagnitudesIn 7 7 plateauField
  ∧ Terrain.smoothMagnitude plateauField 3 1 2 = plateauField.
Proof.
  split; [exact plateauField_bytes |]. split; [exact plateauField_flat |].
  exact (smoothMagnitude_flat plateauField 3 1 2 7 plateauField_bytes plateauField_flat).
Defined.

Lemma ridgeAccentPass_flat_witness :
  bytes plateauField ∧ landMagnitudesIn 7 7 plateauField ∧ 7 ≤ 7 + 1
  ∧ Terrain.ridgeAccentPass plateauField 3 1 true = plateauField.
Proof.
  split; [exact plateauField_bytes |]. split; [exact plateauField_flat |].
  split; [lia |].
  exact (ridgeAccentPass_flat plateauField 3 1 true 7 7
           plateauField_bytes plateauField_flat ltac:(lia)).
Defined.

Lemma store_keeps_its_ranges_witness :
  Forall acceptable sampleOps
  ∧ ∃ st calls, Store.run Store.initial sampleOps = Some (st, calls) ∧ storeInv st.
Proof.
  split; [exact sampleOps_acceptable |].
  exact (store_keeps_its_ranges sampleOps sampleOps_acceptable).
Defined.

Lemma sampleUpdate_set :
  Store.set Store.initial sampleUpdate
  = Some (sampleParams, {| Store.current := sampleParams; Store.subscribers := [] |}, []).
Proof. vm_compute. reflexivity. Qed.

Lemma sampleParams_noNaN : noNaN sampleParams.
Proof. repeat split. Qed.

Lemma set_twice_is_silent_witness :
  Store.set Store.initial sampleUpdate
  = Some (sampleParams, {| Store.current := sampleParams; Store.subscribers := [] |}, [])
  ∧ noNaN (Store.current {| Store.current := sampleParams; Store.subscribers := [] |})
  ∧ Store.set {| Store.current := sampleParams; Store.subscribers := [] |} sampleUpdate
    = Some (sampleParams, {| Store.current := sampleParams; Store.subscribers := [] |}, []).
Proof.
  split; [exact sampleUpdate_set |]. split; [exact sampleParams_noNaN |].
  exact (set_twice_is_silent Store.initial _ sampleUpdate sampleParams []
           sampleUpdate_set sampleParams_noNaN).
Defined.

Lemma nanUpdate_next :
  Store.next (Store.current (Store.subscribe Store.initial 1).1) nanUpdate = Some nanParams.
Proof. vm_compute. reflexivity. Qed.

Lemma nanParams_hasNaN : hasNaN nanParams.
Proof. right. right. left. reflexivity. Qed.

Lemma set_notifies_on_NaN_witness :
  Store.next (Store.current (Store.subscribe Store.initial 1).1) nanUpdate = Some nanParams
  ∧ hasNaN nanParams
  ∧ Store.set (Store.subscribe Store.initial 1).1 nanUpdate
    = Some (nanParams,
            {| Store.current := nanParams;
               Store.subscribers := Store.subscribers (Store.subscribe Store.initial 1).1 |},
            (λ fn, (fn, nanParams))
              <$> Store.subscribers (Store.subscribe Store.initial 1).1).
Proof.
  split; [exact nanUpdate_next |]. split; [exact nanParams_hasNaN |].
  exact (set_notifies_on_NaN _ nanUpdate nanParams nanUpdate_next nanParams_hasNaN).
Defined.




Lemma sampleOps_run :
  Store.run Store.initial [Store.OpSet sampleUpdate]
  = Some ({| Store.current := sampleParams; Store.subscribers := [] |}, []).
Proof. vm_compute. reflexivity. Qed.

Lemma client_maps_keep_default_dimensions_witness :
  Store.run Store.initial [Store.OpSet sampleUpdate]
  = Some ({| Store.current := sampleParams; Store.subscribers := [] |}, [])
  ∧ ∃ d, CombinedMapLoader.getMapData RefMath.engine "Generated" (λ _, Throw "no such map")
           (Store.get {| Store.current := sampleParams; Store.subscribers := [] |})
           "Generated"
         = Some (Return d)
       ∧ consistent d
       ∧ dimensionsOf DefaultGeneratedParams (manifest d).
Proof.
  split; [exact sampleOps_run |].
  exact (client_maps_keep_default_dimensions RefMath.engine "Generated"
           (λ _, Throw "no such map") _ _ _ sampleOps_run).
Defined.

(** ** The search of the region pruning finds the component of its seed *)

Section Paths.

Variable ok : Z * Z → bool.

Lemma path_end (a b : Z * Z) : Grid.path ok a b → ok b = true.
Proof. induction 1; done. Qed.

Lemma path_snoc (a b d : Z * Z) :
  Grid.path ok a b → d ∈ Terrain.dirs → ok (Grid.neighbour b d) = true →
  Grid.path ok a (Grid.neighbour b d).
Proof.
  intros Hp Hd Hn. induction Hp as [c Hc | c d' c' Hc Hd' Hp IH].
  - eapply Grid.path_step; [done | exact Hd |]. by constructor.
  - eapply Grid.path_step; [done | exact Hd' |]. by apply IH.
Qed.

Lemma path_trans (a b c : Z * Z) :
  Grid.path ok a b → Grid.path ok b c → Grid.path ok a c.
Proof.
  intros Hab Hbc. induction Hab as [a Ha | a d b Ha Hd Hab IH]; [done |].
  eapply Grid.path_step; [done | exact Hd |]. by apply IH.
Qed.

Lemma path_sym (a b : Z * Z) : Grid.path ok a b → Grid.path ok b a.
Proof.
  intros Hab. induction Hab as [a Ha | a d b Ha Hd Hab IH]; [by constructor |].
  destruct (neighbour_back a d Hd) as (d' & Hd' & Hback).
  assert (Grid.path ok (Grid.neighbour a d) a) as Hstep.
  { rewrite <- Hback at 2. apply path_snoc; [| done | by rewrite Hback].
    constructor. by eapply path_start. }
  by eapply path_trans.
Qed.

Lemma path_within (ok' : Z * Z → bool) (a b : Z * Z) :
  (∀ c, Grid.path ok a c → ok' c = true) →
  Grid.path ok a b → Grid.path ok' a b.
Proof.
  intros Hok Hab. induction Hab as [a Ha | a d b Ha Hd Hab IH].
  - constructor. apply Hok. by constructor.
  - eapply Grid.path_step; [| exact Hd |].
    + apply Hok. by constructor.
    + apply IH. intros c Hc. apply Hok. by eapply Grid.path_step.
Qed.

End Paths.

Section Search.

Import Terrain.

Variables (grid : list Z) (width height : Z) (target : Z) (s : Z * Z).
Variable visited0 : list Z.

(** No cell of the component of the seed is marked when the search
    starts. *)
Hypothesis fresh : ∀ c,
  component grid width height target s c → markedAt visited0 width c = false.

Lemma outside_inBounds (x y : Z) :
  outside width height x y = negb (inBounds width height x y).
Proof. unfold outside, inBounds. lia. Qed.

Lemma markedAt_mark (visited : list Z) (c : Z * Z) (v : Z) :
  JS.rd visited (index width c.1 c.2) = Some v →
  markedAt (JS.wr visited (index width c.1 c.2) 1) width c = true.
Proof. intros Hv. unfold markedAt. by rewrite (rd_wr_eq _ _ _ v Hv). Qed.

Lemma markedAt_other (visited : list Z) (c c' : Z * Z) :
  inBounds width height c.1 c.2 = true →
  inBounds width height c'.1 c'.2 = true →
  c' ≠ c →
  markedAt (JS.wr visited (index width c.1 c.2) 1) width c' = markedAt visited width c'.
Proof.
  intros Hin Hin' Hne. unfold markedAt. rewrite rd_wr_ne; [done |].
  intros Heq. destruct (index_inj _ _ _ _ _ _ Hin Hin' Heq) as [? ?].
  destruct c, c'. simplify_eq/=.
Qed.

Lemma binary_wr (visited : list Z) (i : Z) :
  Forall binary visited → Forall binary (JS.wr visited i 1).
Proof.
  intros Hv. unfold JS.wr. destruct (i <? 0); [done |].
  apply Forall_insert; [done | by right].
Qed.

(** One direction of the neighbour loop. *)
Lemma bfsVisit_inv (visited : list Z) (cells q : list (Z * Z)) (c d : Z * Z)
    (ds : list (Z * Z)) :
  bfsInv grid width height target s visited0 c ds visited cells q →
  c ∈ cells → d ∈ dirs →
  bfsInv grid width height target s visited0 c (ds ++ [d])
    (bfsVisit grid width height target c.1 c.2 (visited, q) d).1 cells
    (bfsVisit grid width height target c.1 c.2 (visited, q) d).2.
Proof.
  intros [H1 Hv H2 H3 H4 H5 H6] Hc Hd.
  assert (component grid width height target s c) as Hcomp.
  { apply (Forall_forall (component grid width height target s) (cells ++ q));
      [done | apply elem_of_app; by left]. }
  (* the invariant on the neighbours, once the new one is accounted for *)
  assert (∀ q1, (∀ x, x ∈ cells ++ q → x ∈ cells ++ q1) →
                (holds grid width height target (Grid.neighbour c d) = true →
                 Grid.neighbour c d ∈ cells ++ q1) →
                ∀ c0 d0, c0 ∈ cells → d0 ∈ dirs → (c0 = c → d0 ∈ ds ++ [d]) →
                  holds grid width height target (Grid.neighbour c0 d0) = true →
                  Grid.neighbour c0 d0 ∈ cells ++ q1) as Hclosed.
  { intros q1 Hmono Hnew c0 d0 Hc0 Hd0 Hcur Hh.
    destruct (decide (c0 = c ∧ d0 = d)) as [[-> ->] | Hne]; [by apply Hnew |].
    apply Hmono. apply H6; [done | done | | done].
    intros ->. specialize (Hcur eq_refl).
    apply elem_of_app in Hcur as [? | ->%list_elem_of_singleton]; [done | tauto]. }
  assert (holds grid width height target (Grid.neighbour c d) = true →
          component grid width height target s (Grid.neighbour c d)) as Hnext
    by (intros Hh; by apply path_snoc).
  unfold bfsVisit. destruct d as [dx dy].
  set (n := (c.1 + dx, c.2 + dy)).
  change (Grid.neighbour c (dx, dy)) with n in Hclosed, Hnext.
  rewrite outside_inBounds.
  destruct (inBounds width height (c.1 + dx) (c.2 + dy)) eqn:Hin; cbn [negb fst snd].
  - destruct (JS.same (JS.rd visited (index width (c.1 + dx) (c.2 + dy))) 1) eqn:Hm;
      cbn [fst snd].
    + (* already marked *)
      split; try done. apply Hclosed; [done |]. intros Hh.
      destruct (proj1 (H2 n Hin) Hm) as [H0 | ?]; [| done].
      rewrite fresh in H0; [done |]. by apply Hnext.
    + destruct (JS.same (JS.rd grid (index width (c.1 + dx) (c.2 + dy))) target) eqn:Hg;
        cbn [fst snd].
      * (* a new cell of the component *)
        assert (holds grid width height target n = true) as Hh
          by (unfold holds, n; cbn [fst snd]; by rewrite Hin, Hg).
        assert (component grid width height target s n) as Hn by (by apply Hnext).
        assert (n ∉ cells ++ q) as Hfresh.
        { intros Hn'. assert (markedAt visited width n = true) as Hm'
            by (apply H2; [done | by right]).
          unfold markedAt, n in Hm'. cbn [fst snd] in Hm'. congruence. }
        apply same_Some, rd_Some in Hg. rewrite <- H1 in Hg.
        destruct (rd_in_range visited _ Hg) as [v Hrd].
        assert (∀ x, x ∈ cells ++ q ++ [n] ↔ x ∈ cells ++ q ∨ x = n) as Hsnoc.
        { intros x. rewrite app_assoc, elem_of_app, list_elem_of_singleton. tauto. }
        change (JS.wr visited (index width (c.1 + dx) (c.2 + dy)) 1)
          with (JS.wr visited (index width n.1 n.2) 1).
        split.
        -- by rewrite length_wr.
        -- by apply binary_wr.
        -- intros c0 Hin0. rewrite Hsnoc. destruct (decide (c0 = n)) as [-> | Hne].
           ++ rewrite (markedAt_mark visited n v Hrd). tauto.
           ++ rewrite (markedAt_other visited n c0 Hin Hin0 Hne), (H2 c0 Hin0). tauto.
        -- rewrite app_assoc. apply Forall_app. split; [done |]. by constructor.
        -- rewrite app_assoc. apply NoDup_app. split; [done |].
           split; [| apply NoDup_singleton].
           intros x Hx ->%list_elem_of_singleton. done.
        -- apply Hsnoc. by left.
        -- apply Hclosed; [intros x Hx; apply Hsnoc; by left |].
           intros _. apply Hsnoc. by right.
      * (* the neighbour holds something else *)
        split; try done. apply Hclosed; [done |].
        unfold holds, n. cbn [fst snd]. by rewrite Hin, Hg.
  - (* outside the grid *)
    split; try done. apply Hclosed; [done |].
    unfold holds, n. cbn [fst snd]. by rewrite Hin.
Qed.

Lemma bfsVisit_fold_inv (l : list (Z * Z)) (visited : list Z) (cells q : list (Z * Z))
    (c : Z * Z) (ds : list (Z * Z)) :
  bfsInv grid width height target s visited0 c ds visited cells q →
  c ∈ cells → Forall (λ d, d ∈ dirs) l →
  bfsInv grid width height target s visited0 c (ds ++ l)
    (fold_left (bfsVisit grid width height target c.1 c.2) l (visited, q)).1 cells
    (fold_left (bfsVisit grid width height target c.1 c.2) l (visited, q)).2.
Proof.
  intros Hinv Hc Hl. revert visited q ds Hinv.
  induction Hl as [| d l Hd _ IH]; intros visited q ds Hinv; cbn [fold_left].
  - by rewrite app_nil_r.
  - pose proof (bfsVisit_inv visited cells q c d ds Hinv Hc Hd) as Hstep.
    destruct (bfsVisit grid width height target c.1 c.2 (visited, q) d) as [v1 q1].
    replace (ds ++ d :: l) with ((ds ++ [d]) ++ l) by (by rewrite <- app_assoc).
    by apply IH.
Qed.

(** Taking the head of the queue, and putting it back among the cells
    whose neighbours are all seen. *)
Lemma bfsInv_pop (visited : list Z) (cells q : list (Z * Z)) (c cur : Z * Z) :
  bfsInv grid width height target s visited0 cur dirs visited cells (c :: q) →
  bfsInv grid width height target s visited0 c [] visited (cells ++ [c]) q.
Proof.
  intros [H1 Hv H2 H3 H4 H5 H6].
  assert ((cells ++ [c]) ++ q = cells ++ c :: q) as Heq by (by rewrite <- app_assoc).
  split; rewrite ?Heq; try done.
  intros c0 d0 Hc0 Hd0 Hcur Hh.
  apply elem_of_app in Hc0 as [Hc0 | ->%list_elem_of_singleton].
  - by apply H6.
  - by specialize (Hcur eq_refl) as ?%elem_of_nil.
Qed.

Lemma bfsInv_done (visited : list Z) (cells q : list (Z * Z)) (c cur : Z * Z) :
  bfsInv grid width height target s visited0 c ([] ++ dirs) visited cells q →
  bfsInv grid width height target s visited0 cur dirs visited cells q.
Proof.
  intros [H1 Hv H2 H3 H4 H5 H6]. split; try done.
  intros c0 d0 Hc0 Hd0 _ Hh. by apply H6.
Qed.

Lemma bfsLoop_inv (fuel : nat) (visited : list Z) (q cells : list (Z * Z)) (size : Z)
    (cur : Z * Z) (r : list Z * Z * list (Z * Z)) :
  bfsInv grid width height target s visited0 cur dirs visited cells q →
  bfsLoop grid width height fuel target visited q cells size = Some r →
  bfsInv grid width height target s visited0 cur dirs r.1.1 r.2 []
  ∧ r.1.2 - Z.of_nat (length r.2) = size - Z.of_nat (length cells).
Proof.
  revert visited q cells size cur.
  induction fuel as [| fuel IH]; intros visited q cells size cur Hinv;
    destruct q as [| [cx cy] q]; cbn [bfsLoop]; try done;
    try (by intros [= <-]).
  pose proof (bfsVisit_fold_inv dirs visited (cells ++ [(cx, cy)]) q (cx, cy) []
                (bfsInv_pop _ _ _ _ _ Hinv)
                ltac:(apply elem_of_app; right; by apply list_elem_of_singleton)
                ltac:(by apply Forall_forall)) as Hfold.
  cbn [fst snd] in Hfold.
  destruct (fold_left (bfsVisit grid width height target cx cy) dirs (visited, q))
    as [v1 q1].
  intros Hr. apply (IH _ _ _ _ cur) in Hr as [Hfinal Hsize].
  - split; [done |]. rewrite Hsize, length_app. cbn [length]. lia.
  - by eapply bfsInv_done.
Qed.

(** When the queue is empty the cells are the component. *)
Lemma bfsInv_complete (visited : list Z) (cells : list (Z * Z)) (cur c : Z * Z) :
  bfsInv grid width height target s visited0 cur dirs visited cells [] →
  component grid width height target s c → c ∈ cells.
Proof.
  intros [_ _ _ _ _ H5 H6]. rewrite app_nil_r in H5, H6.
  assert (∀ a b, Grid.path (holds grid width height target) a b →
                 a ∈ cells → b ∈ cells) as Hreach.
  { intros a b Hp. induction Hp as [a Ha | a d b Ha Hd Hp IH]; [done |].
    intros Ha'. apply IH. apply H6; [done | done | done |].
    by eapply path_start. }
  intros Hc. by eapply Hreach.
Qed.

End Search.

Section SearchTheorem.

Import Terrain.

(** The search returns, in a state that satisfies the invariant with an
    empty queue. *)
Lemma bfs_runs (grid visited : list Z) (width height : Z) (x y target : Z) :
  length visited = length grid →
  Forall binary visited →
  holds grid width height target (x, y) = true →
  (∀ c, component grid width height target (x, y) c → markedAt visited width c = false) →
  ∃ visited' cells,
    bfs grid width height visited x y target
      = Some (visited', Z.of_nat (length cells), cells)
    ∧ bfsInv grid width height target (x, y) visited (x, y) dirs visited' cells [].
Proof.
  intros Hlen Hbin Hseed Hfresh.
  pose proof Hseed as Hs. unfold holds in Hs. cbn [fst snd] in Hs.
  apply andb_true_iff in Hs as [Hin Hg].
  apply same_Some in Hg. pose proof (rd_Some _ _ _ Hg) as Hr. rewrite <- Hlen in Hr.
  destruct (rd_in_range visited _ Hr) as [v Hv].
  (* the search returns *)
  destruct (bfsLoop_total grid width height (S (length grid)) target
              (JS.wr visited (index width x y) 1) [(x, y)] [] 0)
    as (v1 & size & cells & Hbfs & Hlen1).
  { by rewrite length_wr. }
  { pose proof (unmarked_le (JS.wr visited (index width x y) 1)) as Hle.
    rewrite length_wr in Hle. cbn [length]. lia. }
  (* the state before the loop *)
  assert (bfsInv grid width height target (x, y) visited (x, y) dirs
            (JS.wr visited (index width x y) 1) [] [(x, y)]) as Hinit.
  { split; cbn [app].
    - by rewrite length_wr.
    - by apply binary_wr.
    - intros c Hc.
      change (JS.wr visited (index width x y) 1)
        with (JS.wr visited (index width (x, y).1 (x, y).2) 1).
      destruct (decide (c = (x, y))) as [-> | Hne].
      + rewrite (markedAt_mark width visited (x, y) v Hv). split; [| done].
        intros _. right. by apply list_elem_of_singleton.
      + rewrite (markedAt_other width height visited (x, y) c Hin Hc Hne).
        rewrite list_elem_of_singleton. tauto.
    - constructor; [| constructor]. by constructor.
    - apply NoDup_singleton.
    - by apply list_elem_of_singleton.
    - by intros c d ?%elem_of_nil. }
  destruct (bfsLoop_inv grid width height target (x, y) visited Hfresh _ _ _ _ _ _ _
              Hinit Hbfs) as [Hfinal Hsize].
  cbn [fst snd length] in Hfinal, Hsize.
  exists v1, cells. unfold bfs. rewrite Hbfs.
  assert (size = Z.of_nat (length cells)) as -> by lia.
  done.
Qed.

Lemma bfsInv_cells (grid visited0 visited : list Z) (width height target : Z)
    (s cur : Z * Z) (cells : list (Z * Z)) :
  bfsInv grid width height target s visited0 cur dirs visited cells [] →
  NoDup cells
  ∧ (∀ c, c ∈ cells ↔ component grid width height target s c)
  ∧ ∀ c, inBounds width height c.1 c.2 = true →
         markedAt visited width c = true ↔ markedAt visited0 width c = true ∨ c ∈ cells.
Proof.
  intros Hfinal.
  pose proof (λ c, bfsInv_complete _ _ _ _ _ _ _ _ _ c Hfinal) as Hcomplete.
  destruct Hfinal as [H1 Hv1 H2 H3 H4 H5 H6]. rewrite app_nil_r in H2, H3, H4.
  split; [done |]. split; [| exact H2].
  intros c. split; [| apply Hcomplete].
  intros Hc. by apply (Forall_forall (component grid width height target s) cells).
Qed.

(** X20: a search that starts on a cell holding [target], none of whose
    component is marked, returns: its cells are the cells joined to the
    seed by a 4-connected path of cells holding [target], each once; its
    size is their number; and it has marked them and nothing else. *)
Theorem bfs_finds_component
    (grid visited : list Z) (width height : Z) (x y target : Z) :
  length visited = length grid →
  Forall binary visited →
  holds grid width height target (x, y) = true →
  (∀ c, component grid width height target (x, y) c → markedAt visited width c = false) →
  ∃ visited' cells,
    bfs grid width height visited x y target
      = Some (visited', Z.of_nat (length cells), cells)
    ∧ NoDup cells
    ∧ (∀ c, c ∈ cells ↔ component grid width height target (x, y) c)
    ∧ length visited' = length grid
    ∧ ∀ c, inBounds width height c.1 c.2 = true →
           markedAt visited' width c = (markedAt visited width c || bool_decide (c ∈ cells)).
Proof.
  intros Hlen Hbin Hseed Hfresh.
  destruct (bfs_runs grid visited width height x y target Hlen Hbin Hseed Hfresh)
    as (visited' & cells & Hbfs & Hfinal).
  exists visited', cells. split; [done |].
  pose proof (λ c, bfsInv_complete _ _ _ _ _ _ _ _ _ c Hfinal) as Hcomplete.
  destruct Hfinal as [H1 Hv1 H2 H3 H4 H5 H6]. rewrite app_nil_r in H2, H3, H4.
  split; [done |]. split.
  - intros c. split; [| apply Hcomplete].
    intros Hc. by apply (Forall_forall (component grid width height target (x, y)) cells).
  - split; [done |]. intros c Hc. specialize (H2 c Hc).
    destruct (markedAt visited' width c), (markedAt visited width c);
      case_bool_decide; cbn [orb]; try done; intuition congruence.
Qed.

End SearchTheorem.

(** ** The region pruning removes the small components *)

Section Scan.

Import Terrain.

Variables (width height : Z) (target fill minSize : Z).
Hypothesis fill_byte : 0 ≤ fill < 256.
Hypothesis fill_other : fill ≠ target.

(** Filling the cells of a component. *)
Lemma is_Some_rd_wr (g : list Z) (i j v : Z) :
  is_Some (JS.rd g j) → is_Some (JS.rd (JS.wr g i v) j).
Proof.
  intros [x Hx]. apply rd_in_range. rewrite length_wr. by eapply rd_Some.
Qed.

Lemma fill_outside (cells : list (Z * Z)) (g : list Z) (c : Z * Z) :
  Forall (λ c', inBounds width height c'.1 c'.2 = true) cells →
  inBounds width height c.1 c.2 = true → c ∉ cells →
  JS.rd (fold_left (λ g '(cx, cy), JS.wr g (index width cx cy) fill) cells g)
        (index width c.1 c.2)
  = JS.rd g (index width c.1 c.2).
Proof.
  intros Hcells Hin. revert g.
  induction Hcells as [| [cx cy] cells Hc1 _ IH]; intros g Hc; [done |].
  cbn [fold_left]. apply not_elem_of_cons in Hc as [Hne Hc].
  rewrite IH by done. apply rd_wr_ne. intros Heq.
  destruct (index_inj _ _ _ _ _ _ Hc1 Hin Heq) as [? ?]. destruct c. simplify_eq/=.
Qed.

Lemma fill_inside (cells : list (Z * Z)) (g : list Z) (c : Z * Z) :
  Forall (λ c', inBounds width height c'.1 c'.2 = true) cells →
  inBounds width height c.1 c.2 = true → c ∈ cells →
  is_Some (JS.rd g (index width c.1 c.2)) →
  JS.rd (fold_left (λ g '(cx, cy), JS.wr g (index width cx cy) fill) cells g)
        (index width c.1 c.2)
  = Some fill.
Proof.
  intros Hcells Hin. revert g.
  induction Hcells as [| [cx cy] cells Hc1 Hrest IH]; intros g Hc Hg;
    [by apply elem_of_nil in Hc |].
  cbn [fold_left]. destruct (decide (c ∈ cells)) as [Hc' | Hc'].
  - apply IH; [done |]. by apply is_Some_rd_wr.
  - apply elem_of_cons in Hc as [-> | ?]; [| done].
    rewrite fill_outside by done. cbn [fst snd]. destruct Hg as [v Hv]. cbn [fst snd] in Hv.
    rewrite (rd_wr_eq _ _ _ v Hv). f_equal. apply Z.mod_small. exact fill_byte.
Qed.

Variable grid0 : list Z.

Lemma component_equiv (p c c' : Z * Z) :
  component grid0 width height target p c →
  component grid0 width height target c c' ↔ component grid0 width height target p c'.
Proof.
  intros Hpc. split; intros H.
  - by eapply path_trans.
  - eapply path_trans; [| exact H]. by apply path_sym.
Qed.

(** Two lists of the cells of one component have the same length. *)
Lemma component_size (c : Z * Z) (cells cells' : list (Z * Z)) :
  NoDup cells → NoDup cells' →
  (∀ c', c' ∈ cells ↔ component grid0 width height target c c') →
  (∀ c', c' ∈ cells' ↔ component grid0 width height target c c') →
  length cells = length cells'.
Proof.
  intros Hn Hn' Hc Hc'. apply Permutation_length, NoDup_Permutation; [done | done |].
  intros x. by rewrite Hc, Hc'.
Qed.

Section Step.

Variables (done : list (Z * Z)) (g visited : list Z).
Hypothesis inv : pruneInv grid0 width height target fill minSize done g visited.

(** A cell of the grid that holds the target and is not marked is as it
    was, and a cell that holds the target now held it from the start. *)
Lemma unmarked_holds (c : Z * Z) :
  holds grid0 width height target c = true → markedAt visited width c = false →
  JS.rd g (index width c.1 c.2) = Some target.
Proof.
  intros Hh Hm. unfold holds in Hh. apply andb_true_iff in Hh as [Hin Hg].
  apply same_Some in Hg.
  destruct (prune_cells _ _ _ _ _ _ _ _ _ inv c target Hin Hg) as [(Hm' & _) | [_ ?]];
    [congruence | done].
Qed.

Lemma holds_from_start (c : Z * Z) :
  holds g width height target c = true → holds grid0 width height target c = true.
Proof.
  unfold holds. intros [Hin Hg]%andb_true_iff. rewrite Hin. cbn [andb].
  apply same_Some in Hg.
  pose proof (rd_Some _ _ _ Hg) as Hr. rewrite (prune_length _ _ _ _ _ _ _ _ _ inv) in Hr.
  destruct (rd_in_range grid0 _ Hr) as [v Hv]. rewrite Hv.
  destruct (prune_cells _ _ _ _ _ _ _ _ _ inv c v Hin Hv) as [(_ & _ & Hf) | [_ Hf]];
    rewrite Hg in Hf; injection Hf as Hf.
  - exfalso. by apply fill_other.
  - subst v. cbn. apply Z.eqb_refl.
Qed.

Lemma marked_component (p c : Z * Z) :
  component grid0 width height target p c →
  markedAt visited width p = markedAt visited width c.
Proof.
  intros Hpc.
  assert (inBounds width height p.1 p.2 = true) as Hp.
  { apply path_start in Hpc. unfold holds in Hpc. by apply andb_true_iff in Hpc as [? _]. }
  assert (inBounds width height c.1 c.2 = true) as Hc.
  { apply path_end in Hpc. unfold holds in Hpc. by apply andb_true_iff in Hpc as [? _]. }
  pose proof (prune_marks _ _ _ _ _ _ _ _ _ inv p Hp) as Hmp.
  pose proof (prune_marks _ _ _ _ _ _ _ _ _ inv c Hc) as Hmc.
  destruct (markedAt visited width p) eqn:Ep, (markedAt visited width c) eqn:Ec;
    try done.
  - destruct (proj1 Hmp eq_refl) as (p' & Hp' & Hcomp).
    assert (false = true) as ?; [| done]. apply Hmc. exists p'. split; [done |].
    by eapply path_trans.
  - destruct (proj1 Hmc eq_refl) as (p' & Hp' & Hcomp).
    assert (false = true) as ?; [| done]. apply Hmp. exists p'. split; [done |].
    eapply path_trans; [exact Hcomp |]. by apply path_sym.
Qed.

(** The component of an unmarked cell is the same in the grid as it is now
    and in the grid the scan started from. *)
Lemma component_now (p c : Z * Z) :
  holds grid0 width height target p = true → markedAt visited width p = false →
  component g width height target p c ↔ component grid0 width height target p c.
Proof.
  intros Hp Hm. split; intros Hpc.
  - apply (path_within (holds g width height target)); [| done].
    intros c' Hc'. apply holds_from_start. by eapply path_end.
  - apply (path_within (holds grid0 width height target)); [| done].
    intros c' Hc'. pose proof (path_end _ _ _ Hc') as Hh.
    assert (markedAt visited width c' = false) as Hm'
      by (by rewrite <- (marked_component p c')).
    unfold holds in *. apply andb_true_iff in Hh as [Hin _]. rewrite Hin. cbn [andb].
    rewrite (unmarked_holds c'); [cbn; apply Z.eqb_refl | | done].
    eapply path_end, Hc'.
Qed.

(** One position of the scan. *)
Lemma pruneAt_inv (p : Z * Z) (r : list Z * list Z) :
  inBounds width height p.1 p.2 = true →
  pruneAt width height target fill minSize (g, visited) p = Some r →
  pruneInv grid0 width height target fill minSize (done ++ [p]) r.1 r.2.
Proof.
  intros Hin. pose proof inv as [Kl Kv Kb Km Kc].
  assert (∀ c, (∃ p', p' ∈ done ++ [p] ∧ component grid0 width height target p' c)
               ↔ (∃ p', p' ∈ done ∧ component grid0 width height target p' c)
                 ∨ component grid0 width height target p c) as Hdone.
  { intros c. split.
    - intros (p' & [Hp' | ->%list_elem_of_singleton]%elem_of_app & Hc); [left | right];
        eauto.
    - intros [(p' & Hp' & Hc) | Hc].
      + exists p'. split; [apply elem_of_app; by left | done].
      + exists p. split; [apply elem_of_app; right; by apply list_elem_of_singleton | done]. }
  unfold pruneAt. destruct p as [x y]. cbn [fst snd] in Hin.
  destruct (JS.same (JS.rd visited (index width x y)) 0
            && JS.same (JS.rd g (index width x y)) target) eqn:Htest.
  - (* a seed *)
    apply andb_true_iff in Htest as [Hv0 Hg]. apply same_Some in Hv0.
    assert (markedAt visited width (x, y) = false) as Hm
      by (unfold markedAt; cbn [fst snd]; by rewrite Hv0).
    assert (holds g width height target (x, y) = true) as Hh
      by (unfold holds; cbn [fst snd]; by rewrite Hin, Hg).
    pose proof (holds_from_start _ Hh) as Hh0.
    destruct (bfs_runs g visited width height x y target ltac:(congruence) Kb Hh)
      as (visited' & cells & Hbfs & Hfinal).
    { intros c Hc%component_now; [| done | done].
      by rewrite <- (marked_component (x, y) c). }
    destruct (bfsInv_cells _ _ _ _ _ _ _ _ _ Hfinal) as (Hnodup & Hcells & Hmarks).
    assert (length visited' = length grid0 ∧ Forall binary visited') as [Kv' Kb'].
    { destruct Hfinal as [H1 H2 _ _ _ _ _]. split; [congruence | done]. }
    assert (∀ c, c ∈ cells ↔ component grid0 width height target (x, y) c) as Hcells0.
    { intros c. rewrite Hcells. by apply component_now. }
    assert (Forall (λ c, inBounds width height c.1 c.2 = true) cells) as Hbounds.
    { apply Forall_forall. intros c Hc%Hcells0%path_end. unfold holds in Hc.
      by apply andb_true_iff in Hc as [? _]. }
    assert (∀ c, inBounds width height c.1 c.2 = true →
              markedAt visited' width c = true
              ↔ ∃ p', p' ∈ done ++ [(x, y)] ∧ component grid0 width height target p' c)
      as Km'.
    { intros c Hc. rewrite Hmarks, Hdone, Hcells0, (Km c Hc) by done. done. }
    rewrite Hbfs.
    (* the cells outside the component are as they were *)
    assert (∀ g', length g' = length grid0 →
              (∀ c, inBounds width height c.1 c.2 = true → c ∉ cells →
                    JS.rd g' (index width c.1 c.2) = JS.rd g (index width c.1 c.2)) →
              (∀ c v, c ∈ cells →
                    JS.rd grid0 (index width c.1 c.2) = Some v →
                    (smallComponent grid0 width height target minSize c
                     ∧ JS.rd g' (index width c.1 c.2) = Some fill)
                    ∨ (¬ smallComponent grid0 width height target minSize c
                       ∧ JS.rd g' (index width c.1 c.2) = Some v)) →
              pruneInv grid0 width height target fill minSize (done ++ [(x, y)])
                       g' visited') as Hbuild.
    { intros g' Hl Hout Hcomp. split; try done.
      intros c v Hc Hv. destruct (decide (c ∈ cells)) as [Hcc | Hcc].
      - assert (markedAt visited' width c = true) as Hm' by (apply Hmarks; auto).
        destruct (Hcomp c v Hcc Hv) as [[Hs Hf] | [Hs Hf]]; [left | right]; tauto.
      - rewrite (Hout c Hc Hcc).
        assert (markedAt visited' width c = markedAt visited width c) as ->.
        { pose proof (Hmarks c Hc) as Hmc.
          destruct (markedAt visited' width c), (markedAt visited width c);
            try done; intuition congruence. }
        by apply Kc. }
    destruct (Z.ltb_spec (Z.of_nat (length cells)) minSize) as [Hsmall | Hbig];
      intros [= <-]; cbn [fst snd]; apply Hbuild.
    + by rewrite length_fill.
    + intros c Hc Hcc. by apply fill_outside.
    + intros c v Hcc Hv. left. split.
      * exists cells. split; [done |]. split; [| done].
        intros c'. rewrite Hcells0. symmetry. apply component_equiv. by apply Hcells0.
      * apply fill_inside; [done | | done |].
        -- by apply (Forall_forall (λ c, inBounds width height c.1 c.2 = true) cells).
        -- rewrite (unmarked_holds c); [done | by eapply path_end, Hcells0 |].
           rewrite <- (marked_component (x, y) c); [done | by apply Hcells0].
    + done.
    + done.
    + intros c v Hcc Hv. right. split.
      * intros (cells' & Hn' & Hc' & Hlt).
        assert (length cells = length cells') as Heq.
        { apply (component_size c); [done | done | | done].
          intros c'. rewrite Hcells0. symmetry. apply component_equiv. by apply Hcells0. }
        lia.
      * assert (markedAt visited width c = false) as Hmc
          by (rewrite <- (marked_component (x, y) c); [done | by apply Hcells0]).
        assert (inBounds width height c.1 c.2 = true) as Hc
          by (by apply (Forall_forall (λ c, inBounds width height c.1 c.2 = true) cells)).
        destruct (Kc c v Hc Hv) as [(? & _) | [_ ?]]; [congruence | done].
  - (* not a seed *)
    intros [= <-]. cbn [fst snd]. split; try done.
    intros c Hc. rewrite Hdone, (Km c Hc). split; [by left |].
    intros [? | Hpc]; [done |].
    (* the position holds the target from the start, so it is marked *)
    assert (markedAt visited width (x, y) = true) as Hm.
    { destruct (markedAt visited width (x, y)) eqn:Hm; [done | exfalso].
      pose proof (path_start _ _ _ Hpc) as Hh0.
      pose proof (unmarked_holds _ Hh0 Hm) as Hg. cbn [fst snd] in Hg.
      pose proof (rd_Some _ _ _ Hg) as Hr. rewrite Kl, <- Kv in Hr.
      destruct (rd_in_range visited _ Hr) as [v Hv].
      assert (binary v) as Hb.
      { revert Hv. unfold JS.rd. destruct (_ <? 0); [done |]. intros Hv.
        exact (Forall_lookup_1 _ _ _ _ Kb Hv). }
      unfold markedAt in Hm. cbn [fst snd] in Hm.
      rewrite Hv in Hm. rewrite Hv, Hg in Htest. cbn [JS.same] in Htest, Hm.
      rewrite Z.eqb_refl, andb_true_r in Htest.
      destruct Hb as [-> | ->]; done. }
    rewrite <- (Km c Hc), <- (marked_component (x, y) c); done.
Qed.

End Step.

Lemma foldM_pruneAt_inv (l done : list (Z * Z)) (g visited : list Z)
    (r : list Z * list Z) :
  Forall (λ c, inBounds width height c.1 c.2 = true) l →
  pruneInv grid0 width height target fill minSize done g visited →
  foldM (pruneAt width height target fill minSize) l (g, visited) = Some r →
  pruneInv grid0 width height target fill minSize (done ++ l) r.1 r.2.
Proof.
  intros Hl. revert done g visited.
  induction Hl as [| p l Hp _ IH]; intros done g visited Hinv; cbn [foldM].
  - intros [= <-]. by rewrite app_nil_r.
  - destruct (pruneAt width height target fill minSize (g, visited) p)
      as [[g1 v1] |] eqn:Hstep; [| done].
    replace (done ++ p :: l) with ((done ++ [p]) ++ l) by (by rewrite <- app_assoc).
    apply IH. exact (pruneAt_inv done g visited Hinv p (g1, v1) Hp Hstep).
Qed.

(** A whole scan, from a [visited] array of zeros. *)
Lemma scan_prunedTo (r : list Z * list Z) :
  foldM (pruneAt width height target fill minSize) (coords width height)
        (grid0, replicate (length grid0) 0) = Some r →
  prunedTo grid0 r.1 width height target fill minSize ∧ length r.2 = length grid0.
Proof.
  intros Hr.
  assert (∀ c, markedAt (replicate (length grid0) 0) width c = false) as Hzero.
  { intros c. unfold markedAt, JS.rd. destruct (_ <? 0); [done |].
    destruct (replicate _ _ !! _) as [v |] eqn:E; [| done].
    by apply lookup_replicate in E as [-> _]. }
  assert (pruneInv grid0 width height target fill minSize [] grid0
            (replicate (length grid0) 0)) as Hinit.
  { split; [done | apply length_replicate | | |].
    - apply Forall_replicate. by left.
    - intros c _. rewrite Hzero. split; [done |]. by intros (p & ?%elem_of_nil & _).
    - intros c v _ Hv. right. rewrite Hzero. split; [by intros [? _] | done]. }
  pose proof (foldM_pruneAt_inv (coords width height) [] _ _ r
                ltac:(apply Forall_forall; intros [x y]; apply elem_of_coords)
                Hinit Hr) as [Kl Kv Kb Km Kc].
  cbn [app] in Km. split; [| done]. split; [done |].
  intros x y v Hin Hv.
  assert (markedAt r.2 width (x, y) = true ↔ holds grid0 width height target (x, y) = true)
    as Hm.
  { rewrite (Km (x, y) Hin). split.
    - intros (p & _ & Hp). by eapply path_end.
    - intros Hh. exists (x, y). split; [by apply elem_of_coords | by constructor]. }
  destruct (Kc (x, y) v Hin Hv) as [(H1 & H2 & H3) | [H1 H2]]; [left | right]; tauto.
Qed.

End Scan.

(** X21: the pruning returns, and it does what its two scans say, on any
    grid: the first turns into 0 exactly the cells that hold 1 and whose
    4-connected component of cells holding 1 has fewer than [minLandSize]
    cells; the second, on the grid the first leaves, turns into 1 exactly
    the cells that hold 0 and whose component of cells holding 0 has fewer
    than [minWaterSize] cells. Every other cell inside the grid is left as
    it is. *)
Theorem removeSmallRegions_prunes_components
    (grid : list Z) (width height minLandSize minWaterSize : Z) :
  ∃ grid1 grid2,
    Terrain.removeSmallRegions grid width height minLandSize minWaterSize = Some grid2
    ∧ prunedTo grid grid1 width height 1 0 minLandSize
    ∧ prunedTo grid1 grid2 width height 0 1 minWaterSize.
Proof.
  destruct (removeSmallRegions_total grid width height minLandSize minWaterSize)
    as (grid2 & Hr & _).
  revert Hr. unfold Terrain.removeSmallRegions.
  destruct (Terrain.foldM _ _ _) as [[g1 v1] |] eqn:H1; [| done].
  cbn [mbind option_bind].
  destruct (Terrain.foldM _ _ (g1, _)) as [[g2 v2] |] eqn:H2; [| done].
  cbn [mbind option_bind]. intros [= <-].
  destruct (scan_prunedTo width height 1 0 minLandSize ltac:(lia) ltac:(lia) grid _ H1)
    as [Hp1 Hv1]. cbn [fst snd] in Hp1, Hv1.
  exists g1, g2. split; [done |]. split; [done |].
  assert (length v1 = length g1) as Hlen by (destruct Hp1 as [-> _]; done).
  rewrite Hlen in H2.
  by destruct (scan_prunedTo width height 0 1 minWaterSize ltac:(lia) ltac:(lia) g1 _ H2).
Qed.

Section AfterTheScan.

Import Terrain.

Variables (width height : Z) (target fill minSize : Z).
Hypothesis fill_other : fill ≠ target.

Lemma smallComponent_equiv (grid : list Z) (c c' : Z * Z) :
  component grid width height target c c' →
  smallComponent grid width height target minSize c' →
  smallComponent grid width height target minSize c.
Proof.
  intros Hcc (cells & Hn & Hc & Hlt). exists cells. split; [done |]. split; [| done].
  intros x. rewrite Hc. by apply component_equiv.
Qed.

(** After a scan no component of cells holding the target is small. *)
Lemma prunedTo_no_small (grid grid' : list Z) (c : Z * Z) :
  prunedTo grid grid' width height target fill minSize →
  holds grid' width height target c = true →
  ¬ smallComponent grid' width height target minSize c.
Proof.
  intros [Hlen Hcells] Hc.
  (* a cell that holds the target after the scan held it before, in a
     component that is not small *)
  assert (∀ x, holds grid' width height target x = true →
               holds grid width height target x = true
               ∧ ¬ smallComponent grid width height target minSize x) as Hbefore.
  { intros [x y] Hx. unfold holds in Hx |- *. cbn [fst snd] in *.
    apply andb_true_iff in Hx as [Hin Hg]. apply same_Some in Hg.
    pose proof (rd_Some _ _ _ Hg) as Hr. rewrite Hlen in Hr.
    destruct (rd_in_range grid _ Hr) as [v Hv].
    destruct (Hcells x y v Hin Hv) as [(_ & _ & Hf) | [Hns Hf]];
      rewrite Hg in Hf; injection Hf as Hf; [exfalso; by apply fill_other |].
    subst v. unfold holds in Hns. cbn [fst snd] in Hns.
    rewrite Hin, Hv in Hns |- *. cbn in Hns |- *. rewrite Z.eqb_refl in Hns |- *.
    split; [done | tauto]. }
  destruct (Hbefore c Hc) as [Hc0 Hbig].
  (* the cells of its component are left as they are *)
  assert (∀ x, component grid width height target c x →
               holds grid' width height target x = true) as Hkept.
  { intros [x y] Hx. pose proof (path_end _ _ _ Hx) as Hh.
    unfold holds in Hh |- *. cbn [fst snd] in *.
    apply andb_true_iff in Hh as [Hin Hg]. apply same_Some in Hg.
    destruct (Hcells x y target Hin Hg) as [(_ & Hs & _) | [_ ->]].
    - exfalso. apply Hbig. by apply (smallComponent_equiv grid c (x, y)).
    - rewrite Hin. cbn. apply Z.eqb_refl. }
  intros (cells & Hn & Hmem & Hlt). apply Hbig.
  exists cells. split; [done |]. split; [| done].
  intros x. rewrite Hmem. split; intros Hx.
  - apply (path_within (holds grid' width height target)); [| done].
    intros x' Hx'. by apply Hbefore, (path_end _ _ _ Hx').
  - by apply (path_within (holds grid width height target)).
Qed.

End AfterTheScan.

(** X22: in the grid the pruning returns, no 4-connected component of cells
    holding 0 has fewer than [minWaterSize] cells. *)
Theorem removeSmallRegions_leaves_no_small_water
    (grid : list Z) (width height minLandSize minWaterSize : Z) :
  ∃ grid',
    Terrain.removeSmallRegions grid width height minLandSize minWaterSize = Some grid'
    ∧ ∀ c, holds grid' width height 0 c = true →
           ¬ smallComponent grid' width height 0 minWaterSize c.
Proof.
  destruct (removeSmallRegions_total grid width height minLandSize minWaterSize)
    as (grid2 & Hr & _).
  exists grid2. split; [done |].
  revert Hr. unfold Terrain.removeSmallRegions.
  destruct (Terrain.foldM _ _ _) as [[g1 v1] |] eqn:H1; [| done].
  cbn [mbind option_bind].
  destruct (Terrain.foldM _ _ (g1, _)) as [[g2 v2] |] eqn:H2; [| done].
  cbn [mbind option_bind]. intros [= <-].
  destruct (scan_prunedTo width height 1 0 minLandSize ltac:(lia) ltac:(lia) grid _ H1)
    as [Hp1 Hv1]. cbn [fst snd] in Hp1, Hv1.
  assert (length v1 = length g1) as Hlen by (destruct Hp1 as [-> _]; done).
  rewrite Hlen in H2.
  destruct (scan_prunedTo width height 0 1 minWaterSize ltac:(lia) ltac:(lia) g1 _ H2)
    as [Hp2 _]. cbn [fst] in Hp2.
  intros c. by apply (prunedTo_no_small width height 0 1 minWaterSize ltac:(lia) g1 g2).
Qed.

(** ** hashSeed *)

Section HashSeed.

Lemma ToUint32_xor (a b : Z) :
  JS.ToUint32 (JS.xor a b) = Z.lxor (JS.ToUint32 a) (JS.ToUint32 b).
Proof.
  apply Z.bits_inj'. intros i Hi. rewrite Z.lxor_spec.
  destruct (Z.lt_ge_cases i 32).
  - rewrite !ToUint32_bits by lia. apply xor_bits. lia.
  - by rewrite !ToUint32_high.
Qed.

Lemma ToUint32_imul (a b : Z) :
  JS.ToUint32 (Math_imul a b) = (JS.ToUint32 a * JS.ToUint32 b) mod 2 ^ 32.
Proof. unfold Math_imul. by rewrite ToUint32_ToInt32. Qed.

Lemma hashSeed_fold (text : list Z) (h : Z) :
  Forall (λ c, 0 ≤ c < 2 ^ 16) text →
  JS.ToUint32 (fold_left (λ h c, let h := JS.xor h c in Math_imul h 16777619) text h)
  = fold_left (λ h c, (Z.lxor h c * 16777619) mod 2 ^ 32) text (JS.ToUint32 h).
Proof.
  intros Htext. revert h. induction Htext as [| c text Hc _ IH]; intros h; [done |].
  cbn [fold_left]. rewrite IH. f_equal. cbv zeta.
  rewrite ToUint32_imul, ToUint32_xor. f_equal. f_equal. f_equal.
  unfold JS.ToUint32. apply Z.mod_small. lia.
Qed.

(** X23: [hashSeed] is the 32-bit FNV-1a hash of the code units of its
    text, as an unsigned value: the signed intermediate results of [^] and
    [Math.imul] do not show in the result. *)
Theorem hashSeed_is_fnv1a (text : list Z) :
  Forall (λ c, 0 ≤ c < 2 ^ 16) text →
  hashSeed text = fnv1a text ∧ 0 ≤ hashSeed text < 2 ^ 32.
Proof.
  intros Htext. unfold hashSeed, fnv1a. cbv zeta.
  assert (∀ z, JS.ushr z 0 = JS.ToUint32 z) as Hu
    by (intros z; unfold JS.ushr; apply Z.shiftr_0_r).
  rewrite !Hu. split.
  - by rewrite hashSeed_fold.
  - unfold JS.ToUint32. apply Z.mod_pos_bound. lia.
Qed.

End HashSeed.

(** ** The magnitude passes, cell by cell *)

Section SnapshotPasses.

Import Terrain Cell.

Lemma smoothAt_step (copy out : list Z) (width height radius : Z) (c : Z * Z) :
  smoothAt copy width height radius out c
  = snapshotStep width (smoothed copy width height radius) out c.
Proof.
  unfold smoothAt, snapshotStep, smoothed. destruct c as [x y]. cbn [fst snd].
  rewrite hasBit_land_test.
  destruct (negb (hasBit (JS.rd copy (index width x y)) IS_LAND_BIT)); [done |].
  destruct (radius =? 0); [done |].
  by destruct (windowSum copy width height radius x y) as [sum count].
Qed.

Lemma accentAt_step (copy out : list Z) (width height : Z) (c : Z * Z) :
  accentAt copy width height out c
  = snapshotStep width (accented copy width height) out c.
Proof.
  unfold accentAt, snapshotStep, accented. destruct c as [x y]. cbn [fst snd].
  rewrite hasBit_land_test.
  destruct (negb (hasBit (JS.rd copy (index width x y)) IS_LAND_BIT)); [done |].
  destruct (windowSum copy width height 1 x y) as [sum count]. cbn [fst snd].
  by destruct (_ >=? _).
Qed.

Lemma remagnitude_byte (c : Z) (m : option Z) :
  0 ≤ c < 256 →
  0 ≤ remagnitude c m < 256 ∧ flagBits (remagnitude c m) = flagBits c.
Proof.
  intros Hc. destruct m as [m |]; cbn [remagnitude]; [| done].
  pose proof (and_mask_range m) as Hk.
  by destruct (flagBits_plus c (JS.and m MAG_MASK) Hc Hk) as (? & ? & _).
Qed.

Section Pass.

Variables (buf0 : list Z) (width height : Z) (body : Z * Z → option Z).
Hypothesis buf0_bytes : bytes buf0.

Lemma snapshotStep_inv (done : list (Z * Z)) (out : list Z) (x y : Z) :
  inBounds width height x y = true →
  snapshotInv buf0 width height body done out →
  snapshotInv buf0 width height body (done ++ [(x, y)])
              (snapshotStep width body out (x, y)).
Proof.
  intros Hin [Hlen Hinv]. unfold snapshotStep. cbn [fst snd].
  destruct (body (x, y)) as [m |] eqn:Hbody.
  - (* a magnitude is written *)
    split; [by rewrite length_wr |].
    intros x' y' c0' Hin' E0'.
    destruct (Hinv x' y' c0' Hin' E0') as (c' & Hc' & Hcases' & Hdone').
    destruct (decide (index width x' y' = index width x y)) as [Heq | Hne].
    + destruct (index_inj width height x' y' x y Hin' Hin Heq) as [-> ->].
      rewrite (rd_wr_eq _ _ _ c' Hc'), Hc', Hbody. cbn [remagnitude].
      pose proof (bytes_rd _ _ _ buf0_bytes E0') as Hbyte.
      assert (0 ≤ c' < 256 ∧ flagBits c' = flagBits c0') as [Hbyte' Hflags].
      { destruct Hcases' as [-> | ->]; [done |]. by apply remagnitude_byte. }
      rewrite withMagnitude_byte, Hflags by done.
      eexists. split; [done |]. split; [by right | done].
    + rewrite rd_wr_ne by done. exists c'. split; [done |]. split; [done |].
      intros [Hd | Hd%list_elem_of_singleton]%elem_of_app; [by apply Hdone' |].
      simplify_eq.
  - (* nothing is written *)
    split; [done |]. intros x' y' c0' Hin' E0'.
    destruct (Hinv x' y' c0' Hin' E0') as (c' & Hc' & Hcases' & Hdone').
    exists c'. split; [done |]. split; [done |].
    intros [Hd | Hd%list_elem_of_singleton]%elem_of_app; [by apply Hdone' |].
    simplify_eq. rewrite Hbody in *. by destruct Hcases'.
Qed.

Lemma snapshot_fold (l done : list (Z * Z)) (out : list Z) :
  Forall (λ c, inBounds width height c.1 c.2 = true) l →
  snapshotInv buf0 width height body done out →
  snapshotInv buf0 width height body (done ++ l)
              (fold_left (snapshotStep width body) l out).
Proof.
  intros Hl. revert done out.
  induction Hl as [| [x y] l Hxy _ IH]; intros done out Hinv; cbn [fold_left].
  - by rewrite app_nil_r.
  - replace (done ++ (x, y) :: l) with ((done ++ [(x, y)]) ++ l)
      by (by rewrite <- app_assoc).
    apply IH. by apply snapshotStep_inv.
Qed.

(** What a pass over all the cells leaves in a cell. *)
Lemma snapshot_pass (x y c : Z) :
  inBounds width height x y = true →
  JS.rd buf0 (index width x y) = Some c →
  JS.rd (fold_left (snapshotStep width body) (coords width height) buf0)
        (index width x y)
  = Some (remagnitude c (body (x, y))).
Proof.
  intros Hin Hc.
  assert (snapshotInv buf0 width height body ([] ++ coords width height)
            (fold_left (snapshotStep width body) (coords width height) buf0))
    as [_ Hinv].
  { apply snapshot_fold.
    - apply Forall_forall. intros [x' y'] Hc'. by apply elem_of_coords.
    - split; [done |]. intros x' y' c0 _ Hc0. exists c0.
      split; [done |]. split; [by left |]. by intros ?%elem_of_nil. }
  destruct (Hinv x y c Hin Hc) as (c' & -> & _ & Hdone).
  rewrite Hdone; [done |]. by apply elem_of_coords.
Qed.

End Pass.

Lemma fold_left_ext_steps {A S : Type} (f g : S → A → S) (l : list A) (s : S) :
  (∀ s a, f s a = g s a) → fold_left f l s = fold_left g l s.
Proof.
  intros Hfg. revert s. induction l as [| a l IH]; intros s; [done |].
  cbn [fold_left]. by rewrite Hfg, IH.
Qed.

(** X24: after the smoothing a cell inside the grid holds what it held,
    unless it is land and the radius (the setting brought into 0..2) is
    not 0: then it keeps its flags and gets as magnitude the average,
    rounded down, of the magnitudes that the land cells of its window had
    before the pass. *)
Theorem smoothMagnitude_cells
    (out : list Z) (width height smoothingRadius : Z) (x y c : Z) :
  bytes out →
  inBounds width height x y = true →
  JS.rd out (index width x y) = Some c →
  let radius := Z.max 0 (Z.min 2 smoothingRadius) in
  JS.rd (smoothMagnitude out width height smoothingRadius) (index width x y)
  = Some (if isLand c && negb (radius =? 0)
          then flagBits c + windowAverage (windowSum out width height radius x y)
          else c).
Proof.
  intros Hb Hin Hc radius. unfold smoothMagnitude. cbv zeta. fold radius.
  rewrite (fold_left_ext_steps _ (snapshotStep width (smoothed out width height radius)))
    by (intros; apply smoothAt_step).
  rewrite (snapshot_pass out width height _ Hb x y c Hin Hc). f_equal.
  unfold smoothed. cbn [fst snd]. rewrite Hc.
  destruct (hasBit_testbit c (bytes_rd _ _ _ Hb Hc)) as (-> & _).
  destruct (isLand c); cbn [negb andb]; [| done].
  destruct (radius =? 0); cbn [negb remagnitude]; [done |].
  by rewrite (proj2 (windowAverage_mask _)).
Qed.

(** X25: after the ridge accent a cell inside the grid holds what it held,
    unless it is land and its magnitude is at least 2 above the average,
    rounded down, of the magnitudes that the land cells of its 3 x 3
    window had before the pass: then its magnitude is raised by 2, capped
    at 31. *)
Theorem ridgeAccentPass_cells (out : list Z) (width height : Z) (x y c : Z) :
  bytes out →
  inBounds width height x y = true →
  JS.rd out (index width x y) = Some c →
  let w := windowSum out width height 1 x y in
  JS.rd (ridgeAccentPass out width height true) (index width x y)
  = Some (if isLand c && (magnitude c >=? w.1 / Z.max 1 w.2 + 2)
          then boosted c else c).
Proof.
  intros Hb Hin Hc w. unfold ridgeAccentPass.
  rewrite (fold_left_ext_steps _ (snapshotStep width (accented out width height)))
    by (intros; apply accentAt_step).
  rewrite (snapshot_pass out width height _ Hb x y c Hin Hc). f_equal.
  unfold accented. cbn [fst snd]. rewrite Hc. change (JS.num (Some c)) with c.
  pose proof (bytes_rd _ _ _ Hb Hc) as Hbyte.
  destruct (hasBit_testbit c Hbyte) as (-> & _ & _ & ->).
  destruct (isLand c); cbn [negb andb]; [| done].
  fold w. destruct (_ >=? _); cbn [remagnitude]; [| done].
  rewrite boosted_byte by done.
  pose proof (magnitude_range c). rewrite and_mask_small by lia. done.
Qed.

End SnapshotPasses.

(** ** Instances of the conditional theorems on the search, the hash and
    the cells of the magnitude passes *)

Lemma markedAt_zeros (n : nat) (width : Z) (c : Z * Z) :
  markedAt (replicate n 0) width c = false.
Proof.
  unfold markedAt, JS.rd. destruct (_ <? 0); [done |].
  destruct (replicate _ _ !! _) as [v |] eqn:E; [| done].
  by apply lookup_replicate in E as [-> _].
Qed.

(** A search on the 2 x 2 grid with land in the first row and in the
    bottom right corner. *)
Lemma bfs_finds_component_witness :
  length (replicate 4 0) = length [1; 1; 0; 1]
  ∧ Forall binary (replicate 4 0)
  ∧ holds [1; 1; 0; 1] 2 2 1 (0, 0) = true
  ∧ (∀ c, component [1; 1; 0; 1] 2 2 1 (0, 0) c → markedAt (replicate 4 0) 2 c = false)
  ∧ ∃ visited' cells,
      Terrain.bfs [1; 1; 0; 1] 2 2 (replicate 4 0) 0 0 1
        = Some (visited', Z.of_nat (length cells), cells)
      ∧ NoDup cells
      ∧ (∀ c, c ∈ cells ↔ component [1; 1; 0; 1] 2 2 1 (0, 0) c)
      ∧ length visited' = length [1; 1; 0; 1]
      ∧ ∀ c, Terrain.inBounds 2 2 c.1 c.2 = true →
             markedAt visited' 2 c
             = (markedAt (replicate 4 0) 2 c || bool_decide (c ∈ cells)).
Proof.
  assert (Forall binary (replicate 4 0)) as Hb by (apply Forall_replicate; by left).
  split; [reflexivity |]. split; [exact Hb |]. split; [reflexivity |].
  split; [intros c _; apply markedAt_zeros |].
  exact (bfs_finds_component [1; 1; 0; 1] (replicate 4 0) 2 2 0 0 1
           eq_refl Hb eq_refl (λ c _, markedAt_zeros 4 2 c)).
Defined.

(** The hash of the text "ab". *)
Lemma hashSeed_is_fnv1a_witness :
  Forall (λ c, 0 ≤ c < 2 ^ 16) [97; 98]
  ∧ hashSeed [97; 98] = fnv1a [97; 98] ∧ 0 ≤ hashSeed [97; 98] < 2 ^ 32.
Proof.
  assert (Forall (λ c, 0 ≤ c < 2 ^ 16) [97; 98]) as H
    by (repeat (constructor; [lia |]); constructor).
  split; [exact H |]. exact (hashSeed_is_fnv1a [97; 98] H).
Defined.

Lemma smoothMagnitude_cells_witness :
  bytes coastField
  ∧ Terrain.inBounds 3 2 1 0 = true
  ∧ JS.rd coastField (Terrain.index 3 1 0) = Some 140
  ∧ let radius := Z.max 0 (Z.min 2 1) in
    JS.rd (Terrain.smoothMagnitude coastField 3 2 1) (Terrain.index 3 1 0)
    = Some (if Cell.isLand 140 && negb (radius =? 0)
            then flagBits 140
                 + windowAverage (Terrain.windowSum coastField 3 2 radius 1 0)
            else 140).
Proof.
  split; [exact coastField_bytes |]. split; [reflexivity |]. split; [reflexivity |].
  exact (smoothMagnitude_cells coastField 3 2 1 1 0 140 coastField_bytes eq_refl eq_refl).
Defined.

Lemma ridgeAccentPass_cells_witness :
  bytes coastField
  ∧ Terrain.inBounds 3 2 1 1 = true
  ∧ JS.rd coastField (Terrain.index 3 1 1) = Some 150
  ∧ let w := Terrain.windowSum coastField 3 2 1 1 1 in
    JS.rd (Terrain.ridgeAccentPass coastField 3 2 true) (Terrain.index 3 1 1)
    = Some (if Cell.isLand 150 && (Cell.magnitude 150 >=? w.1 / Z.max 1 w.2 + 2)
            then boosted 150 else 150).
Proof.
  split; [exact coastField_bytes |]. split; [reflexivity |]. split; [reflexivity |].
  exact (ridgeAccentPass_cells coastField 3 2 1 1 150 coastField_bytes eq_refl eq_refl).
Defined.
